(** * cwltool/checker.py: static checking of CWL workflow connectivity

    A shallow embedding of [cwltool/checker.py] and of the part of Python it
    runs on, followed by the properties of the checker.

    - [Py]: the loader's values (None, booleans, integers, strings, lists,
      dicts), Python's [==], [in], truthiness, [str.split], and the
      exceptions a run can end with.
    - the assignability oracle [can_assign_src_to_sink] with
      [_compare_records], the link-merge adapter [check_types];
    - the edge enumerator [_check_all_types] over a store of source
      parameters, and [static_checker];
    - [loop_checker];
    - the cycle detector ([get_step_id], [get_dependency_tree], [processDFS],
      [circular_dependency_checker]).

    The two recursive functions of the source carry a bound on their depth
    that their entry points set high enough never to be reached; the
    recursion limit of the Python interpreter is not modelled. *)

From Stdlib Require Import String Ascii List ZArith Bool Arith Lia.
From Stdlib Require Import Relations.Relation_Operators.
From Stdlib Require Import Relations.Operators_Properties.
Import ListNotations.
Local Open Scope string_scope.
Local Open Scope list_scope.
Set Warnings "-register-all".

(* ================================================================= *)
(** ** Python values and primitives *)

Module Py.

(** What the document loader hands to the checker: JSON-like values.
    Floats do not occur in types, parameters or steps and are left out.
    A dict is kept as an association list in insertion order; the key of an
    entry is looked up by its first occurrence, and the dict operations below
    never create a second one. *)
Inductive value : Type :=
| VNone
| VBool (b : bool)
| VInt (n : Z)
| VStr (s : string)
| VList (l : list value)
| VDict (d : list (string * value)).

(** [CWLObjectType]: a mapping from strings to values. *)
Definition obj : Type := list (string * value).

(** The exceptions raised by the checker and by the operations it uses. *)
Inductive exn : Type :=
| KeyError (k : string)
| TypeError
| AttributeError
| IndexError
| ValidationException (msg : string)
| WorkflowException (msg : string).

(** The outcome of a call: a value, an exception, or the bound of the
    recursion counter reached (only the two recursive functions can produce
    the last, and their entry points are shown never to). *)
Inductive result (A : Type) : Type :=
| Ok (a : A)
| Raise (e : exn)
| OutOfFuel.
Arguments Ok {A} a.
Arguments Raise {A} e.
Arguments OutOfFuel {A}.

Definition bind {A B} (c : result A) (k : A -> result B) : result B :=
  match c with
  | Ok a => k a
  | Raise e => Raise e
  | OutOfFuel => OutOfFuel
  end.

(** [d.get(k)] *)
Fixpoint dict_get {A} (d : list (string * A)) (k : string) : option A :=
  match d with
  | [] => None
  | (k', v) :: d' => if String.eqb k k' then Some v else dict_get d' k
  end.

(** [k in d] for a dict [d] *)
Definition dict_has {A} (d : list (string * A)) (k : string) : bool :=
  match dict_get d k with Some _ => true | None => false end.

(** [d[k]] *)
Definition getitem {A} (d : list (string * A)) (k : string) : result A :=
  match dict_get d k with
  | Some v => Ok v
  | None => Raise (KeyError k)
  end.

(** [d.get(k, dflt)] *)
Definition get_default {A} (d : list (string * A)) (k : string) (dflt : A) : A :=
  match dict_get d k with Some v => v | None => dflt end.

(** [d[k] = v]: the entry is replaced in place, or added at the end. *)
Fixpoint dict_set {A} (d : list (string * A)) (k : string) (v : A)
  : list (string * A) :=
  match d with
  | [] => [(k, v)]
  | (k', v') :: d' =>
      if String.eqb k k' then (k', v) :: d' else (k', v') :: dict_set d' k v
  end.

(** [del d[k]], for a key that may be absent. *)
Fixpoint dict_del {A} (d : list (string * A)) (k : string)
  : list (string * A) :=
  match d with
  | [] => []
  | (k', v') :: d' =>
      if String.eqb k k' then dict_del d' k else (k', v') :: dict_del d' k
  end.

(** [bool(v)] *)
Definition truthy (v : value) : bool :=
  match v with
  | VNone => false
  | VBool b => b
  | VInt n => negb (Z.eqb n 0)
  | VStr s => negb (String.eqb s EmptyString)
  | VList l => match l with [] => false | _ => true end
  | VDict d => match d with [] => false | _ => true end
  end.

Definition Z_of_bool (b : bool) : Z := if b then 1%Z else 0%Z.

(** [a == b]: booleans are integers, lists are compared in order, dicts
    key by key whatever the order of their entries. *)
Fixpoint py_eq (a b : value) {struct a} : bool :=
  match a, b with
  | VNone, VNone => true
  | VBool x, VBool y => Bool.eqb x y
  | VBool x, VInt n => Z.eqb (Z_of_bool x) n
  | VInt n, VBool x => Z.eqb n (Z_of_bool x)
  | VInt n, VInt m => Z.eqb n m
  | VStr s, VStr t => String.eqb s t
  | VList l, VList m =>
      (fix eq_list (l m : list value) {struct l} : bool :=
         match l, m with
         | [], [] => true
         | x :: l', y :: m' => py_eq x y && eq_list l' m'
         | _, _ => false
         end) l m
  | VDict d, VDict e =>
      Nat.eqb (length d) (length e) &&
      (fix eq_items (d : list (string * value)) {struct d} : bool :=
         match d with
         | [] => true
         | (k, v) :: d' =>
             match dict_get e k with
             | Some w => py_eq v w
             | None => false
             end && eq_items d'
         end) d
  | _, _ => false
  end.

(** [s in c] for a string [s]: membership in a list, key of a dict,
    substring of a string; anything else is not a container. *)
Fixpoint is_substring (p s : string) : bool :=
  String.prefix p s ||
  match s with
  | EmptyString => false
  | String _ s' => is_substring p s'
  end.

Definition py_contains (c : value) (s : string) : result bool :=
  match c with
  | VList l => Ok (existsb (fun x => py_eq (VStr s) x) l)
  | VDict d => Ok (dict_has d s)
  | VStr t => Ok (is_substring s t)
  | _ => Raise TypeError
  end.

(** [for x in v]: the elements of a list, the keys of a dict, the characters
    of a string. *)
Fixpoint chars (s : string) : list value :=
  match s with
  | EmptyString => []
  | String c s' => VStr (String c EmptyString) :: chars s'
  end.

Definition py_iter (v : value) : result (list value) :=
  match v with
  | VList l => Ok l
  | VDict d => Ok (map (fun kv => VStr (fst kv)) d)
  | VStr s => Ok (chars s)
  | _ => Raise TypeError
  end.

(** [v[k]] on a value that is not known to be a dict. *)
Definition subscript (v : value) (k : string) : result value :=
  match v with
  | VDict d => getitem d k
  | _ => Raise TypeError
  end.

(** [cast(str, v)], [cast(Optional[str], v)] and [cast(list[...], v)] are
    checked at run time, as they are in the mypyc-compiled build of cwltool
    (the tests of the repository are written with that build in mind). The
    interpreted build lets a value outside the declared type through; such
    values are outside the declared types of the checker. Casts to abstract
    container types are not checked in either build and are not modelled as
    checks. *)
Definition cast_str (v : value) : result string :=
  match v with VStr s => Ok s | _ => Raise TypeError end.

Definition cast_opt_str (v : option value) : result (option string) :=
  match v with
  | None | Some VNone => Ok None
  | Some (VStr s) => Ok (Some s)
  | Some _ => Raise TypeError
  end.

Definition cast_list (v : value) : result (list value) :=
  match v with VList l => Ok l | _ => Raise TypeError end.

Definition cast_obj (v : value) : result obj :=
  match v with VDict d => Ok d | _ => Raise TypeError end.

(** [v.get(k, dflt)] on a value that is not known to be a dict. *)
Definition method_get (v : value) (k : string) (dflt : value) : result value :=
  match v with
  | VDict d => Ok (get_default d k dflt)
  | _ => Raise AttributeError
  end.

(** [sorted(l)] for strings: insertion sort under the code-point order. *)
Fixpoint insert_sorted (s : string) (l : list string) : list string :=
  match l with
  | [] => [s]
  | t :: l' => if String.leb s t then s :: l else t :: insert_sorted s l'
  end.

Definition sorted (l : list string) : list string :=
  fold_right insert_sorted [] l.

(** [s.split(sep)] for a one-character separator: never empty. *)
Fixpoint split (sep : ascii) (s : string) : list string :=
  match s with
  | EmptyString => [EmptyString]
  | String c s' =>
      if Ascii.eqb c sep then EmptyString :: split sep s'
      else match split sep s' with
           | [] => [String c EmptyString]
           | h :: t => String c h :: t
           end
  end.

(** [sep.join(l)] *)
Definition join (sep : string) (l : list string) : string := String.concat sep l.

(** Size of a value: the measure under which the oracle's recursion ends. *)
Fixpoint size (v : value) : nat :=
  match v with
  | VList l =>
      S ((fix size_list (l : list value) : nat :=
            match l with [] => 0 | x :: l' => size x + size_list l' end) l)
  | VDict d =>
      S ((fix size_items (d : list (string * value)) : nat :=
            match d with [] => 0 | (_, x) :: d' => size x + size_items d' end) d)
  | _ => 1
  end.

End Py.
Export Py.

Declare Scope py_scope.
Notation "x <- c ;; k" := (bind c (fun x => k))
  (at level 61, c at next level, right associativity) : py_scope.
Local Open Scope py_scope.

(* ================================================================= *)
(** ** Helpers of the repository that live outside checker.py *)

(** Modelled from the spec: [shortname] of [cwltool/process.py], which is not
    part of the sources at hand. The spec gives it as "the final segment of a
    slash-separated identifier". *)
Definition shortname (inputid : string) : string :=
  last (split "/" inputid) EmptyString.

(** Modelled from the spec: [aslist] of [cwltool/utils.py], not part of the
    sources at hand: a list is returned as it is, anything else becomes a
    one-element list (the spec's scenario 5 turns the source type [int] into
    [[null, int]]). *)
Definition aslist (thing : value) : list value :=
  match thing with
  | VList l => l
  | _ => [thing]
  end.

(* ================================================================= *)
(** ** The type normaliser *)

Definition is_str (v : value) (s : string) : bool := py_eq v (VStr s).

(** [_get_type] *)
Definition _get_type (tp : value) : result value :=
  match tp with
  | VDict d =>
      let t := get_default d "type" VNone in
      if negb (is_str t "array" || is_str t "record" || is_str t "enum")
      then getitem d "type"
      else Ok tp
  | _ => Ok tp
  end.

(** [merge_flatten_type] *)
Fixpoint merge_flatten_type (src : value) : value :=
  match src with
  | VList l => VList (map merge_flatten_type l)
  | VDict d =>
      if is_str (get_default d "type" VNone) "array" then src
      else VDict [("items", src); ("type", VStr "array")]
  | _ => VDict [("items", src); ("type", VStr "array")]
  end.

(* ================================================================= *)
(** ** The assignability oracle *)

(** Loops of the oracle that stop at the first decisive element. *)
Fixpoint all_of (f : value -> result bool) (l : list value) : result bool :=
  match l with
  | [] => Ok true
  | x :: l' => b <- f x ;; if b then all_of f l' else Ok false
  end.

Fixpoint any_of (f : value -> result bool) (l : list value) : result bool :=
  match l with
  | [] => Ok false
  | x :: l' => b <- f x ;; if b then Ok true else any_of f l'
  end.

(** The [File] against [File] case: every secondary file of the sink is
    looked for among those of the source; a missing one rejects in strict
    mode only. The source's list is read once per sink entry. *)
Fixpoint secondary_files_loop (src : obj) (sinksfs : list value) (strict : bool)
  : result bool :=
  match sinksfs with
  | [] => Ok true
  | sinksf :: rest =>
      srcsfs <- cast_list (get_default src "secondaryFiles" (VList [])) ;;
      if negb (existsb (fun srcsf => py_eq sinksf srcsf) srcsfs) && strict
      then Ok false
      else secondary_files_loop src rest strict
  end.

(** [_rec_fields] of [_compare_records]: short field name to field type, a
    later field of the same short name replacing the earlier one. *)
Fixpoint rec_fields_loop (fields : list value) (out : obj) : result obj :=
  match fields with
  | [] => Ok out
  | field :: rest =>
      n <- subscript field "name" ;;
      n <- cast_str n ;;
      t <- subscript field "type" ;;
      rec_fields_loop rest (dict_set out (shortname n) t)
  end.

Definition _rec_fields (rec : obj) : result obj :=
  fs <- getitem rec "fields" ;;
  fs <- py_iter fs ;;
  rec_fields_loop fs [].

Section Oracle.

(** The recursive calls of one activation: the oracle itself, one level
    further down. *)
Variable can_assign : value -> value -> bool -> result bool.

(** The loop of [_compare_records] over the sink's fields. The log record
    of a rejection reads the [name] of both records. *)
Fixpoint compare_fields (src sink srcfields sinkfields : obj)
  (keys : list (string * value)) (strict : bool) : result bool :=
  match keys with
  | [] => Ok true
  | (key, _) :: rest =>
      b <- can_assign (get_default srcfields key (VStr "null"))
                      (get_default sinkfields key (VStr "null")) strict ;;
      if negb b &&
         match dict_get sinkfields key with
         | Some VNone | None => false
         | Some _ => true
         end
      then
        _ <- getitem src "name" ;;
        _ <- getitem sink "name" ;;
        Ok false
      else compare_fields src sink srcfields sinkfields rest strict
  end.

(** [_compare_records] *)
Definition _compare_records (src sink : obj) (strict : bool) : result bool :=
  srcfields <- _rec_fields src ;;
  sinkfields <- _rec_fields sink ;;
  compare_fields src sink srcfields sinkfields sinkfields strict.

(** [src["type"] == tag and sink["type"] == tag]: the sink is read only
    when the source matches. *)
Definition both_tagged (src sink : obj) (tag : string) : result bool :=
  st <- getitem src "type" ;;
  if is_str st tag
  then kt <- getitem sink "type" ;; Ok (is_str kt tag)
  else Ok false.

(** The body of [can_assign_src_to_sink]. The calls made for the branches
    of a union do not pass [strict] on, so they run with its default,
    [False]. *)
Definition can_assign_body (src sink : value) (strict : bool) : result bool :=
  if is_str src "Any" || is_str sink "Any" then Ok true else
  match src, sink with
  | VDict dsrc, VDict dsink =>
      if truthy (get_default dsink "not_connected" VNone) && strict
      then Ok false
      else
        arr <- both_tagged dsrc dsink "array" ;;
        if arr then
          si <- getitem dsrc "items" ;;
          ki <- getitem dsink "items" ;;
          can_assign si ki strict
        else
          rcd <- both_tagged dsrc dsink "record" ;;
          if rcd then _compare_records dsrc dsink strict
          else
            fil <- both_tagged dsrc dsink "File" ;;
            if fil then
              sinksfs <- cast_list (get_default dsink "secondaryFiles" (VList [])) ;;
              secondary_files_loop dsrc sinksfs strict
            else
              st <- getitem dsrc "type" ;;
              kt <- getitem dsink "type" ;;
              can_assign st kt strict
  | VList l, _ =>
      if strict
      then all_of (fun this_src => can_assign this_src sink false) l
      else any_of (fun this_src =>
                     if negb (is_str this_src "null")
                     then can_assign this_src sink false
                     else Ok false) l
  | _, VList l =>
      any_of (fun this_sink => can_assign src this_sink false) l
  | _, _ => Ok (py_eq src sink)
  end.

End Oracle.

(** The oracle with its recursion depth bounded by [fuel]. *)
Fixpoint can_assign_fuel (fuel : nat) (src sink : value) (strict : bool)
  : result bool :=
  match fuel with
  | O => OutOfFuel
  | S fuel' => can_assign_body (can_assign_fuel fuel') src sink strict
  end.

(** [can_assign_src_to_sink]: every recursive call is on a pair of values
    of smaller total size, so the size of the arguments bounds the depth
    ([can_assign_src_to_sink_eq] and [can_assign_src_to_sink_returns]
    below). *)
Definition can_assign_src_to_sink (src sink : value) (strict : bool)
  : result bool :=
  can_assign_fuel (S (size src + size sink)) src sink strict.

(** The result of [check_types]: the strings ["pass"], ["warning"] and
    ["exception"]. *)
Inductive check_result : Type := Pass | Warning | Exception.

(** [check_types] with [linkMerge is None] and [valueFrom is None]. *)
Definition check_types_plain (srctype sinktype : value) : result check_result :=
  s <- can_assign_src_to_sink srctype sinktype true ;;
  if s then Ok Pass
  else
    n <- can_assign_src_to_sink srctype sinktype false ;;
    if n then Ok Warning else Ok Exception.

(* ================================================================= *)
(** ** The edge enumerator *)

(** [_SrcSink]. The source parameter is an object shared with [src_dict] and
    mutated through it; the record holds the key under which [src_dict]
    keeps that object, and the object is read from the store when needed. *)
Module SrcSink.
Record t : Type := mk {
  src : string;
  sink : obj;
  linkMerge : option string;
  message : option string
}.
End SrcSink.

(** The dict returned by [_check_all_types]. *)
Record validation : Type := mk_validation {
  warning : list SrcSink.t;
  exception : list SrcSink.t
}.

(** [src_dict]: parameter id to source parameter. An object sits under its
    own id, so the store's keys stand for the objects' identities. *)
Definition store : Type := list (string * obj).

Definition add_warning (v : validation) (w : SrcSink.t) : validation :=
  mk_validation (warning v ++ [w]) (exception v).

Definition add_exception (v : validation) (e : SrcSink.t) : validation :=
  mk_validation (warning v) (exception v ++ [e]).

Definition is_not_none (v : option value) : bool :=
  match v with
  | None | Some VNone => false
  | Some _ => true
  end.

(** [is_conditional_step] *)
Definition is_conditional_step (param_to_step : list (string * obj))
  (parm_id : string) : bool :=
  match dict_get param_to_step parm_id with
  | Some source_step => is_not_none (dict_get source_step "when")
  | None => false
  end.

(** [is_all_output_method_loop_step] *)
Definition is_all_output_method_loop_step (param_to_step : list (string * obj))
  (parm_id : string) : bool :=
  match dict_get param_to_step parm_id with
  | Some source_step =>
      is_not_none (dict_get source_step "loop") &&
      is_str (get_default source_step "outputMethod" VNone) "all_iterations"
  | None => false
  end.

(** The type a conditional step's source is given (lines 402 to 406): its
    list form, with ["null"] put in front unless it is already a member. *)
Definition with_null (t : value) : value :=
  let src_typ := aslist t in
  if existsb (fun x => is_str x "null") src_typ
  then VList src_typ
  else VList (VStr "null" :: src_typ).

(** The type a loop step's source is given (lines 377 to 380, 423 to 426). *)
Definition array_of (t : value) : value :=
  VDict [("type", VStr "array"); ("items", t)].

(** [src_dict[parm_id]["type"] = v] *)
Definition set_type (src_dict : store) (parm_id : string) (v : value)
  : result store :=
  o <- getitem src_dict parm_id ;;
  Ok (dict_set src_dict parm_id (dict_set o "type" v)).

(** The loop promotion, done for a source of an [all_iterations] loop step
    each time a sink names it. *)
Definition promote_loop (param_to_step : list (string * obj))
  (src_dict : store) (parm_id : string) : result store :=
  if is_all_output_method_loop_step param_to_step parm_id then
    o <- getitem src_dict parm_id ;;
    t <- getitem o "type" ;;
    set_type src_dict parm_id (array_of t)
  else Ok src_dict.

Definition nl : string := String (ascii_of_nat 10) EmptyString.

Section Checker.

(** Text rendering that is not the checker's own: [SourceLine(item,
    key).makeError(msg)], [json_dumps], [bullets] and [strip_dup_lineno] of
    schema_salad, and Python's [str()] and [repr()]. The checker is
    modelled for whatever they return. *)
Variable makeError : value -> option string -> string -> string.
Variable json_dumps : value -> string.
Variable bullets : list string -> string -> string.
Variable strip_dup_lineno : string -> string.
Variable py_str : value -> string.
Variable py_repr : string -> string.

(** [check_types]: the two link-merge cases call [check_types] again with
    [linkMerge] and [valueFrom] both [None], that is [check_types_plain]. *)
Definition check_types (srctype sinktype : value)
  (linkMerge valueFrom : option string) : result check_result :=
  match valueFrom with
  | Some _ => Ok Pass
  | None =>
      match linkMerge with
      | None => check_types_plain srctype sinktype
      | Some lm =>
          if String.eqb lm "merge_nested" then
            st <- _get_type srctype ;;
            kt <- _get_type sinktype ;;
            check_types_plain (VDict [("items", st); ("type", VStr "array")]) kt
          else if String.eqb lm "merge_flattened" then
            st <- _get_type srctype ;;
            kt <- _get_type sinktype ;;
            check_types_plain (merge_flatten_type st) kt
          else Raise (WorkflowException
                        ("Unrecognized linkMerge enum " ++ py_repr lm)%string)
      end
  end.

Variable param_to_step : list (string * obj).

(** One turn of the loop over the ids of a sequence-valued source field
    (lines 365 to 380). *)
Definition visit_source (sink : obj) (linkMerge pickValue : option string)
  (st : store * validation * list string) (parm_id : value)
  : result (store * validation * list string) :=
  let '(src_dict, v, srcs_of_sink) := st in
  parm_id <- cast_str parm_id ;;
  _ <- getitem src_dict parm_id ;;
  let v :=
    if is_conditional_step param_to_step parm_id &&
       match pickValue with None => true | Some _ => false end
    then add_warning v
           (SrcSink.mk parm_id sink linkMerge
              (Some "Source is from conditional step, but pickValue is not used"))
    else v in
  src_dict <- promote_loop param_to_step src_dict parm_id ;;
  Ok (src_dict, v, srcs_of_sink ++ [parm_id]).

Fixpoint visit_sources (sink : obj) (linkMerge pickValue : option string)
  (ids : list value) (st : store * validation * list string)
  : result (store * validation * list string) :=
  match ids with
  | [] => Ok st
  | parm_id :: rest =>
      st <- visit_source sink linkMerge pickValue st parm_id ;;
      visit_sources sink linkMerge pickValue rest st
  end.

(** The conditional promotion of the single-source case (lines 401 to
    420). *)
Definition promote_conditional (sink : obj) (src_dict : store) (v : validation)
  (parm_id : string) : result (store * validation) :=
  if is_conditional_step param_to_step parm_id then
    o <- getitem src_dict parm_id ;;
    t <- getitem o "type" ;;
    snk_typ <- getitem sink "type" ;;
    let src_typ := with_null t in
    sink_has_null <- py_contains snk_typ "null" ;;
    let v :=
      if negb sink_has_null
      then add_warning v
             (SrcSink.mk parm_id sink None
                (Some "Source is from conditional step and may produce `null`"))
      else v in
    src_dict <- set_type src_dict parm_id src_typ ;;
    Ok (src_dict, v)
  else Ok (src_dict, v).

(** The sources of one sink, with the promotions and warnings they bring:
    the new store, the diagnostics, [srcs_of_sink] and [linkMerge]. *)
Definition sources_of_sink (sourceField : string) (sink : obj)
  (source : value) (pickValue : option string) (src_dict : store)
  (v : validation)
  : result (store * validation * list string * option string) :=
  match source with
  | VList ids =>
      linkMerge <- cast_opt_str
        (match dict_get sink "linkMerge" with
         | Some lm => Some lm
         | None => if Nat.ltb 1 (List.length ids) then Some (VStr "merge_nested") else None
         end) ;;
      let linkMerge :=
        match pickValue with
        | Some p =>
            if String.eqb p "first_non_null" || String.eqb p "the_only_non_null"
            then None else linkMerge
        | None => linkMerge
        end in
      r <- visit_sources sink linkMerge pickValue ids (src_dict, v, []) ;;
      Ok (r, linkMerge)
  | _ =>
      parm_id <- cast_str source ;;
      if negb (dict_has src_dict parm_id) then
        Raise (ValidationException
                 (makeError (VDict sink) (Some sourceField)
                    (sourceField ++ " not found: " ++ parm_id)%string))
      else
        let v :=
          match pickValue with
          | Some _ =>
              add_warning v
                (SrcSink.mk parm_id sink None
                   (Some "pickValue is used but only a single input source is declared"))
          | None => v
          end in
        r <- promote_conditional sink src_dict v parm_id ;;
        let '(src_dict, v) := r in
        src_dict <- promote_loop param_to_step src_dict parm_id ;;
        Ok (src_dict, v, [parm_id], None)
  end.

(** The loop over [srcs_of_sink] (lines 428 to 437). *)
Fixpoint check_sources (src_dict : store) (sink : obj)
  (linkMerge valueFrom extra_message : option string)
  (srcs_of_sink : list string) (v : validation) : result validation :=
  match srcs_of_sink with
  | [] => Ok v
  | id :: rest =>
      o <- getitem src_dict id ;;
      check_result <- check_types (VDict o) (VDict sink) linkMerge valueFrom ;;
      let v :=
        match check_result with
        | Pass => v
        | Warning => add_warning v (SrcSink.mk id sink linkMerge extra_message)
        | Exception => add_exception v (SrcSink.mk id sink linkMerge extra_message)
        end in
      check_sources src_dict sink linkMerge valueFrom extra_message rest v
  end.

(** The body of the loop of [_check_all_types] for one sink. *)
Definition check_sink (sourceField : string) (src_dict : store)
  (v : validation) (sink : obj) : result (store * validation) :=
  match dict_get sink sourceField with
  | None => Ok (src_dict, v)
  | Some source =>
      valueFrom <- cast_opt_str (dict_get sink "valueFrom") ;;
      pickValue <- cast_opt_str (dict_get sink "pickValue") ;;
      let extra_message :=
        option_map (fun p => ("pickValue is: " ++ p)%string) pickValue in
      r <- sources_of_sink sourceField sink source pickValue src_dict v ;;
      let '(src_dict, v, srcs_of_sink, linkMerge) := r in
      v <- check_sources src_dict sink linkMerge valueFrom extra_message
             srcs_of_sink v ;;
      Ok (src_dict, v)
  end.

Fixpoint check_sinks (sourceField : string) (sinks : list obj)
  (src_dict : store) (v : validation) : result (store * validation) :=
  match sinks with
  | [] => Ok (src_dict, v)
  | sink :: rest =>
      r <- check_sink sourceField src_dict v sink ;;
      check_sinks sourceField rest (fst r) (snd r)
  end.

(** [_check_all_types]: the diagnostics, and [src_dict] as the call leaves
    it. *)
Definition _check_all_types (src_dict : store) (sinks : list obj)
  (sourceField : string) : result (store * validation) :=
  check_sinks sourceField sinks src_dict (mk_validation [] []).

(* ----------------------------------------------------------------- *)
(** *** [static_checker] *)

(** [missing_subset] *)
Definition missing_subset (fullset subset : list string) : list string :=
  filter (fun i => negb (existsb (String.eqb i) fullset)) subset.

(** The patterns of the secondary files a sink requires. *)
Fixpoint sink_patterns (ps : list value) : result (list string) :=
  match ps with
  | [] => Ok []
  | p :: rest =>
      required <- method_get p "required" (VBool true) ;;
      if truthy required then
        pat <- subscript p "pattern" ;;
        pat <- cast_str pat ;;
        tl <- sink_patterns rest ;;
        Ok (pat :: tl)
      else sink_patterns rest
  end.

(** The patterns of the secondary files a source declares. *)
Fixpoint src_patterns (ps : list value) : result (list string) :=
  match ps with
  | [] => Ok []
  | p :: rest =>
      pat <- subscript p "pattern" ;;
      pat <- cast_str pat ;;
      tl <- src_patterns rest ;;
      Ok (pat :: tl)
  end.

(** The short names of the inputs of a step that are connected. *)
Fixpoint connected_names (inputs : list value) : result (list string) :=
  match inputs with
  | [] => Ok []
  | s :: rest =>
      s <- cast_obj s ;;
      if negb (truthy (get_default s "not_connected" VNone)) then
        id <- getitem s "id" ;;
        id <- cast_str id ;;
        tl <- connected_names rest ;;
        Ok (shortname id :: tl)
      else connected_names rest
  end.

(** The text of one warning (lines 195 to 267); the source is read from the
    store as the two enumerations left it. *)
Definition warning_msg (src_dict : store) (w : SrcSink.t) : result string :=
  let sink := SrcSink.sink w in
  src <- getitem src_dict (SrcSink.src w) ;;
  sinksfs <- py_iter (get_default sink "secondaryFiles" (VList [])) ;;
  sinksf <- sink_patterns sinksfs ;;
  srcsfs <- py_iter (get_default src "secondaryFiles" (VList [])) ;;
  srcsf <- src_patterns srcsfs ;;
  let missing := missing_subset (sorted srcsf) (sorted sinksf) in
  src_id <- getitem src "id" ;;
  src_id <- cast_str src_id ;;
  let src_name := shortname src_id in
  sink_id <- getitem sink "id" ;;
  sink_id <- cast_str sink_id ;;
  let sink_name := shortname sink_id in
  msg <-
    match missing with
    | _ :: _ =>
        let msg1 := ("Parameter '" ++ sink_name ++ "' requires secondaryFiles "
                     ++ py_str (VList (map VStr missing)) ++ " but")%string in
        let msg3 := makeError (VDict src) (Some "id")
          ("source '" ++ src_name ++ "' does not provide those secondaryFiles.")%string in
        let msg4 := makeError (get_default src "_tool_entry" (VDict src))
          (Some "secondaryFiles")
          ("To resolve, add missing secondaryFiles patterns to definition of '"
           ++ src_name ++ "' or")%string in
        let msg5 := makeError (get_default sink "_tool_entry" (VDict sink))
          (Some "secondaryFiles")
          ("mark missing secondaryFiles in definition of '" ++ sink_name
           ++ "' as optional.")%string in
        Ok (makeError (VDict sink) None
              (msg1 ++ nl ++ bullets [msg3; msg4; msg5] "  ")%string)
    | [] =>
        if truthy (get_default sink "not_connected" VNone) then
          if negb (truthy (get_default sink "used_by_step" VNone)) then
            step <- getitem param_to_step sink_id ;;
            run <- getitem step "run" ;;
            inputs <- getitem step "inputs" ;;
            inputs <- cast_list inputs ;;
            names <- connected_names inputs ;;
            Ok (makeError (VDict sink) (Some "type")
                  ("'" ++ sink_name ++ "' is not an input parameter of "
                   ++ py_str run ++ ", expected " ++ join ", " names)%string)
          else Ok EmptyString
        else
          srct <- getitem src "type" ;;
          sinkt <- getitem sink "type" ;;
          let msg :=
            (makeError (VDict src) (Some "type")
               ("Source '" ++ src_name ++ "' of type " ++ json_dumps srct
                ++ " may be incompatible")
             ++ nl ++
             makeError (VDict sink) (Some "type")
               ("  with sink '" ++ sink_name ++ "' of type " ++ json_dumps sinkt))%string in
          Ok (match SrcSink.linkMerge w with
              | Some lm =>
                  (msg ++ nl ++ makeError (VDict sink) None
                     ("  source has linkMerge method " ++ lm))%string
              | None => msg
              end)
    end ;;
  Ok (match SrcSink.message w with
      | Some m => (msg ++ nl ++ makeError (VDict sink) None ("  " ++ m))%string
      | None => msg
      end).

Fixpoint warning_msgs_of (src_dict : store) (ws : list SrcSink.t)
  : result (list string) :=
  match ws with
  | [] => Ok []
  | w :: rest =>
      msg <- warning_msg src_dict w ;;
      tl <- warning_msgs_of src_dict rest ;;
      Ok (if String.eqb msg EmptyString then tl else msg :: tl)
  end.

(** The text of one type mismatch (lines 273 to 294). *)
Definition exception_msg (src_dict : store) (e : SrcSink.t) : result string :=
  let sink := SrcSink.sink e in
  src <- getitem src_dict (SrcSink.src e) ;;
  src_id <- getitem src "id" ;;
  src_id <- cast_str src_id ;;
  srct <- getitem src "type" ;;
  sink_id <- getitem sink "id" ;;
  sink_id <- cast_str sink_id ;;
  sinkt <- getitem sink "type" ;;
  let msg :=
    (makeError (VDict src) (Some "type")
       ("Source '" ++ shortname src_id ++ "' of type " ++ json_dumps srct
        ++ " is incompatible")
     ++ nl ++
     makeError (VDict sink) (Some "type")
       ("  with sink '" ++ shortname sink_id ++ "' of type "
        ++ json_dumps sinkt))%string in
  let msg :=
    match SrcSink.message e with
    | Some m => (msg ++ nl ++ makeError (VDict sink) None ("  " ++ m))%string
    | None => msg
    end in
  Ok (match SrcSink.linkMerge e with
      | Some lm =>
          (msg ++ nl ++ makeError (VDict sink) None
             ("  source has linkMerge method " ++ lm))%string
      | None => msg
      end).

Fixpoint exception_msgs_of (src_dict : store) (es : list SrcSink.t)
  : result (list string) :=
  match es with
  | [] => Ok []
  | e :: rest =>
      msg <- exception_msg src_dict e ;;
      tl <- exception_msgs_of src_dict rest ;;
      Ok (msg :: tl)
  end.

(** The text appended for a step input that nothing feeds. *)
Definition required_parameter_msg (sink : obj) (id : string) : string :=
  makeError (VDict sink) None
    ("Required parameter '" ++ shortname id
     ++ "' does not have source, default, or valueFrom expression")%string.

(** The sweep over the step inputs (lines 296 to 309). *)
Fixpoint required_sweep (step_inputs : list obj) : result (list string) :=
  match step_inputs with
  | [] => Ok []
  | sink :: rest =>
      sink_type <- getitem sink "type" ;;
      no_null <-
        (if negb (is_str sink_type "null")
         then b <- py_contains sink_type "null" ;; Ok (negb b)
         else Ok false) ;;
      here <-
        (if no_null && negb (dict_has sink "source")
            && negb (dict_has sink "default") && negb (dict_has sink "valueFrom")
         then
           id <- getitem sink "id" ;;
           id <- cast_str id ;;
           Ok [required_parameter_msg sink id]
         else Ok []) ;;
      tl <- required_sweep rest ;;
      Ok (here ++ tl)
  end.

(** The source index (lines 180 to 182). *)
Fixpoint index_sources (params : list obj) (src_dict : store) : result store :=
  match params with
  | [] => Ok src_dict
  | param :: rest =>
      id <- getitem param "id" ;;
      id <- cast_str id ;;
      index_sources rest (dict_set src_dict id param)
  end.

(** What [static_checker] has in hand when it reaches its last four
    lines. *)
Record findings : Type := mk_findings {
  sources : store;
  exceptions : list SrcSink.t;
  warning_msgs : list string;
  exception_msgs : list string
}.

Definition static_checker_findings
  (workflow_inputs workflow_outputs step_inputs step_outputs : list obj)
  : result findings :=
  src_dict <- index_sources (workflow_inputs ++ step_outputs) [] ;;
  r1 <- _check_all_types src_dict step_inputs "source" ;;
  let '(src_dict, step_inputs_val) := r1 in
  r2 <- _check_all_types src_dict workflow_outputs "outputSource" ;;
  let '(src_dict, workflow_outputs_val) := r2 in
  let warnings := warning step_inputs_val ++ warning workflow_outputs_val in
  let exceptions := exception step_inputs_val ++ exception workflow_outputs_val in
  wmsgs <- warning_msgs_of src_dict warnings ;;
  emsgs <- exception_msgs_of src_dict exceptions ;;
  swept <- required_sweep step_inputs ;;
  Ok (mk_findings src_dict exceptions wmsgs (emsgs ++ swept)).

(** [static_checker]: on a normal return, the source parameters as the
    call leaves them and the record logged at warning level, if any (the
    record logged before a failure is not kept). The failure is raised when
    [exceptions], the list of type mismatches, is not empty. *)
Definition static_checker
  (workflow_inputs workflow_outputs step_inputs step_outputs : list obj)
  : result (store * option string) :=
  f <- static_checker_findings workflow_inputs workflow_outputs
         step_inputs step_outputs ;;
  let all_warning_msg := strip_dup_lineno (join nl (warning_msgs f)) in
  let all_exception_msg :=
    strip_dup_lineno (nl ++ join nl (exception_msgs f))%string in
  let logged :=
    if String.eqb all_warning_msg EmptyString then None
    else Some ("Workflow checker warning:" ++ nl ++ all_warning_msg)%string in
  match exceptions f with
  | _ :: _ => Raise (ValidationException all_exception_msg)
  | [] => Ok (sources f, logged)
  end.

End Checker.

(* ================================================================= *)
(** ** The loop compatibility checker *)

Section LoopChecker.

Variable makeError : value -> option string -> string -> string.

(** The messages one step adds to [exceptions]. *)
Definition loop_step_errors (step : obj) : list string :=
  if dict_has step "loop" then
    (if negb (dict_has step "when")
     then [makeError (VDict step) (Some "id")
             "The `when` clause is mandatory when the `loop` directive is defined."]
     else [])
    ++
    (if dict_has step "scatter"
     then [makeError (VDict step) (Some "id")
             "The `loop` clause is not compatible with the `scatter` directive."]
     else [])
  else [].

(** [loop_checker] *)
Definition loop_checker (steps : list obj) : result unit :=
  match flat_map loop_step_errors steps with
  | [] => Ok tt
  | exceptions => Raise (ValidationException (join nl exceptions))
  end.

End LoopChecker.

(* ================================================================= *)
(** ** The cycle detector *)

(** [get_step_id] *)
Definition get_step_id (field_id : string) : result string :=
  match nth_error (split "#" field_id) 1 with
  | None => Raise IndexError
  | Some fragment =>
      if is_substring "/" fragment
      then Ok (join "/" (removelast (split "/" field_id)))
      else Ok (hd EmptyString (split "#" field_id))
  end.

Definition mem (x : string) (l : list string) : bool :=
  existsb (String.eqb x) l.

(** The adjacency list: step id to the steps fed by it, in insertion
    order. *)
Definition graph : Type := list (string * list string).

Fixpoint step_ids (srcs : list value) : result (list string) :=
  match srcs with
  | [] => Ok []
  | src :: rest =>
      s <- cast_str src ;;
      v <- get_step_id s ;;
      tl <- step_ids rest ;;
      Ok (v :: tl)
  end.

(** Lines 473 to 477 for one [vertex_in]. *)
Definition add_edge (adjacency : graph) (vertex_in vertex_out : string) : graph :=
  match dict_get adjacency vertex_in with
  | None => dict_set adjacency vertex_in [vertex_out]
  | Some outs =>
      if mem vertex_out outs then adjacency
      else dict_set adjacency vertex_in (outs ++ [vertex_out])
  end.

(** Lines 467 to 479 for one step input. *)
Definition add_step_input (adjacency : graph) (step_input : obj) : result graph :=
  match dict_get step_input "source" with
  | None => Ok adjacency
  | Some source =>
      vertices_in <-
        match source with
        | VList srcs => step_ids srcs
        | _ => step_ids [source]
        end ;;
      id <- getitem step_input "id" ;;
      id <- cast_str id ;;
      vertex_out <- get_step_id id ;;
      let adjacency :=
        fold_left (fun adj vertex_in => add_edge adj vertex_in vertex_out)
          vertices_in adjacency in
      Ok (if dict_has adjacency vertex_out then adjacency
          else dict_set adjacency vertex_out [])
  end.

(** [get_dependency_tree] *)
Fixpoint dependency_tree_from (step_inputs : list obj) (adjacency : graph)
  : result graph :=
  match step_inputs with
  | [] => Ok adjacency
  | step_input :: rest =>
      adjacency <- add_step_input adjacency step_input ;;
      dependency_tree_from rest adjacency
  end.

Definition get_dependency_tree (step_inputs : list obj) : result graph :=
  dependency_tree_from step_inputs [].

(** The three lists [processDFS] works on; all three are shared with its
    caller and changed in place. *)
Record dfs_state : Type := mk_dfs {
  traversal_path : list string;
  processed : list string;
  cycles : list (list string)
}.

(** [traversal_path[traversal_path.index(vertex):]] *)
Fixpoint from_first (vertex : string) (path : list string) : list string :=
  match path with
  | [] => []
  | x :: path' => if String.eqb x vertex then path else from_first vertex path'
  end.

Section DFS.

Variable adjacency : graph.

(** The recursive call of one activation. *)
Variable recurse : dfs_state -> result dfs_state.

(** The loop of [processDFS] over the successors of the tip. *)
Fixpoint visit_successors (vs : list string) (st : dfs_state)
  : result dfs_state :=
  match vs with
  | [] => Ok st
  | vertex :: rest =>
      st <-
        (if mem vertex (traversal_path st) then
           Ok (mk_dfs (traversal_path st) (processed st)
                 (cycles st ++ [from_first vertex (traversal_path st)]))
         else if negb (mem vertex (processed st)) then
           recurse (mk_dfs (traversal_path st ++ [vertex]) (processed st)
                      (cycles st))
         else Ok st) ;;
      visit_successors rest st
  end.

Definition processDFS_body (st : dfs_state) : result dfs_state :=
  match rev (traversal_path st) with
  | [] => Raise IndexError
  | tip :: _ =>
      succs <- getitem adjacency tip ;;
      st <- visit_successors succs st ;;
      Ok (mk_dfs (removelast (traversal_path st)) (processed st ++ [tip])
            (cycles st))
  end.

End DFS.

(** [processDFS], its recursion depth bounded by [fuel]. *)
Fixpoint processDFS (fuel : nat) (adjacency : graph) (st : dfs_state)
  : result dfs_state :=
  match fuel with
  | O => OutOfFuel
  | S fuel' => processDFS_body adjacency (processDFS fuel' adjacency) st
  end.

(** The loop of [circular_dependency_checker] over the vertices. The path
    of a call has no vertex twice, so the depth never exceeds the number of
    vertices. *)
Fixpoint visit_vertices (adjacency : graph) (vertices : list string)
  (st : dfs_state) : result dfs_state :=
  match vertices with
  | [] => Ok st
  | vertex :: rest =>
      if negb (mem vertex (processed st)) then
        st <- processDFS (List.length adjacency) adjacency
                (mk_dfs [vertex] (processed st) (cycles st)) ;;
        visit_vertices adjacency rest st
      else visit_vertices adjacency rest st
  end.

Section CycleChecker.

Variable py_str : value -> string.

(** [circular_dependency_checker] *)
Definition circular_dependency_checker (step_inputs : list obj) : result unit :=
  adjacency <- get_dependency_tree step_inputs ;;
  st <- visit_vertices adjacency (map fst adjacency) (mk_dfs [] [] []) ;;
  match cycles st with
  | [] => Ok tt
  | cycles =>
      Raise (ValidationException
               ("The following steps have circular dependency:" ++ nl ++
                join nl (map (fun cycle => py_str (VList (map VStr cycle))) cycles))%string)
  end.

End CycleChecker.

(* ================================================================= *)
(** ** Vocabulary of the properties *)

(** The type expressions of the workflow language in closed form: a
    primitive name, an array, a record, an enum, a [File] with secondary
    files, a union. [denote] gives the value the loader hands over for
    each. *)
Inductive type_expr : Type :=
| TPrim (name : string)
| TArray (items : type_expr)
| TRecord (name : string) (fields : list (string * type_expr))
| TEnum (name : string) (symbols : list string)
| TFile (secondaryFiles : list (string * bool))
| TUnion (branches : list type_expr).

Definition denote_secondary (sf : string * bool) : value :=
  VDict [("pattern", VStr (fst sf)); ("required", VBool (snd sf))].

Fixpoint denote (t : type_expr) : value :=
  match t with
  | TPrim name => VStr name
  | TArray items => VDict [("type", VStr "array"); ("items", denote items)]
  | TRecord name fields =>
      VDict [("type", VStr "record"); ("name", VStr name);
             ("fields",
              VList (map (fun ft =>
                            VDict [("name", VStr (fst ft));
                                   ("type", denote (snd ft))]) fields))]
  | TEnum name symbols =>
      VDict [("type", VStr "enum"); ("name", VStr name);
             ("symbols", VList (map VStr symbols))]
  | TFile secondaryFiles =>
      VDict [("type", VStr "File");
             ("secondaryFiles", VList (map denote_secondary secondaryFiles))]
  | TUnion branches => VList (map denote branches)
  end.

Definition is_null (t : type_expr) : bool :=
  match t with
  | TPrim name => String.eqb name "null"
  | _ => false
  end.

(** Every union of [t], [t] included, has a branch other than [null]. *)
Fixpoint unions_inhabited (t : type_expr) : bool :=
  match t with
  | TPrim _ | TEnum _ _ | TFile _ => true
  | TArray items => unions_inhabited items
  | TRecord _ fields => forallb (fun ft => unions_inhabited (snd ft)) fields
  | TUnion branches =>
      existsb (fun b => negb (is_null b)) branches &&
      forallb unions_inhabited branches
  end.

(** Every union of [t] that lies inside a branch of a union has a branch
    other than [null]. *)
Fixpoint nested_unions_inhabited (t : type_expr) : bool :=
  match t with
  | TPrim _ | TEnum _ _ | TFile _ => true
  | TArray items => nested_unions_inhabited items
  | TRecord _ fields =>
      forallb (fun ft => nested_unions_inhabited (snd ft)) fields
  | TUnion branches => forallb unions_inhabited branches
  end.

(** [b] is a branch of the union [u], or of a union that is. *)
Inductive branch_of (b : type_expr) : list type_expr -> Prop :=
| branch_here (u : list type_expr) : In b u -> branch_of b u
| branch_below (u v : list type_expr) :
    In (TUnion v) u -> branch_of b v -> branch_of b u.

(** The step dependency graph read off the step inputs: an edge from the
    step of each source of a step input to the step of that input. *)
Definition source_values (step_input : obj) : option (list value) :=
  match dict_get step_input "source" with
  | Some (VList srcs) => Some srcs
  | Some src => Some [src]
  | None => None
  end.

Inductive dep_edge (step_inputs : list obj) (u v : string) : Prop :=
| dep_edge_intro (step_input : obj) (srcs : list value) (src id : string) :
    In step_input step_inputs ->
    source_values step_input = Some srcs ->
    In (VStr src) srcs ->
    get_step_id src = Ok u ->
    dict_get step_input "id" = Some (VStr id) ->
    get_step_id id = Ok v ->
    dep_edge step_inputs u v.

(** A directed cycle: a vertex that reaches itself along at least one
    edge. *)
Definition cyclic {V : Type} (edge : V -> V -> Prop) : Prop :=
  exists v, clos_trans V edge v v.

(** The edges of an adjacency list. *)
Definition adj_edge (adjacency : graph) (u v : string) : Prop :=
  exists outs, dict_get adjacency u = Some outs /\ In v outs.

(** The edges one step input contributes. *)
Definition input_edge (step_input : obj) (u v : string) : Prop :=
  exists (srcs : list value) (src id : string),
    source_values step_input = Some srcs /\
    In (VStr src) srcs /\
    get_step_id src = Ok u /\
    dict_get step_input "id" = Some (VStr id) /\
    get_step_id id = Ok v.

(** Every vertex an edge leads to is a key of the adjacency list. *)
Definition closed (adjacency : graph) : Prop :=
  forall u v, adj_edge adjacency u v -> dict_has adjacency v = true.

(** A list of vertices in which every vertex comes after all its
    successors. *)
Inductive topo (E : string -> string -> Prop) : list string -> Prop :=
| topo_nil : topo E []
| topo_snoc (l : list string) (v : string) :
    topo E l -> ~ In v l -> (forall w, E v w -> In w l) -> topo E (l ++ [v]).

(** What holds of the three lists of the search when [processDFS] is
    entered with [fuel] levels of recursion left: the path ends in [tip], has
    no vertex twice, holds keys only, none of them finished, each reaching
    the tip; the finished vertices are in topological order as long as no
    cycle was recorded, and a recorded cycle is a cycle of the graph. *)
Record search_inv (adjacency : graph) (fuel : nat) (path seen : list string)
  (found : list (list string)) (tip : string) (p : list string) : Prop := {
  inv_path : path = p ++ [tip];
  inv_nodup : NoDup path;
  inv_keys : forall x, In x path -> dict_has adjacency x = true;
  inv_fresh : forall x, In x path -> ~ In x seen;
  inv_reach : forall x, In x path ->
                clos_refl_trans string (adj_edge adjacency) x tip;
  inv_fuel : List.length adjacency < fuel + List.length path;
  inv_topo : found = [] -> topo (adj_edge adjacency) seen;
  inv_cyclic : found <> [] -> cyclic (adj_edge adjacency)
}.

(** A parameter id with a fragment: a string in which [#] occurs. *)
Definition is_param_id (v : value) : bool :=
  match v with
  | VStr s => is_substring "#" s
  | _ => false
  end.

(** A step input whose [id] and sources, if it has a source field, are
    parameter ids. *)
Definition well_identified (step_input : obj) : bool :=
  match source_values step_input with
  | None => true
  | Some srcs =>
      forallb is_param_id srcs &&
      match dict_get step_input "id" with
      | Some id => is_param_id id
      | None => false
      end
  end.

(** Modelled from the spec: the parts of a parameter id that section 4.F
    names, "the fragment portion (after [#])", "the portion before [#]" and
    the id with "the final segment" stripped, each read off the characters
    of the id. *)
Fixpoint occurs (c : ascii) (s : string) : bool :=
  match s with
  | EmptyString => false
  | String a s' => Ascii.eqb a c || occurs c s'
  end.

Fixpoint portion_before (c : ascii) (s : string) : string :=
  match s with
  | EmptyString => EmptyString
  | String a s' => if Ascii.eqb a c then EmptyString
                   else String a (portion_before c s')
  end.

Fixpoint portion_after (c : ascii) (s : string) : string :=
  match s with
  | EmptyString => EmptyString
  | String a s' => if Ascii.eqb a c then s' else portion_after c s'
  end.

Fixpoint strip_final_segment (s : string) : string :=
  match s with
  | EmptyString => EmptyString
  | String a s' => if occurs "/" s' then String a (strip_final_segment s')
                   else EmptyString
  end.

(** Modelled from the spec: [step_id_of] of section 4.F, "if the fragment
    portion (after [#]) contains [/], strip the final segment; else use the
    portion before [#]". *)
Definition step_id_of (pid : string) : string :=
  if occurs "/" (portion_after "#" pid) then strip_final_segment pid
  else portion_before "#" pid.

(** Modelled from the spec: the step dependency multigraph of section 4.F,
    "an edge from every source step-id to the sink's step-id", for each
    step input with a [source]. *)
Inductive step_edge (step_inputs : list obj) (u v : string) : Prop :=
| step_edge_intro (step_input : obj) (srcs : list value) (src id : string) :
    In step_input step_inputs ->
    source_values step_input = Some srcs ->
    In (VStr src) srcs ->
    dict_get step_input "id" = Some (VStr id) ->
    u = step_id_of src ->
    v = step_id_of id ->
    step_edge step_inputs u v.

(** A parameter id with one fragment: a string in which [#] occurs once. *)
Definition single_fragment (v : value) : bool :=
  match v with
  | VStr s => occurs "#" s && negb (occurs "#" (portion_after "#" s))
  | _ => false
  end.

(** A step input whose [id] and sources, if it has a source field, are
    parameter ids with one fragment. *)
Definition single_fragments (step_input : obj) : bool :=
  match source_values step_input with
  | None => true
  | Some srcs =>
      forallb single_fragment srcs &&
      match dict_get step_input "id" with
      | Some id => single_fragment id
      | None => false
      end
  end.

(** The steps [loop_checker] objects to. *)
Definition loop_misused (step : obj) : bool :=
  dict_has step "loop" && (negb (dict_has step "when") || dict_has step "scatter").

(** The ids a sink names in its source field. *)
Definition named_sources (sourceField : string) (sink : obj) : list value :=
  match dict_get sink sourceField with
  | Some (VList ids) => ids
  | Some id => [id]
  | None => []
  end.

(** The warning recorded for a conditional step's source feeding a sink
    that does not admit [null]. *)
Definition may_produce_null (parm_id : string) (sink : obj) : SrcSink.t :=
  SrcSink.mk parm_id sink None
    (Some "Source is from conditional step and may produce `null`").

(** Text functions for examples: values without file positions, for which
    [makeError] returns its message, and a fixed rendering elsewhere. *)
Definition plain_makeError (item : value) (key : option string) (msg : string)
  : string := msg.
Definition plain_text (v : value) : string := "<value>".
Definition plain_repr (s : string) : string := ("'" ++ s ++ "'")%string.

(** Outcomes: the call came back (with a verdict or an exception); it did
    not raise; it accepted, if it came back at all. *)
Definition returns {A} (r : result A) : Prop := r <> OutOfFuel.
Definition no_raise {A} (r : result A) : Prop := forall e, r <> Raise e.
Definition accepts (r : result bool) : Prop := r = Ok true \/ r = OutOfFuel.

(** The value of one field of a record type. *)
Definition denote_field (ft : string * type_expr) : value :=
  VDict [("name", VStr (fst ft)); ("type", denote (snd ft))].

(* ================================================================= *)
(** ** Sample inputs *)

Module Sample.

(** A parameter with an id and a type, and the type array of [int]. *)
Definition param (id : string) (t : value) : value :=
  VDict [("id", VStr id); ("type", t)].

Definition array_of_int : value :=
  VDict [("type", VStr "array"); ("items", VStr "int")].

(** A [File], a [File] sink that asks for a secondary file, and a sink of
    type [int] that was left unconnected. *)
Definition file_type : value := VDict [("type", VStr "File")].

Definition indexed_file_type : value :=
  VDict [("type", VStr "File");
         ("secondaryFiles", VList [VDict [("pattern", VStr ".bai")]])].

Definition unconnected_int : obj :=
  [("type", VStr "int"); ("not_connected", VBool true)].

Definition int_type : value := VDict [("type", VStr "int")].

Definition int_or_string : list value := [VStr "int"; VStr "string"].

(** A union with a record of a nullable array and an indexed file. *)
Definition nested_type : type_expr :=
  TUnion [TPrim "null";
          TRecord "r" [("a", TArray (TUnion [TPrim "null"; TPrim "int"]));
                       ("b", TFile [(".bai", true)])]].

(** The union of one array whose items are the union of [null] alone. *)
Definition array_of_null_only : type_expr :=
  TUnion [TArray (TUnion [TPrim "null"])].

(** A step input fed by nothing: no [source], no [default], no
    [valueFrom], and a type without [null]. *)
Definition unfed_input : obj :=
  [("id", VStr "file:///wf.cwl#step1/in1"); ("type", VStr "int")].

(** Two sinks naming a source that is not in the source index: one through
    a sequence of ids, one through a single id. *)
Definition sequence_sink : obj :=
  [("id", VStr "file:///wf.cwl#step1/in1");
   ("source", VList [VStr "file:///wf.cwl#missing"]);
   ("type", VStr "int")].

Definition single_sink : obj :=
  [("id", VStr "file:///wf.cwl#step1/in1");
   ("source", VStr "file:///wf.cwl#missing");
   ("type", VStr "int")].

(** The output [out] of [step1], of type [int]. *)
Definition int_output : obj :=
  [("id", VStr "file:///wf.cwl#step1/out"); ("type", VStr "int")].

Definition int_store : store := [("file:///wf.cwl#step1/out", int_output)].

(** The store holding that output with another type. *)
Definition store_with (t : value) : store :=
  [("file:///wf.cwl#step1/out",
    [("id", VStr "file:///wf.cwl#step1/out"); ("type", t)])].

Definition nullable_int : value := VList [VStr "null"; VStr "int"].

Definition wrapped_once : value :=
  VDict [("type", VStr "array"); ("items", nullable_int)].

Definition wrapped_twice : value :=
  VDict [("type", VStr "array"); ("items", VList [VStr "null"; wrapped_once])].

(** [step1] as a conditional step, and as a loop step collecting all
    iterations. *)
Definition conditional_steps : list (string * obj) :=
  [("file:///wf.cwl#step1/out", [("when", VStr "$(inputs.go)")])].

Definition loop_steps : list (string * obj) :=
  [("file:///wf.cwl#step1/out",
    [("when", VStr "$(inputs.i < 3)"); ("loop", VDict []);
     ("outputMethod", VStr "all_iterations")])].

(** Sinks fed by [step1/out]: one of type [int], one that admits [null],
    one that takes an array of [int]. *)
Definition int_sink : obj :=
  [("id", VStr "file:///wf.cwl#step2/in1");
   ("source", VStr "file:///wf.cwl#step1/out");
   ("type", VStr "int")].

Definition nullable_sink : obj :=
  [("id", VStr "file:///wf.cwl#step2/in1");
   ("source", VStr "file:///wf.cwl#step1/out");
   ("type", VList [VStr "null"; VStr "int"])].

Definition array_sink : obj :=
  [("id", VStr "file:///wf.cwl#step2/in1");
   ("source", VStr "file:///wf.cwl#step1/out");
   ("type", VDict [("type", VStr "array"); ("items", VStr "int")])].

(** Step inputs wiring three steps in a ring, and two steps in a line. *)
Definition step_input (id source : string) : obj :=
  [("id", VStr id); ("source", VStr source); ("type", VStr "int")].

Definition ring : list obj :=
  [step_input "file:///wf.cwl#A/in" "file:///wf.cwl#C/out";
   step_input "file:///wf.cwl#B/in" "file:///wf.cwl#A/out";
   step_input "file:///wf.cwl#C/in" "file:///wf.cwl#B/out"].

Definition line : list obj :=
  [step_input "file:///wf.cwl#A/in" "file:///wf.cwl#x";
   step_input "file:///wf.cwl#B/in" "file:///wf.cwl#A/out"].

(** Two step inputs of the same type, an array of [[null, int]], fed by
    [step1/out]. *)
Definition consumer (id : string) : obj :=
  [("id", VStr id);
   ("source", VStr "file:///wf.cwl#step1/out");
   ("type", wrapped_once)].

Definition first_consumer : obj := consumer "file:///wf.cwl#step2/in1".

Definition second_consumer : obj := consumer "file:///wf.cwl#step3/in1".

(** A sink of type [int] that names [step1/out] in a list of one id. *)
Definition listed_sink : obj :=
  [("id", VStr "file:///wf.cwl#step2/in2");
   ("source", VList [VStr "file:///wf.cwl#step1/out"]);
   ("type", VStr "int")].

(** The record of the type check of a sink against [step1/out]. *)
Definition link_of (sink : obj) : SrcSink.t :=
  SrcSink.mk "file:///wf.cwl#step1/out" sink None None.

End Sample.


(* ================================================================= *)
(** ** Vocabulary of the further properties *)

(** The short names of the fields of a record type, in the order of the
    fields. *)
Definition short_names (fields : list (string * type_expr)) : list string :=
  map (fun ft => shortname (fst ft)) fields.

(** A value [merge_flatten_type] has nothing to do on: an array type, or a
    list of such values. *)
Fixpoint array_shaped (v : value) : bool :=
  match v with
  | VList l => forallb array_shaped l
  | VDict d => is_str (get_default d "type" VNone) "array"
  | _ => false
  end.

(** Two states of [src_dict] that hold the same ids in the same order and,
    under each id, objects that agree on every key but [type]. *)
Definition same_but_types (a b : store) : Prop :=
  map fst a = map fst b /\
  forall id o o' k,
    dict_get a id = Some o -> dict_get b id = Some o' -> k <> "type" ->
    dict_get o' k = dict_get o k.

(** Every diagnostic names a source held by [src_dict] and one of the
    sinks. *)
Definition well_addressed (sinks : list obj) (src_dict : store)
  (v : validation) : Prop :=
  forall w, In w (warning v ++ exception v) ->
            dict_has src_dict (SrcSink.src w) = true /\
            In (SrcSink.sink w) sinks.

(** A parameter that carries the id [id]. *)
Definition has_id (id : string) (param : obj) : bool :=
  is_str (get_default param "id" VNone) id.

(** The one-character string. *)
Definition one (c : ascii) : string := String c EmptyString.

(** An adjacency list that holds each key once and, under each key, each
    successor once. *)
Definition simple_graph (adjacency : graph) : Prop :=
  NoDup (map fst adjacency) /\
  forall u outs, dict_get adjacency u = Some outs -> NoDup outs.

(** Consecutive vertices of the list are joined by an edge. *)
Fixpoint chain (E : string -> string -> Prop) (l : list string) : Prop :=
  match l with
  | x :: (y :: _) as l' => E x y /\ chain E l'
  | _ => True
  end.

(** A directed cycle given by its vertices, each once, in the order of
    its edges: the last vertex leads back to the first. *)
Definition simple_cycle (E : string -> string -> Prop) (l : list string)
  : Prop :=
  l <> [] /\ NoDup l /\ chain E l /\ E (last l EmptyString) (hd EmptyString l).

(** The state of a search under way: a path without repetition along the
    edges, and cycles of the graph recorded so far. *)
Definition searching (E : string -> string -> Prop) (st : dfs_state) : Prop :=
  traversal_path st <> [] /\ NoDup (traversal_path st) /\
  chain E (traversal_path st) /\ Forall (simple_cycle E) (cycles st).

(** Further sample inputs. *)
Module More.

(** The adjacency lists of [Sample.line] and of [Sample.ring], and the
    state the search of the ring ends in. *)
Definition line_graph : graph :=
  [("file:///wf.cwl", ["file:///wf.cwl#A"]);
   ("file:///wf.cwl#A", ["file:///wf.cwl#B"]);
   ("file:///wf.cwl#B", [])].

Definition ring_graph : graph :=
  [("file:///wf.cwl#C", ["file:///wf.cwl#A"]);
   ("file:///wf.cwl#A", ["file:///wf.cwl#B"]);
   ("file:///wf.cwl#B", ["file:///wf.cwl#C"])].

Definition ring_search : dfs_state :=
  mk_dfs [] ["file:///wf.cwl#B"; "file:///wf.cwl#A"; "file:///wf.cwl#C"]
    [["file:///wf.cwl#C"; "file:///wf.cwl#A"; "file:///wf.cwl#B"]].

(** The message the sweep has for [Sample.unfed_input]. *)
Definition unfed_message : string :=
  "Required parameter 'in1' does not have source, default, or valueFrom expression".

(** A sink of type [string] fed by [step1/out], the mismatch it is found
    in, and the same sink with a [valueFrom] expression. *)
Definition string_sink : obj :=
  [("id", VStr "file:///wf.cwl#step2/in1");
   ("source", VStr "file:///wf.cwl#step1/out");
   ("type", VStr "string")].

Definition mismatch : validation :=
  mk_validation []
    [SrcSink.mk "file:///wf.cwl#step1/out" string_sink None None].

(** A store of two sources: the workflow input [x] and the output of
    [step1]; and the same store once [step1/out] admits [null]. *)
Definition two_sources : store :=
  [("file:///wf.cwl#x", [("id", VStr "file:///wf.cwl#x"); ("type", VStr "File")]);
   ("file:///wf.cwl#step1/out", Sample.int_output)].

Definition two_sources_promoted : store :=
  [("file:///wf.cwl#x", [("id", VStr "file:///wf.cwl#x"); ("type", VStr "File")]);
   ("file:///wf.cwl#step1/out",
    [("id", VStr "file:///wf.cwl#step1/out"); ("type", Sample.nullable_int)])].

Definition computed_sink : obj :=
  [("id", VStr "file:///wf.cwl#step2/in1");
   ("source", VStr "file:///wf.cwl#step1/out");
   ("type", VStr "string");
   ("valueFrom", VStr "$(self.toString())")].

(** The type array of [int], as a mapping. *)
Definition int_array : obj := [("type", VStr "array"); ("items", VStr "int")].

(** Two enums of different names and symbols. *)
Definition colour : obj :=
  [("type", VStr "enum"); ("name", VStr "colour");
   ("symbols", VList [VStr "red"; VStr "green"])].

Definition shirt_size : obj :=
  [("type", VStr "enum"); ("name", VStr "shirt_size");
   ("symbols", VList [VStr "small"; VStr "large"])].

(** A [File] without secondary files and one with an index. *)
Definition plain_file : obj := [("type", VStr "File")].

Definition index_pattern : value := VDict [("pattern", VStr ".bai")].

Definition indexed_file : obj :=
  [("type", VStr "File"); ("secondaryFiles", VList [index_pattern])].

(** The fields of a record, and the one of them that a narrower record
    keeps. *)
Definition wide_fields : list (string * type_expr) :=
  [("file:///wf.cwl#r/a", TPrim "int"); ("file:///wf.cwl#r/b", TPrim "string")].

Definition narrow_fields : list (string * type_expr) :=
  [("file:///wf.cwl#r/b", TPrim "string")].

(** A union that is assignable to itself in strict mode although one of
    its branches is an array of the union of [null] alone; a record with a
    field of that type, and the one field a narrower record keeps. *)
Definition loose_type : type_expr :=
  TUnion [TArray (TUnion [TPrim "null"]); TPrim "Any"].

Definition loose_fields : list (string * type_expr) :=
  [("file:///wf.cwl#r/a", TPrim "int"); ("file:///wf.cwl#r/c", loose_type)].

Definition loose_kept : list (string * type_expr) :=
  [("file:///wf.cwl#r/c", loose_type)].

(** Three parameters, the first and the last of the same id, and the
    index built from them. *)
Definition earlier : obj :=
  [("id", VStr "file:///wf.cwl#p"); ("type", VStr "string")].

Definition other : obj :=
  [("id", VStr "file:///wf.cwl#q"); ("type", VStr "File")].

Definition later : obj :=
  [("id", VStr "file:///wf.cwl#p"); ("type", VStr "int")].

Definition shadowed_index : store :=
  [("file:///wf.cwl#p", later); ("file:///wf.cwl#q", other)].

(** The fields of a record of another schema, whose field [a] takes an
    [int] or a [string]. *)
Definition any_fields : list (string * type_expr) :=
  [("file:///other.cwl#s/a", TUnion [TPrim "int"; TPrim "string"])].

End More.
(* ================================================================= *)
(** ** Properties of the Python primitives *)

Lemma size_pos (v : value) : 1 <= size v.
Proof. destruct v; simpl; lia. Qed.

Lemma size_VList_cons (x : value) (l : list value) :
  size (VList (x :: l)) = size x + size (VList l).
Proof. simpl. lia. Qed.

Lemma size_VDict_cons (k : string) (v : value) (d : obj) :
  size (VDict ((k, v) :: d)) = size v + size (VDict d).
Proof. simpl. lia. Qed.

Lemma In_size (x : value) (l : list value) :
  In x l -> size x < size (VList l).
Proof.
  induction l as [|y l IH]; intros HIn; [destruct HIn|].
  rewrite size_VList_cons. destruct HIn as [->|HIn].
  - pose proof (size_pos (VList l)). lia.
  - specialize (IH HIn). pose proof (size_pos y). lia.
Qed.

Lemma In_size_dict (k : string) (v : value) (d : obj) :
  In (k, v) d -> size v < size (VDict d).
Proof.
  induction d as [|[k' v'] d IH]; intros HIn; [destruct HIn|].
  rewrite size_VDict_cons. destruct HIn as [Heq|HIn].
  - inversion Heq; subst. pose proof (size_pos (VDict d)). lia.
  - specialize (IH HIn). pose proof (size_pos v'). lia.
Qed.

Lemma dict_get_In {A} (d : list (string * A)) (k : string) (v : A) :
  dict_get d k = Some v -> In (k, v) d.
Proof.
  induction d as [|[k' v'] d IH]; simpl; [discriminate|].
  destruct (String.eqb_spec k k') as [->|Hne].
  - intros [= ->]. now left.
  - intros H. right. auto.
Qed.

Lemma dict_get_size (d : obj) (k : string) (v : value) :
  dict_get d k = Some v -> size v < size (VDict d).
Proof. intros H. eapply In_size_dict, dict_get_In, H. Qed.

Lemma getitem_Ok {A} (d : list (string * A)) (k : string) (v : A) :
  getitem d k = Ok v <-> dict_get d k = Some v.
Proof.
  unfold getitem. destruct (dict_get d k); split; intros H; congruence.
Qed.

Lemma getitem_size (d : obj) (k : string) (v : value) :
  getitem d k = Ok v -> size v < size (VDict d).
Proof. rewrite getitem_Ok. apply dict_get_size. Qed.

Lemma dict_get_set_same {A} (d : list (string * A)) (k : string) (v : A) :
  dict_get (dict_set d k v) k = Some v.
Proof.
  induction d as [|[k' v'] d IH]; simpl.
  - now rewrite String.eqb_refl.
  - destruct (String.eqb_spec k k') as [->|Hne]; simpl.
    + now rewrite String.eqb_refl.
    + destruct (String.eqb_spec k k'); [contradiction|exact IH].
Qed.

Lemma dict_get_set_other {A} (d : list (string * A)) (k k' : string) (v : A) :
  k' <> k -> dict_get (dict_set d k v) k' = dict_get d k'.
Proof.
  intros Hne. induction d as [|[k0 v0] d IH]; simpl.
  - destruct (String.eqb_spec k' k); [contradiction|reflexivity].
  - destruct (String.eqb_spec k k0) as [->|Hk]; simpl.
    + destruct (String.eqb_spec k' k0); [contradiction|reflexivity].
    + destruct (String.eqb_spec k' k0); [reflexivity|exact IH].
Qed.

Lemma dict_set_In {A} (d : list (string * A)) (k : string) (v : A)
  (k' : string) (v' : A) :
  In (k', v') (dict_set d k v) -> (k' = k /\ v' = v) \/ In (k', v') d.
Proof.
  induction d as [|[k0 v0] d IH]; simpl.
  - intros [[= <- <-]|[]]. now left.
  - destruct (String.eqb_spec k k0) as [->|Hk]; simpl.
    + intros [[= <- <-]|H]; [now left|right; now right].
    + intros [H|H]; [right; now left|].
      destruct (IH H) as [?|?]; [now left|right; now right].
Qed.

Lemma dict_set_set {A} (d : list (string * A)) (k : string) (v w : A) :
  dict_set (dict_set d k v) k w = dict_set d k w.
Proof.
  induction d as [|[k0 v0] d IH]; simpl.
  - now rewrite String.eqb_refl.
  - destruct (String.eqb_spec k k0) as [->|Hk]; simpl.
    + now rewrite String.eqb_refl.
    + destruct (String.eqb_spec k k0); [contradiction|now rewrite IH].
Qed.



Lemma is_str_true (v : value) (s : string) :
  is_str v s = true <-> v = VStr s.
Proof.
  unfold is_str. destruct v; simpl; split; intros H; try discriminate.
  - apply String.eqb_eq in H. now subst.
  - injection H as ->. apply String.eqb_refl.
Qed.

(* ================================================================= *)
(** ** The oracle returns, and satisfies the equation of its source *)

Lemma bind_Ok {A B} (c : result A) (k : A -> result B) (b : B) :
  bind c k = Ok b <-> exists a, c = Ok a /\ k a = Ok b.
Proof.
  destruct c; simpl; split.
  - intros H. eauto.
  - intros (a' & [= <-] & H). exact H.
  - discriminate.
  - intros (a' & [=] & _).
  - discriminate.
  - intros (a' & [=] & _).
Qed.

Lemma all_of_agree (f g : value -> result bool) (l : list value) :
  (forall x, In x l -> f x = g x /\ returns (f x)) ->
  all_of f l = all_of g l /\ returns (all_of f l).
Proof.
  induction l as [|x l IH]; intros H; simpl.
  - split; [reflexivity|discriminate].
  - destruct (H x (or_introl eq_refl)) as [Hx Hr]. rewrite <- Hx.
    destruct (f x) as [[|]| |]; simpl.
    + apply IH. intros y Hy. apply H. now right.
    + split; [reflexivity|discriminate].
    + split; [reflexivity|discriminate].
    + now elim Hr.
Qed.

Lemma any_of_agree (f g : value -> result bool) (l : list value) :
  (forall x, In x l -> f x = g x /\ returns (f x)) ->
  any_of f l = any_of g l /\ returns (any_of f l).
Proof.
  induction l as [|x l IH]; intros H; simpl.
  - split; [reflexivity|discriminate].
  - destruct (H x (or_introl eq_refl)) as [Hx Hr]. rewrite <- Hx.
    destruct (f x) as [[|]| |]; simpl.
    + split; [reflexivity|discriminate].
    + apply IH. intros y Hy. apply H. now right.
    + split; [reflexivity|discriminate].
    + now elim Hr.
Qed.

Lemma In_dict_get {A} (d : list (string * A)) (k : string) (v : A) :
  In (k, v) d -> exists w, dict_get d k = Some w.
Proof.
  induction d as [|[k' v'] d IH]; simpl; [intros []|].
  intros [H|H]; destruct (String.eqb_spec k k') as [->|Hne]; eauto.
  injection H as -> _. now elim Hne.
Qed.

Lemma rec_fields_loop_In (fields : list value) (out out' : obj) :
  rec_fields_loop fields out = Ok out' ->
  forall k v, In (k, v) out' ->
    In (k, v) out \/
    exists d, In (VDict d) fields /\ dict_get d "type" = Some v.
Proof.
  revert out. induction fields as [|field rest IH]; simpl; intros out H k v HIn.
  - injection H as <-. now left.
  - apply bind_Ok in H as (n & Hn & H).
    apply bind_Ok in H as (n' & Hn' & H).
    apply bind_Ok in H as (t & Ht & H).
    destruct field; simpl in Ht; try discriminate.
    apply getitem_Ok in Ht.
    destruct (IH _ H k v HIn) as [Hout|(d' & Hd' & Hv)].
    + apply dict_set_In in Hout as [[_ ->]|Hout]; [|now left].
      right. exists d. split; [now left|exact Ht].
    + right. exists d'. split; [now right|exact Hv].
Qed.

Lemma chars_no_dict (s : string) (d : obj) : ~ In (VDict d) (chars s).
Proof.
  induction s as [|c s IH]; simpl; [tauto|].
  intros [H|H]; [discriminate|auto].
Qed.

Lemma rec_fields_size (rec out : obj) :
  _rec_fields rec = Ok out ->
  forall k v, In (k, v) out -> size v < size (VDict rec).
Proof.
  unfold _rec_fields. intros H k v HIn.
  apply bind_Ok in H as (fs & Hfs & H).
  apply bind_Ok in H as (l & Hl & H).
  apply getitem_size in Hfs.
  destruct (rec_fields_loop_In _ _ _ H k v HIn) as [[]|(d & Hd & Hv)].
  apply dict_get_size in Hv.
  destruct fs; simpl in Hl; try discriminate; injection Hl as <-.
  - now apply chars_no_dict in Hd.
  - apply In_size in Hd. lia.
  - apply in_map_iff in Hd as (? & [=] & _).
Qed.

Lemma rec_fields_loop_returns (fields : list value) (out : obj) :
  returns (rec_fields_loop fields out).
Proof.
  revert out. induction fields as [|field rest IH]; simpl; intros out.
  - discriminate.
  - destruct (subscript field "name") as [n| |] eqn:E1; simpl; try discriminate.
    + destruct (cast_str n) as [n'| |] eqn:E2; simpl; try discriminate.
      * destruct (subscript field "type") as [t| |] eqn:E3; simpl;
          try discriminate; [apply IH|].
        destruct field; simpl in E3; try discriminate.
        unfold getitem in E3. destruct (dict_get d "type"); discriminate.
      * destruct n; discriminate.
    + destruct field; simpl in E1; try discriminate.
      unfold getitem in E1. destruct (dict_get d "name"); discriminate.
Qed.

Lemma getitem_returns {A} (d : list (string * A)) (k : string) :
  returns (getitem d k).
Proof. unfold getitem. destruct (dict_get d k); discriminate. Qed.

Lemma rec_fields_returns (rec : obj) : returns (_rec_fields rec).
Proof.
  unfold _rec_fields.
  destruct (getitem rec "fields") as [fs| |] eqn:E; simpl; try discriminate.
  - destruct fs; simpl; try discriminate; apply rec_fields_loop_returns.
  - now apply getitem_returns in E.
Qed.

Lemma both_tagged_returns (src sink : obj) (tag : string) :
  returns (both_tagged src sink tag).
Proof.
  unfold both_tagged, getitem.
  destruct (dict_get src "type"); simpl; try discriminate.
  destruct (is_str v tag); try discriminate.
  destruct (dict_get sink "type"); simpl; discriminate.
Qed.

Lemma secondary_files_loop_returns (src : obj) (sinksfs : list value)
  (strict : bool) : returns (secondary_files_loop src sinksfs strict).
Proof.
  induction sinksfs as [|sf rest IH]; simpl; [discriminate|].
  destruct (get_default src "secondaryFiles" (VList [])); simpl;
    try discriminate.
  destruct (_ && strict); [discriminate|exact IH].
Qed.

Section Agreement.

Variables f g : value -> value -> bool -> result bool.

Lemma compare_fields_agree (src sink srcfields sinkfields : obj)
  (keys : list (string * value)) (strict : bool) (a b : nat) :
  1 <= a ->
  (forall k v, In (k, v) srcfields -> size v < a) ->
  (forall k v, In (k, v) sinkfields -> size v < b) ->
  (forall k v, In (k, v) keys -> exists w, dict_get sinkfields k = Some w) ->
  (forall x y s, size x + size y < a + b -> f x y s = g x y s /\ returns (f x y s)) ->
  compare_fields f src sink srcfields sinkfields keys strict =
  compare_fields g src sink srcfields sinkfields keys strict /\
  returns (compare_fields f src sink srcfields sinkfields keys strict).
Proof.
  intros Ha Hsrc Hsink Hkeys H.
  induction keys as [|[key v0] rest IH]; simpl.
  - split; [reflexivity|discriminate].
  - destruct (Hkeys key v0 (or_introl eq_refl)) as [w Hw].
    assert (Hlt : size (get_default srcfields key (VStr "null")) +
                  size (get_default sinkfields key (VStr "null")) < a + b).
    { unfold get_default at 2. rewrite Hw.
      apply dict_get_In, Hsink in Hw.
      unfold get_default. destruct (dict_get srcfields key) as [u|] eqn:Hu.
      - apply dict_get_In, Hsrc in Hu. lia.
      - simpl. lia. }
    destruct (H _ _ strict Hlt) as [Heq Hret]. rewrite <- Heq.
    destruct (f _ _ strict) as [r| |]; simpl; [| split; [reflexivity|discriminate] | now elim Hret].
    destruct (negb r && _).
    + split; [reflexivity|].
      unfold getitem. destruct (dict_get src "name"); simpl; try discriminate.
      destruct (dict_get sink "name"); simpl; discriminate.
    + apply IH. intros k v Hk. apply (Hkeys k v). now right.
Qed.

Lemma compare_records_agree (src sink : obj) (strict : bool) :
  (forall x y s, size x + size y < size (VDict src) + size (VDict sink) ->
                 f x y s = g x y s /\ returns (f x y s)) ->
  _compare_records f src sink strict = _compare_records g src sink strict /\
  returns (_compare_records f src sink strict).
Proof.
  intros H. unfold _compare_records.
  pose proof (rec_fields_returns src) as Rsrc.
  pose proof (rec_fields_returns sink) as Rsink.
  destruct (_rec_fields src) as [srcfields| |] eqn:Esrc; simpl;
    [| split; [reflexivity|discriminate] | now elim Rsrc].
  destruct (_rec_fields sink) as [sinkfields| |] eqn:Esink; simpl;
    [| split; [reflexivity|discriminate] | now elim Rsink].
  apply compare_fields_agree with (a := size (VDict src)) (b := size (VDict sink)).
  - apply size_pos.
  - apply rec_fields_size, Esrc.
  - apply rec_fields_size, Esink.
  - intros k v. apply In_dict_get.
  - exact H.
Qed.

Lemma can_assign_body_agree (src sink : value) (strict : bool) :
  (forall x y s, size x + size y < size src + size sink ->
                 f x y s = g x y s /\ returns (f x y s)) ->
  can_assign_body f src sink strict = can_assign_body g src sink strict /\
  returns (can_assign_body f src sink strict).
Proof.
  intros H. unfold can_assign_body.
  destruct (is_str src "Any" || is_str sink "Any");
    [split; [reflexivity|discriminate]|].
  assert (Hunion_src : forall l, src = VList l ->
    (if strict
     then all_of (fun this_src => f this_src sink false) l
     else any_of (fun this_src => if negb (is_str this_src "null")
                                  then f this_src sink false else Ok false) l) =
    (if strict
     then all_of (fun this_src => g this_src sink false) l
     else any_of (fun this_src => if negb (is_str this_src "null")
                                  then g this_src sink false else Ok false) l) /\
    returns (if strict
     then all_of (fun this_src => f this_src sink false) l
     else any_of (fun this_src => if negb (is_str this_src "null")
                                  then f this_src sink false else Ok false) l)).
  { intros l ->. destruct strict.
    - apply all_of_agree. intros x Hx. apply H. apply In_size in Hx. lia.
    - apply any_of_agree. intros x Hx.
      destruct (negb (is_str x "null")); [|split; [reflexivity|discriminate]].
      apply H. apply In_size in Hx. lia. }
  assert (Hunion_sink : forall l, sink = VList l ->
    any_of (fun this_sink => f src this_sink false) l =
    any_of (fun this_sink => g src this_sink false) l /\
    returns (any_of (fun this_sink => f src this_sink false) l)).
  { intros l ->. apply any_of_agree. intros x Hx. apply H.
    apply In_size in Hx. lia. }
  destruct src as [| | | |ls|dsrc]; destruct sink as [| | | |lk|dsink];
    try (split; [reflexivity|discriminate]);
    try (apply (Hunion_src _ eq_refl));
    try (apply (Hunion_sink _ eq_refl)).
  clear Hunion_src Hunion_sink.
  destruct (truthy _ && strict); [split; [reflexivity|discriminate]|].
  pose proof (both_tagged_returns dsrc dsink "array") as Rarr.
  destruct (both_tagged dsrc dsink "array") as [[|]| |]; simpl;
    [| | split; [reflexivity|discriminate] | now elim Rarr].
  { destruct (getitem dsrc "items") as [si| |] eqn:Esi; simpl;
      [| split; [reflexivity|discriminate] | now apply getitem_returns in Esi].
    destruct (getitem dsink "items") as [ki| |] eqn:Eki; simpl;
      [| split; [reflexivity|discriminate] | now apply getitem_returns in Eki].
    apply H. apply getitem_size in Esi, Eki. lia. }
  pose proof (both_tagged_returns dsrc dsink "record") as Rrec.
  destruct (both_tagged dsrc dsink "record") as [[|]| |]; simpl;
    [| | split; [reflexivity|discriminate] | now elim Rrec].
  { apply compare_records_agree. exact H. }
  pose proof (both_tagged_returns dsrc dsink "File") as Rfil.
  destruct (both_tagged dsrc dsink "File") as [[|]| |]; simpl;
    [| | split; [reflexivity|discriminate] | now elim Rfil].
  { split; [reflexivity|].
    destruct (get_default dsink "secondaryFiles" (VList [])); simpl;
      try discriminate.
    apply secondary_files_loop_returns. }
  destruct (getitem dsrc "type") as [st| |] eqn:Est; simpl;
    [| split; [reflexivity|discriminate] | now apply getitem_returns in Est].
  destruct (getitem dsink "type") as [kt| |] eqn:Ekt; simpl;
    [| split; [reflexivity|discriminate] | now apply getitem_returns in Ekt].
  apply H. apply getitem_size in Est, Ekt. lia.
Qed.

End Agreement.

(** Any bound above the size of the arguments gives the same outcome, and
    that outcome is not the exhaustion of the bound. *)
Lemma can_assign_fuel_enough (n m : nat) (src sink : value) (strict : bool) :
  size src + size sink < n -> size src + size sink < m ->
  can_assign_fuel n src sink strict = can_assign_fuel m src sink strict /\
  returns (can_assign_fuel n src sink strict).
Proof.
  revert m src sink strict.
  induction n as [|n IH]; intros m src sink strict Hn Hm; [lia|].
  destruct m as [|m]; [lia|]. simpl.
  apply can_assign_body_agree. intros x y s Hlt. apply IH; lia.
Qed.

(** The recursion of [can_assign_src_to_sink] ends: the call returns a verdict
    or raises. *)
Lemma can_assign_src_to_sink_returns (src sink : value) (strict : bool) :
  returns (can_assign_src_to_sink src sink strict).
Proof.
  unfold can_assign_src_to_sink.
  apply (can_assign_fuel_enough _ (S (size src + size sink))); lia.
Qed.

(** [can_assign_src_to_sink] satisfies the equation its source text reads
    as. *)
Lemma can_assign_src_to_sink_eq (src sink : value) (strict : bool) :
  can_assign_src_to_sink src sink strict =
  can_assign_body can_assign_src_to_sink src sink strict.
Proof.
  unfold can_assign_src_to_sink at 1. simpl.
  apply can_assign_body_agree. intros x y s Hlt.
  unfold can_assign_src_to_sink. apply can_assign_fuel_enough; lia.
Qed.

(* ================================================================= *)
(** ** Union sources, the empty union, unconnected sinks *)

(** The two loops over the branches of a union source, as equations: each
    branch is judged by a call that runs with [strict] at its default. *)
Lemma can_assign_union_strict (branches : list value) (sink : value) :
  is_str sink "Any" = false ->
  can_assign_src_to_sink (VList branches) sink true =
  all_of (fun this_src => can_assign_src_to_sink this_src sink false) branches.
Proof.
  intros HAny. rewrite can_assign_src_to_sink_eq. unfold can_assign_body.
  rewrite HAny. simpl. destruct sink; reflexivity.
Qed.

Lemma can_assign_union_nonstrict (branches : list value) (sink : value) :
  is_str sink "Any" = false ->
  can_assign_src_to_sink (VList branches) sink false =
  any_of (fun this_src =>
            if negb (is_str this_src "null")
            then can_assign_src_to_sink this_src sink false
            else Ok false) branches.
Proof.
  intros HAny. rewrite can_assign_src_to_sink_eq. unfold can_assign_body.
  rewrite HAny. simpl. destruct sink; reflexivity.
Qed.

Lemma can_assign_Any_sink (src : value) (strict : bool) :
  can_assign_src_to_sink src (VStr "Any") strict = Ok true.
Proof.
  rewrite can_assign_src_to_sink_eq. unfold can_assign_body.
  replace (is_str (VStr "Any") "Any") with true by reflexivity.
  now rewrite orb_true_r.
Qed.

Lemma is_str_false (v : value) (s : string) :
  is_str v s = false <-> v <> VStr s.
Proof.
  rewrite <- is_str_true. destruct (is_str v s); split; congruence.
Qed.

Lemma all_of_true (f : value -> result bool) (l : list value) :
  all_of f l = Ok true <-> Forall (fun x => f x = Ok true) l.
Proof.
  induction l as [|x l IH]; simpl.
  - split; auto.
  - split.
    + intros H. apply bind_Ok in H as (b & Hb & H).
      destruct b; [|discriminate]. constructor; [exact Hb|now apply IH].
    + intros H. inversion H as [|? ? Hx Hl]; subst. rewrite Hx. simpl.
      now apply IH.
Qed.

Lemma any_of_true_Exists (f : value -> result bool) (l : list value) :
  any_of f l = Ok true -> Exists (fun x => f x = Ok true) l.
Proof.
  induction l as [|x l IH]; simpl; [discriminate|].
  intros H. apply bind_Ok in H as (b & Hb & H).
  destruct b; [now left|right; auto].
Qed.

Lemma Exists_any_of_true (f : value -> result bool) (l : list value) :
  Forall (fun x => exists r, f x = Ok r) l ->
  Exists (fun x => f x = Ok true) l -> any_of f l = Ok true.
Proof.
  induction l as [|x l IH]; intros HF HE; [inversion HE|].
  inversion HF as [|? ? [r Hr] HF']; subst. simpl. rewrite Hr. simpl.
  destruct r; [reflexivity|].
  inversion HE as [? ? Hx|? ? HE']; subst; [congruence|auto].
Qed.

(** C10. With the empty union as source, the strict comparison accepts
    every sink, and the non-strict comparison rejects every sink other than
    [Any]. *)
Theorem empty_union_source (sink : value) :
  can_assign_src_to_sink (VList []) sink true = Ok true /\
  (sink <> VStr "Any" ->
   can_assign_src_to_sink (VList []) sink false = Ok false).
Proof.
  split.
  - destruct (is_str sink "Any") eqn:HAny.
    + apply is_str_true in HAny as ->. apply can_assign_Any_sink.
    + now rewrite can_assign_union_strict.
  - intros HAny. apply is_str_false in HAny.
    now rewrite can_assign_union_nonstrict.
Qed.

Lemma empty_union_source_witness :
  VStr "int" <> VStr "Any" /\
  can_assign_src_to_sink (VList []) (VStr "int") true = Ok true /\
  can_assign_src_to_sink (VList []) (VStr "int") false = Ok false.
Proof.
  assert (H : VStr "int" <> VStr "Any") by discriminate.
  destruct (empty_union_source (VStr "int")) as [Hs Hn].
  split; [exact H|]. split; [exact Hs|exact (Hn H)].
Defined.

(** C5, counterexample. A union whose one branch is a [File] is accepted
    in strict mode by a [File] sink with a secondary file, although that
    branch alone is rejected in strict mode; and with [Any] as sink the
    non-strict comparison accepts a union whose only branch is [null]. *)
Lemma union_source_counterexample :
  ~ (can_assign_src_to_sink (VList [Sample.file_type])
       Sample.indexed_file_type true = Ok true <->
     Forall (fun b => can_assign_src_to_sink b Sample.indexed_file_type true
                      = Ok true) [Sample.file_type]) /\
  ~ (can_assign_src_to_sink (VList [VStr "null"]) (VStr "Any") false = Ok true <->
     Exists (fun b => b <> VStr "null" /\
                      can_assign_src_to_sink b (VStr "Any") false = Ok true)
       [VStr "null"]).
Proof.
  split.
  - intros [H _]. specialize (H eq_refl).
    inversion H as [|? ? Hb _]; subst. vm_compute in Hb. discriminate.
  - intros [H _]. specialize (H eq_refl).
    inversion H as [? ? [Hb _]|? ? Hb]; subst; [now elim Hb|inversion Hb].
Qed.

(** C5, as amended. For every union source and every sink: the strict
    comparison accepts exactly when every branch is accepted by the
    non-strict comparison, the one the branches are judged by; hence, for
    branches judged alike in both modes, exactly when every branch is
    accepted in strict mode. The sink not being [Any], the non-strict
    comparison accepts only if some branch other than [null] is accepted,
    and does accept then, provided no comparison of a branch other than
    [null] raises. *)
Theorem union_source_assignable (branches : list value) (sink : value) :
  (can_assign_src_to_sink (VList branches) sink true = Ok true <->
   Forall (fun b => can_assign_src_to_sink b sink false = Ok true) branches) /\
  (Forall (fun b => can_assign_src_to_sink b sink true =
                    can_assign_src_to_sink b sink false) branches ->
   (can_assign_src_to_sink (VList branches) sink true = Ok true <->
    Forall (fun b => can_assign_src_to_sink b sink true = Ok true) branches)) /\
  (sink <> VStr "Any" ->
   (can_assign_src_to_sink (VList branches) sink false = Ok true ->
    Exists (fun b => b <> VStr "null" /\
                     can_assign_src_to_sink b sink false = Ok true) branches) /\
   (Forall (fun b => b <> VStr "null" ->
                     exists r, can_assign_src_to_sink b sink false = Ok r)
      branches ->
    Exists (fun b => b <> VStr "null" /\
                     can_assign_src_to_sink b sink false = Ok true) branches ->
    can_assign_src_to_sink (VList branches) sink false = Ok true)).
Proof.
  assert (Hstrict :
    can_assign_src_to_sink (VList branches) sink true = Ok true <->
    Forall (fun b => can_assign_src_to_sink b sink false = Ok true) branches).
  { destruct (is_str sink "Any") eqn:HAny.
    - apply is_str_true in HAny as ->. rewrite can_assign_Any_sink.
      split; [|reflexivity]. intros _. apply Forall_forall.
      intros b _. apply can_assign_Any_sink.
    - rewrite can_assign_union_strict by exact HAny. apply all_of_true. }
  split; [exact Hstrict|]. split.
  - intros Hmodes. rewrite Hstrict. rewrite !Forall_forall in *.
    split; intros H b Hb.
    + rewrite (Hmodes b Hb). auto.
    + rewrite <- (Hmodes b Hb). auto.
  - intros HAny. apply is_str_false in HAny.
    rewrite can_assign_union_nonstrict by exact HAny. split.
    + intros H. apply any_of_true_Exists in H.
      apply Exists_exists in H as (b & Hb & H). apply Exists_exists.
      exists b. split; [exact Hb|].
      destruct (is_str b "null") eqn:Hnull; simpl in H; [discriminate|].
      split; [now apply is_str_false|exact H].
    + intros Hok H. apply Exists_any_of_true.
      * rewrite Forall_forall in *. intros b Hb.
        destruct (is_str b "null") eqn:Hnull; cbn [negb]; [eauto|].
        apply Hok; [exact Hb|now apply is_str_false].
      * apply Exists_exists in H as (b & Hb & Hnull & H).
        apply Exists_exists. exists b. split; [exact Hb|].
        apply is_str_false in Hnull. now rewrite Hnull.
Qed.

Lemma union_source_assignable_witness :
  Sample.indexed_file_type <> VStr "Any" /\
  Forall (fun b => b <> VStr "null" ->
                   exists r, can_assign_src_to_sink b Sample.indexed_file_type
                               false = Ok r) [Sample.file_type] /\
  (can_assign_src_to_sink (VList [Sample.file_type]) Sample.indexed_file_type
     true = Ok true <->
   Forall (fun b => can_assign_src_to_sink b Sample.indexed_file_type false
                    = Ok true) [Sample.file_type]) /\
  (can_assign_src_to_sink (VList [Sample.file_type]) Sample.indexed_file_type
     false = Ok true <->
   Exists (fun b => b <> VStr "null" /\
                    can_assign_src_to_sink b Sample.indexed_file_type false
                    = Ok true) [Sample.file_type]).
Proof.
  assert (H1 : Sample.indexed_file_type <> VStr "Any") by discriminate.
  assert (H2 : Forall (fun b => b <> VStr "null" ->
                 exists r, can_assign_src_to_sink b Sample.indexed_file_type
                             false = Ok r) [Sample.file_type])
    by (repeat constructor; eexists; vm_compute; reflexivity).
  destruct (union_source_assignable [Sample.file_type] Sample.indexed_file_type)
    as (Hs & _ & Hn).
  destruct (Hn H1) as [Hto Hfrom].
  split; [exact H1|]. split; [exact H2|]. split; [exact Hs|].
  split; [exact Hto|exact (Hfrom H2)].
Defined.

Lemma dict_get_del_other {A} (d : list (string * A)) (k k' : string) :
  k' <> k -> dict_get (dict_del d k) k' = dict_get d k'.
Proof.
  intros Hne. induction d as [|[k0 v0] d IH]; simpl; [reflexivity|].
  destruct (String.eqb_spec k k0) as [->|Hk]; simpl.
  - destruct (String.eqb_spec k' k0); [contradiction|exact IH].
  - destruct (String.eqb_spec k' k0); [reflexivity|exact IH].
Qed.

Lemma any_of_ext (f g : value -> result bool) (l : list value) :
  (forall x, f x = g x) -> any_of f l = any_of g l.
Proof.
  intros H. induction l as [|x l IH]; simpl; [reflexivity|].
  now rewrite H, IH.
Qed.


Section Marker.

Variable dsink : obj.

Lemma unmarked_get (k : string) :
  k <> "not_connected" -> dict_get (dict_del dsink "not_connected") k = dict_get dsink k.
Proof. intros Hk. now apply dict_get_del_other. Qed.

Lemma unmarked_getitem (k : string) :
  k <> "not_connected" -> getitem (dict_del dsink "not_connected") k = getitem dsink k.
Proof. intros Hk. unfold getitem. now rewrite unmarked_get. Qed.

Lemma unmarked_both_tagged (src : obj) (tag : string) :
  both_tagged src (dict_del dsink "not_connected") tag = both_tagged src dsink tag.
Proof. unfold both_tagged. now rewrite unmarked_getitem. Qed.

Lemma unmarked_compare_fields (f : value -> value -> bool -> result bool)
  (src srcfields sinkfields : obj) (keys : list (string * value))
  (strict : bool) :
  compare_fields f src (dict_del dsink "not_connected") srcfields sinkfields keys strict =
  compare_fields f src dsink srcfields sinkfields keys strict.
Proof.
  induction keys as [|[key v] rest IH]; simpl; [reflexivity|].
  rewrite unmarked_getitem by discriminate. now rewrite IH.
Qed.

Lemma unmarked_compare_records (f : value -> value -> bool -> result bool)
  (src : obj) (strict : bool) :
  _compare_records f src (dict_del dsink "not_connected") strict = _compare_records f src dsink strict.
Proof.
  unfold _compare_records, _rec_fields.
  rewrite unmarked_getitem by discriminate.
  destruct (bind (getitem src "fields") _); simpl; try reflexivity.
  destruct (bind (getitem dsink "fields") _); simpl; try reflexivity.
  apply unmarked_compare_fields.
Qed.

(** In non-strict mode the marker is not looked at: the verdict is that of
    the sink without it. *)
Lemma can_assign_fuel_marker (n : nat) (src : value) :
  can_assign_fuel n src (VDict (dict_del dsink "not_connected")) false =
  can_assign_fuel n src (VDict dsink) false.
Proof.
  revert src. induction n as [|n IH]; intros src; [reflexivity|].
  simpl. unfold can_assign_body.
  replace (is_str (VDict dsink) "Any") with false by reflexivity.
  replace (is_str (VDict (dict_del dsink "not_connected")) "Any") with false by reflexivity.
  destruct (is_str src "Any" || false); [reflexivity|].
  destruct src as [| | | |ls|dsrc]; try reflexivity.
  - apply any_of_ext. intros x. destruct (negb (is_str x "null")); auto.
  - rewrite !andb_false_r, !unmarked_both_tagged, unmarked_compare_records.
    rewrite !unmarked_getitem by discriminate.
    unfold get_default. rewrite !unmarked_get by discriminate.
    reflexivity.
Qed.

End Marker.

(** C6, counterexample. A source [Any] is accepted in strict mode by a sink
    that carries the marker. *)
Lemma not_connected_counterexample :
  can_assign_src_to_sink (VStr "Any") (VDict Sample.unconnected_int) true
  = Ok true.
Proof. reflexivity. Qed.

(** C6, as amended. A sink mapping that carries a true [not_connected]
    rejects, in strict mode, every source that is neither [Any] nor a union;
    in non-strict mode the verdict is the one of the same sink without the
    marker. *)
Theorem not_connected_sink (src : value) (dsink : obj) :
  truthy (get_default dsink "not_connected" VNone) = true ->
  (src <> VStr "Any" -> (forall l, src <> VList l) ->
   can_assign_src_to_sink src (VDict dsink) true = Ok false) /\
  can_assign_src_to_sink src (VDict dsink) false =
  can_assign_src_to_sink src (VDict (dict_del dsink "not_connected")) false.
Proof.
  intros Hmark. split.
  - intros HAny Hlist. apply is_str_false in HAny.
    rewrite can_assign_src_to_sink_eq. unfold can_assign_body.
    rewrite HAny, Hmark. simpl.
    destruct src; try reflexivity. now elim (Hlist l).
  - unfold can_assign_src_to_sink.
    set (d' := dict_del dsink "not_connected").
    set (n := S (size src + size (VDict dsink) + size (VDict d'))).
    destruct (can_assign_fuel_enough (S (size src + size (VDict dsink))) n
                src (VDict dsink) false) as [-> _]; [lia|unfold n; lia|].
    destruct (can_assign_fuel_enough (S (size src + size (VDict d'))) n
                src (VDict d') false) as [-> _]; [lia|unfold n; lia|].
    symmetry. apply can_assign_fuel_marker.
Qed.

Lemma not_connected_sink_witness :
  truthy (get_default Sample.unconnected_int "not_connected" VNone) = true /\
  Sample.int_type <> VStr "Any" /\
  (forall l, Sample.int_type <> VList l) /\
  can_assign_src_to_sink Sample.int_type (VDict Sample.unconnected_int) true
  = Ok false /\
  can_assign_src_to_sink Sample.int_type (VDict Sample.unconnected_int) false =
  can_assign_src_to_sink Sample.int_type
    (VDict (dict_del Sample.unconnected_int "not_connected")) false.
Proof.
  assert (H1 : truthy (get_default Sample.unconnected_int "not_connected" VNone)
               = true) by reflexivity.
  assert (H2 : Sample.int_type <> VStr "Any") by discriminate.
  assert (H3 : forall l, Sample.int_type <> VList l) by discriminate.
  destruct (not_connected_sink Sample.int_type Sample.unconnected_int H1)
    as [Hs Hn].
  split; [exact H1|]. split; [exact H2|]. split; [exact H3|].
  split; [exact (Hs H2 H3)|exact Hn].
Defined.

(* ================================================================= *)
(** ** Well-formed types: no exception, and reflexivity *)

Lemma all_of_no_raise (f : value -> result bool) (l : list value) :
  (forall x, In x l -> no_raise (f x)) -> no_raise (all_of f l).
Proof.
  induction l as [|x l IH]; intros H e; simpl; [discriminate|].
  pose proof (H x (or_introl eq_refl)) as Hx.
  destruct (f x) as [[|]| |]; simpl; try discriminate.
  - apply IH. intros y Hy. apply H. now right.
  - now elim (Hx e0).
Qed.

Lemma any_of_no_raise (f : value -> result bool) (l : list value) :
  (forall x, In x l -> no_raise (f x)) -> no_raise (any_of f l).
Proof.
  induction l as [|x l IH]; intros H e; simpl; [discriminate|].
  pose proof (H x (or_introl eq_refl)) as Hx.
  destruct (f x) as [[|]| |]; simpl; try discriminate.
  - apply IH. intros y Hy. apply H. now right.
  - now elim (Hx e0).
Qed.

Lemma rec_fields_loop_denote (fields : list (string * type_expr)) (out : obj) :
  exists out', rec_fields_loop (map denote_field fields) out = Ok out' /\
    forall k v, In (k, v) out' ->
      In (k, v) out \/ exists ft, In ft fields /\ v = denote (snd ft).
Proof.
  revert out. induction fields as [|ft rest IH]; intros out; simpl.
  - exists out. split; [reflexivity|]. intros k v H. now left.
  - destruct (IH (dict_set out (shortname (fst ft)) (denote (snd ft))))
      as (out' & Hout' & Hin).
    exists out'. split; [exact Hout'|].
    intros k v Hk. destruct (Hin k v Hk) as [H|(ft' & Hft' & ->)].
    + apply dict_set_In in H as [[_ ->]|H]; [|now left].
      right. exists ft. split; [now left|reflexivity].
    + right. exists ft'. split; [now right|reflexivity].
Qed.

Lemma rec_fields_denote (name : string) (fields : list (string * type_expr)) :
  exists out, _rec_fields [("type", VStr "record"); ("name", VStr name);
                           ("fields", VList (map denote_field fields))] = Ok out /\
    forall k v, In (k, v) out -> exists ft, In ft fields /\ v = denote (snd ft).
Proof.
  destruct (rec_fields_loop_denote fields []) as (out & Hout & Hin).
  exists out. split; [exact Hout|].
  intros k v Hk. destruct (Hin k v Hk) as [[]|H]. exact H.
Qed.

Lemma secondary_files_loop_denote (src : list (string * bool)) (sinksfs : list value) (strict : bool) :
  exists b, secondary_files_loop
      [("type", VStr "File"); ("secondaryFiles", VList (map denote_secondary src))]
      sinksfs strict = Ok b.
Proof.
  induction sinksfs as [|sf rest IH]; simpl; [eauto|].
  destruct (_ && strict); [eauto|exact IH].
Qed.

Section Denoted.

Variable f : value -> value -> bool -> result bool.
Hypothesis Hf : forall s t strict, no_raise (f (denote s) (denote t) strict).

Lemma compare_fields_no_raise (src sink srcfields sinkfields : obj)
  (keys : list (string * value)) (strict : bool) :
  (exists n, dict_get src "name" = Some n) ->
  (exists n, dict_get sink "name" = Some n) ->
  (forall k v, In (k, v) srcfields -> exists t, v = denote t) ->
  (forall k v, In (k, v) sinkfields -> exists t, v = denote t) ->
  no_raise (compare_fields f src sink srcfields sinkfields keys strict).
Proof.
  intros [n1 Hn1] [n2 Hn2] Hsrc Hsink.
  induction keys as [|[key v0] rest IH]; simpl; intros e; [discriminate|].
  assert (Hs : exists t, get_default srcfields key (VStr "null") = denote t).
  { unfold get_default. destruct (dict_get srcfields key) eqn:E.
    - apply dict_get_In in E. eauto.
    - now exists (TPrim "null"). }
  assert (Hk : exists t, get_default sinkfields key (VStr "null") = denote t).
  { unfold get_default. destruct (dict_get sinkfields key) eqn:E.
    - apply dict_get_In in E. eauto.
    - now exists (TPrim "null"). }
  destruct Hs as [ts ->], Hk as [tk ->].
  pose proof (Hf ts tk strict) as Hr.
  destruct (f (denote ts) (denote tk) strict) as [b| |]; simpl;
    [| now elim (Hr e0) | discriminate].
  destruct (negb b && _).
  - unfold getitem. rewrite Hn1, Hn2. discriminate.
  - apply IH.
Qed.

Lemma can_assign_body_no_raise (s t : type_expr) (strict : bool) :
  no_raise (can_assign_body f (denote s) (denote t) strict).
Proof.
  unfold can_assign_body.
  destruct (is_str (denote s) "Any" || is_str (denote t) "Any");
    [discriminate|].
  assert (Hsrc_union : forall bs k,
    no_raise (if strict
      then all_of (fun this_src => f this_src (denote k) false) (map denote bs)
      else any_of (fun this_src => if negb (is_str this_src "null")
                                   then f this_src (denote k) false else Ok false)
             (map denote bs))).
  { intros bs k. destruct strict.
    - apply all_of_no_raise. intros x Hx.
      apply in_map_iff in Hx as (b & <- & _). apply Hf.
    - apply any_of_no_raise. intros x Hx.
      apply in_map_iff in Hx as (b & <- & _).
      destruct (negb _); [apply Hf|discriminate]. }
  assert (Hsink_union : forall bs k,
    no_raise (any_of (fun this_sink => f (denote k) this_sink false)
                (map denote bs))).
  { intros bs k. apply any_of_no_raise. intros x Hx.
    apply in_map_iff in Hx as (b & <- & _). apply Hf. }
  destruct s as [sn|si|sn sfs|sn ssy|ssf|sbs];
    destruct t as [tn|ti|tn tfs|tn tsy|tsf|tbs];
    try exact (Hsrc_union sbs (TPrim tn));
    try exact (Hsrc_union sbs (TArray ti));
    try exact (Hsrc_union sbs (TRecord tn tfs));
    try exact (Hsrc_union sbs (TEnum tn tsy));
    try exact (Hsrc_union sbs (TFile tsf));
    try exact (Hsrc_union sbs (TUnion tbs));
    try exact (Hsink_union tbs (TPrim sn));
    try exact (Hsink_union tbs (TArray si));
    try exact (Hsink_union tbs (TRecord sn sfs));
    try exact (Hsink_union tbs (TEnum sn ssy));
    try exact (Hsink_union tbs (TFile ssf));
    cbn; try discriminate; try apply Hf;
    try apply (Hf (TPrim _) (TPrim _)).
  - (* record, record *)
    change (map _ sfs) with (map denote_field sfs).
    change (map _ tfs) with (map denote_field tfs).
    unfold _compare_records.
    destruct (rec_fields_denote sn sfs) as (o1 & -> & H1).
    destruct (rec_fields_denote tn tfs) as (o2 & -> & H2). cbn [bind].
    apply compare_fields_no_raise; cbn; eauto.
    + intros k v Hk. destruct (H1 k v Hk) as (ft & _ & ->). eauto.
    + intros k v Hk. destruct (H2 k v Hk) as (ft & _ & ->). eauto.
  - (* File, File *)
    destruct (secondary_files_loop_denote ssf (map denote_secondary tsf) strict)
      as [b ->]. discriminate.
Qed.

End Denoted.

(** Between well-formed type expressions no lookup fails. *)
Lemma can_assign_fuel_no_raise (n : nat) (s t : type_expr) (strict : bool) :
  no_raise (can_assign_fuel n (denote s) (denote t) strict).
Proof.
  revert s t strict. induction n as [|n IH]; intros s t strict.
  - discriminate.
  - simpl. apply can_assign_body_no_raise. exact IH.
Qed.

Lemma all_of_accepts (f : value -> result bool) (l : list value) :
  (forall x, In x l -> accepts (f x)) -> accepts (all_of f l).
Proof.
  induction l as [|x l IH]; intros H; simpl; [now left|].
  destruct (H x (or_introl eq_refl)) as [-> | ->]; simpl; [|now right].
  apply IH. intros y Hy. apply H. now right.
Qed.

Lemma any_of_accepts (f : value -> result bool) (l : list value) :
  (forall x, In x l -> no_raise (f x)) ->
  (exists x, In x l /\ accepts (f x)) -> accepts (any_of f l).
Proof.
  induction l as [|x l IH]; intros Hn (y & Hy & Hacc); [destruct Hy|].
  simpl. pose proof (Hn x (or_introl eq_refl)) as Hx.
  destruct (f x) as [[|]| |] eqn:E; simpl; [now left | | now elim (Hx e) | now right].
  apply IH.
  - intros z Hz. apply Hn. now right.
  - destruct Hy as [->|Hy]; [|eauto].
    destruct Hacc as [Hacc|Hacc]; congruence.
Qed.

Lemma py_eq_denote_secondary (sf : string * bool) :
  py_eq (denote_secondary sf) (denote_secondary sf) = true.
Proof. destruct sf as [p []]; cbn; now rewrite String.eqb_refl. Qed.

Lemma secondary_files_loop_refl (sfs : list (string * bool)) (strict : bool)
  (sinksfs : list (string * bool)) :
  incl sinksfs sfs ->
  secondary_files_loop
    [("type", VStr "File"); ("secondaryFiles", VList (map denote_secondary sfs))]
    (map denote_secondary sinksfs) strict = Ok true.
Proof.
  induction sinksfs as [|sf rest IH]; intros Hincl; simpl; [reflexivity|].
  replace (existsb _ _) with true.
  - simpl. apply IH. intros x Hx. apply Hincl. now right.
  - symmetry. apply existsb_exists. exists (denote_secondary sf). split.
    + apply in_map, Hincl. now left.
    + apply py_eq_denote_secondary.
Qed.

Lemma branch_of_union (bs u : list type_expr) (b : type_expr) :
  branch_of (TUnion bs) u -> In b bs -> branch_of b u.
Proof.
  intros H Hb. remember (TUnion bs) as x eqn:Ex.
  induction H as [u H|u v Hv H IH]; subst.
  - eapply branch_below; [exact H|]. now apply branch_here.
  - eapply branch_below; [exact Hv|]. now apply IH.
Qed.

Lemma inhabited_branch (bs : list type_expr) :
  unions_inhabited (TUnion bs) = true ->
  exists b, In b bs /\ is_null b = false /\ unions_inhabited b = true.
Proof.
  cbn [unions_inhabited]. intros H. apply andb_prop in H as [He Hf].
  apply existsb_exists in He as (b & Hb & Hn).
  exists b. split; [exact Hb|]. split.
  - now apply negb_true_iff.
  - rewrite forallb_forall in Hf. auto.
Qed.

Lemma is_str_denote_null (b : type_expr) :
  is_str (denote b) "null" = is_null b.
Proof. destruct b; reflexivity. Qed.

Section Reflexive.

Variable f : value -> value -> bool -> result bool.
Hypothesis Hraise : forall s t strict, no_raise (f (denote s) (denote t) strict).
Hypothesis Hloose : forall t,
  unions_inhabited t = true -> accepts (f (denote t) (denote t) false).
Hypothesis Hstrict : forall t,
  nested_unions_inhabited t = true -> accepts (f (denote t) (denote t) true).
Hypothesis Hbranch : forall x u,
  branch_of x u -> unions_inhabited x = true ->
  accepts (f (denote x) (denote (TUnion u)) false).

Lemma compare_fields_refl (src : obj) (fields : obj)
  (keys : list (string * value)) (strict : bool) :
  (forall k v, In (k, v) keys -> In (k, v) fields) ->
  (forall k v, In (k, v) fields -> accepts (f v v strict)) ->
  accepts (compare_fields f src src fields fields keys strict).
Proof.
  intros Hkeys Hacc. induction keys as [|[key v0] rest IH]; simpl; [now left|].
  destruct (In_dict_get fields key v0 (Hkeys _ _ (or_introl eq_refl))) as [w Hw].
  unfold get_default. rewrite Hw.
  destruct (Hacc key w (dict_get_In _ _ _ Hw)) as [-> | ->]; simpl; [|now right].
  apply IH. intros k v Hk. apply Hkeys. now right.
Qed.

Lemma union_branch_accepts (x : type_expr) (u : list type_expr) :
  branch_of x u -> unions_inhabited x = true ->
  accepts (can_assign_body f (denote x) (denote (TUnion u)) false).
Proof.
  intros Hbr Hin. unfold can_assign_body.
  replace (is_str (denote (TUnion u)) "Any") with false by reflexivity.
  destruct (is_str (denote x) "Any" || false); [now left|].
  assert (Hscan : forall k, k = x -> (forall bs, k <> TUnion bs) ->
            accepts (any_of (fun this_sink => f (denote k) this_sink false)
                       (map denote u))).
  { intros k -> _. apply any_of_accepts.
    - intros y Hy. apply in_map_iff in Hy as (b & <- & _). apply Hraise.
    - destruct Hbr as [u Hu|u v Hv Hbr].
      + exists (denote x). split; [now apply in_map|]. now apply Hloose.
      + exists (denote (TUnion v)). split; [now apply in_map|].
        now apply Hbranch. }
  destruct x as [xn|xi|xn xfs|xn xsy|xsf|xbs]; cbn [denote];
    try (apply (Hscan _ eq_refl); discriminate).
  destruct (inhabited_branch _ Hin) as (b & Hb & Hnull & Hb').
  apply any_of_accepts.
  - intros y Hy. apply in_map_iff in Hy as (c & <- & _).
    destruct (negb _); [apply (Hraise c (TUnion u))|discriminate].
  - exists (denote b). split; [now apply in_map|].
    rewrite is_str_denote_null, Hnull. cbn [negb].
    apply Hbranch; [|exact Hb']. eapply branch_of_union; eauto.
Qed.

Lemma reflexive_body (t : type_expr) (strict : bool) :
  (if strict then nested_unions_inhabited t else unions_inhabited t) = true ->
  accepts (can_assign_body f (denote t) (denote t) strict).
Proof.
  intros Ht.
  assert (Hrec : forall t', (if strict then nested_unions_inhabited t'
                             else unions_inhabited t') = true ->
                            accepts (f (denote t') (denote t') strict)).
  { intros t'. destruct strict; auto. }
  unfold can_assign_body.
  destruct (is_str (denote t) "Any" || is_str (denote t) "Any"); [now left|].
  destruct t as [n|i|n fs|n sy|sf|bs]; cbn [denote].
  - cbn. rewrite String.eqb_refl. now left.
  - cbn. apply Hrec. destruct strict; exact Ht.
  - cbn. change (map _ fs) with (map denote_field fs).
    unfold _compare_records.
    destruct (rec_fields_denote n fs) as (o & -> & Ho). cbn [bind].
    apply compare_fields_refl; [auto|].
    intros k v Hk. destruct (Ho k v Hk) as (ft & Hft & ->). apply Hrec.
    destruct strict; cbn in Ht; rewrite forallb_forall in Ht; auto.
  - cbn. apply (Hrec (TPrim "enum")). now destruct strict.
  - cbn. rewrite secondary_files_loop_refl by apply incl_refl. now left.
  - destruct strict.
    + apply all_of_accepts. intros x Hx.
      apply in_map_iff in Hx as (b & <- & Hb).
      apply (Hbranch b bs); [now apply branch_here|].
      cbn in Ht. rewrite forallb_forall in Ht. auto.
    + destruct (inhabited_branch _ Ht) as (b & Hb & Hnull & Hb').
      apply any_of_accepts.
      * intros y Hy. apply in_map_iff in Hy as (c & <- & _).
        destruct (negb _); [apply (Hraise c (TUnion bs))|discriminate].
      * exists (denote b). split; [now apply in_map|].
        rewrite is_str_denote_null, Hnull. cbn [negb].
        apply (Hbranch b bs); [now apply branch_here|exact Hb'].
Qed.

End Reflexive.

(** Reflexivity in both modes, and a branch against its own union, by
    induction on the bound of the recursion. *)
Lemma can_assign_fuel_reflexive (n : nat) :
  (forall (t : type_expr) (strict : bool),
     (if strict then nested_unions_inhabited t else unions_inhabited t) = true ->
     accepts (can_assign_fuel n (denote t) (denote t) strict)) /\
  (forall x u, branch_of x u -> unions_inhabited x = true ->
     accepts (can_assign_fuel n (denote x) (denote (TUnion u)) false)).
Proof.
  induction n as [|n [IHr IHb]].
  - split; intros; now right.
  - split.
    + intros t strict Ht. simpl. apply reflexive_body.
      * apply can_assign_fuel_no_raise.
      * intros t' Ht'. now apply (IHr t' false).
      * intros t' Ht'. now apply (IHr t' true).
      * exact IHb.
      * exact Ht.
    + intros x u Hbr Hx. simpl. apply union_branch_accepts.
      * apply can_assign_fuel_no_raise.
      * intros t' Ht'. now apply (IHr t' false).
      * exact IHb.
      * exact Hbr.
      * exact Hx.
Qed.

(** C7, counterexample. The union whose one branch is an array of the
    union of [null] alone is not assignable to itself in strict mode. *)
Lemma strict_reflexive_counterexample :
  can_assign_src_to_sink (denote Sample.array_of_null_only)
    (denote Sample.array_of_null_only) true = Ok false.
Proof. reflexivity. Qed.

(** C7, as amended. In strict mode every type expression (primitive, array,
    record, enum, [File] with secondary files, union) is assignable to
    itself, provided each union that lies inside a branch of a union has a
    branch other than [null]. *)
Theorem strict_reflexive (t : type_expr) :
  nested_unions_inhabited t = true ->
  can_assign_src_to_sink (denote t) (denote t) true = Ok true.
Proof.
  intros Ht.
  destruct (proj1 (can_assign_fuel_reflexive (S (size (denote t) + size (denote t))))
              t true Ht) as [H|H].
  - exact H.
  - now elim (can_assign_src_to_sink_returns (denote t) (denote t) true).
Qed.

Lemma strict_reflexive_witness :
  nested_unions_inhabited Sample.nested_type = true /\
  can_assign_src_to_sink (denote Sample.nested_type)
    (denote Sample.nested_type) true = Ok true.
Proof.
  split; [reflexivity|]. apply (strict_reflexive Sample.nested_type).
  reflexivity.
Defined.

(** Between well-formed type expressions the oracle always gives a
    verdict. *)
Lemma can_assign_well_formed_total (s t : type_expr) (strict : bool) :
  exists b, can_assign_src_to_sink (denote s) (denote t) strict = Ok b.
Proof.
  pose proof (can_assign_src_to_sink_returns (denote s) (denote t) strict) as Hr.
  pose proof (can_assign_fuel_no_raise (S (size (denote s) + size (denote t)))
                s t strict) as Hn.
  unfold can_assign_src_to_sink in *.
  destruct (can_assign_fuel _ _ _ _) as [b|e|]; [eauto|now elim (Hn e)|now elim Hr].
Qed.

(* ================================================================= *)
(** ** The loop compatibility checker *)

Lemma loop_step_errors_nil
  (makeError : value -> option string -> string -> string) (step : obj) :
  loop_step_errors makeError step = [] <-> loop_misused step = false.
Proof.
  unfold loop_step_errors, loop_misused.
  destruct (dict_has step "loop"), (dict_has step "when"),
    (dict_has step "scatter"); simpl; split; intros H;
    try reflexivity; try discriminate.
Qed.

Lemma loop_errors_nil
  (makeError : value -> option string -> string -> string) (steps : list obj) :
  flat_map (loop_step_errors makeError) steps = [] <->
  existsb loop_misused steps = false.
Proof.
  induction steps as [|step rest IH]; simpl; [tauto|].
  rewrite orb_false_iff, <- IH, <- loop_step_errors_nil.
  split.
  - intros H. apply app_eq_nil in H. exact H.
  - intros [-> ->]. reflexivity.
Qed.

(** C9. [loop_checker] raises a validation failure exactly when some step
    has [loop] and either lacks [when] or has [scatter]; otherwise it
    returns normally. *)
Theorem loop_checker_raises_iff
  (makeError : value -> option string -> string -> string) (steps : list obj) :
  ((exists msg, loop_checker makeError steps = Raise (ValidationException msg))
   <->
   Exists (fun step => dict_has step "loop" = true /\
                       (dict_has step "when" = false \/
                        dict_has step "scatter" = true)) steps) /\
  (loop_checker makeError steps = Ok tt
   <->
   ~ Exists (fun step => dict_has step "loop" = true /\
                         (dict_has step "when" = false \/
                          dict_has step "scatter" = true)) steps).
Proof.
  assert (Hmis : Exists (fun step => dict_has step "loop" = true /\
                       (dict_has step "when" = false \/
                        dict_has step "scatter" = true)) steps <->
                 existsb loop_misused steps = true).
  { rewrite Exists_exists, existsb_exists.
    split; intros (step & Hin & H); exists step; (split; [exact Hin|]);
      unfold loop_misused in *.
    - destruct H as [-> [-> | ->]]; simpl; [reflexivity|].
      now rewrite orb_true_r.
    - apply andb_prop in H as [-> H]. split; [reflexivity|].
      apply orb_prop in H as [H|H]; [left|right; exact H].
      now apply negb_true_iff. }
  rewrite Hmis. unfold loop_checker.
  pose proof (loop_errors_nil makeError steps) as Hnil.
  destruct (flat_map (loop_step_errors makeError) steps) as [|e es].
  - assert (Hf : existsb loop_misused steps = false) by now apply Hnil.
    rewrite Hf. split; split; try discriminate; auto.
    intros (msg & Hmsg). discriminate.
  - destruct (existsb loop_misused steps) eqn:Hex.
    + split; split; try discriminate; eauto. intros H. now elim H.
    + assert (Hf : e :: es = []) by now apply Hnil. discriminate.
Qed.

(* ================================================================= *)
(** ** The edge enumerator and [static_checker] on unresolved and unfed
    sinks *)

Section Diagnostics.

Variable makeError : value -> option string -> string -> string.
Variable json_dumps : value -> string.
Variable bullets : list string -> string -> string.
Variable strip_dup_lineno : string -> string.
Variable py_str : value -> string.
Variable py_repr : string -> string.
Variable param_to_step : list (string * obj).

(** C3. A source id that is not in the source index ends the enumeration
    with a validation exception when the sink names it as a single id, and
    with the [KeyError] of the failed lookup when the sink names it in a
    sequence of ids. *)
Theorem unresolved_source_id :
  _check_all_types makeError py_repr param_to_step []
    [Sample.single_sink] "source"
  = Raise (ValidationException
             (makeError (VDict Sample.single_sink) (Some "source")
                "source not found: file:///wf.cwl#missing")) /\
  _check_all_types makeError py_repr param_to_step []
    [Sample.sequence_sink] "source"
  = Raise (KeyError "file:///wf.cwl#missing").
Proof. split; reflexivity. Qed.

(** C1. For a lone step input that nothing feeds, the text of the missing
    required parameter is built, and [static_checker] returns normally: its
    last statement tests the list of type mismatches, which is empty. *)
Theorem unfed_required_parameter :
  static_checker_findings makeError json_dumps bullets py_str py_repr
    param_to_step [] [] [Sample.unfed_input] []
  = Ok (mk_findings [] [] []
          [makeError (VDict Sample.unfed_input) None
             "Required parameter 'in1' does not have source, default, or valueFrom expression"])
  /\
  static_checker makeError json_dumps bullets strip_dup_lineno py_str py_repr
    param_to_step [] [] [Sample.unfed_input] []
  = Ok ([],
        if String.eqb (strip_dup_lineno EmptyString) EmptyString then None
        else Some ("Workflow checker warning:" ++ nl
                   ++ strip_dup_lineno EmptyString)%string).
Proof. split; reflexivity. Qed.

End Diagnostics.

(* ================================================================= *)
(** ** The two promotions of a source's type *)

Lemma with_null_has_null (t : value) :
  exists l, with_null t = VList l /\ existsb (fun x => is_str x "null") l = true.
Proof.
  unfold with_null.
  destruct (existsb (fun x => is_str x "null") (aslist t)) eqn:E.
  - eauto.
  - eexists. split; [reflexivity|]. reflexivity.
Qed.

(** Widening twice is widening once. *)
Lemma with_null_idempotent (t : value) : with_null (with_null t) = with_null t.
Proof.
  destruct (with_null_has_null t) as (l & -> & Hl).
  unfold with_null. simpl. now rewrite Hl.
Qed.

Section Enumerator.

Variable makeError : value -> option string -> string -> string.
Variable py_repr : string -> string.
Variable param_to_step : list (string * obj).

Lemma check_sources_warnings (src_dict : store) (sink : obj)
  (linkMerge valueFrom extra_message : option string)
  (srcs : list string) (v v' : validation) :
  check_sources py_repr src_dict sink linkMerge valueFrom extra_message srcs v
  = Ok v' ->
  exists ws, warning v' = warning v ++ ws /\
             Forall (fun w => SrcSink.message w = extra_message) ws.
Proof.
  revert v. induction srcs as [|id rest IH]; simpl; intros v H.
  - injection H as <-. exists []. now rewrite app_nil_r.
  - apply bind_Ok in H as (o & _ & H).
    apply bind_Ok in H as (r & _ & H).
    apply IH in H as (ws & Hws & HF).
    destruct r; simpl in Hws.
    + eauto.
    + rewrite <- app_assoc in Hws. eexists. split; [exact Hws|].
      constructor; [reflexivity|exact HF].
    + eauto.
Qed.

Lemma check_sink_conditional (sourceField : string) (src_dict : store)
  (v : validation) (sink : obj) (parm_id : string)
  (src_dict' : store) (v' : validation) :
  dict_get sink sourceField = Some (VStr parm_id) ->
  is_conditional_step param_to_step parm_id = true ->
  check_sink makeError py_repr param_to_step sourceField src_dict v sink
  = Ok (src_dict', v') ->
  exists (o : obj) (t snk_typ : value) (sink_has_null : bool),
    dict_get src_dict parm_id = Some o /\
    dict_get o "type" = Some t /\
    dict_get sink "type" = Some snk_typ /\
    py_contains snk_typ "null" = Ok sink_has_null /\
    (In (may_produce_null parm_id sink) (warning v') <->
     sink_has_null = false \/ In (may_produce_null parm_id sink) (warning v)) /\
    exists o', dict_get src_dict' parm_id = Some o' /\
      dict_get o' "type" =
      Some (if is_all_output_method_loop_step param_to_step parm_id
            then array_of (with_null t) else with_null t).
Proof.
  intros Hsrc Hcond H. unfold check_sink in H. rewrite Hsrc in H.
  apply bind_Ok in H as (valueFrom & _ & H).
  apply bind_Ok in H as (pickValue & _ & H).
  apply bind_Ok in H as ([[[sd2 v2] srcs] lm] & Hs & H).
  apply bind_Ok in H as (v3 & Hchk & H). injection H as <- <-.
  unfold sources_of_sink in Hs. simpl in Hs.
  destruct (dict_has src_dict parm_id); simpl in Hs; [|discriminate].
  apply bind_Ok in Hs as ([sd1 v1] & Hpc & Hs).
  apply bind_Ok in Hs as (sd2' & Hpl & Hs). injection Hs as <- <- <- <-.
  unfold promote_conditional in Hpc. rewrite Hcond in Hpc.
  apply bind_Ok in Hpc as (o & Ho & Hpc).
  apply bind_Ok in Hpc as (t & Ht & Hpc).
  apply bind_Ok in Hpc as (snk_typ & Hk & Hpc).
  apply bind_Ok in Hpc as (has_null & Hn & Hpc).
  apply bind_Ok in Hpc as (sd1' & Hset & Hpc). injection Hpc as <- <-.
  unfold set_type in Hset. rewrite Ho in Hset. simpl in Hset.
  injection Hset as <-.
  apply getitem_Ok in Ho, Ht, Hk.
  exists o, t, snk_typ, has_null. repeat (split; [assumption|]).
  split.
  - apply check_sources_warnings in Hchk as (ws & -> & HF).
    assert (Hws : ~ In (may_produce_null parm_id sink) ws).
    { intros Hin. rewrite Forall_forall in HF. apply HF in Hin.
      simpl in Hin. destruct pickValue; simpl in Hin; [|discriminate].
      injection Hin as Hin. discriminate Hin. }
    assert (Hpick : forall w, In (may_produce_null parm_id sink)
              (warning (match pickValue with
                        | Some _ => add_warning v w
                        | None => v end)) ->
              SrcSink.message w <> SrcSink.message (may_produce_null parm_id sink) ->
              In (may_produce_null parm_id sink) (warning v)).
    { intros w Hin Hne. destruct pickValue; [|exact Hin].
      simpl in Hin. apply in_app_or in Hin as [Hin|[Heq|[]]]; [exact Hin|].
      elim Hne. now rewrite Heq. }
    rewrite in_app_iff. destruct has_null; simpl.
    + split.
      * intros [Hin|Hin]; [|contradiction]. right.
        eapply Hpick; [exact Hin|]. simpl. discriminate.
      * intros [Hf|Hin]; [discriminate|]. left.
        destruct pickValue; [|exact Hin]. simpl. apply in_or_app. now left.
    + split; [auto|]. intros _. left. apply in_or_app. right. now left.
  - unfold promote_loop in Hpl.
    destruct (is_all_output_method_loop_step param_to_step parm_id).
    + apply bind_Ok in Hpl as (o1 & Ho1 & Hpl).
      apply bind_Ok in Hpl as (t1 & Ht1 & Hpl).
      unfold set_type in Hpl. rewrite Ho1 in Hpl. simpl in Hpl.
      injection Hpl as <-.
      apply getitem_Ok in Ho1, Ht1.
      rewrite dict_get_set_same in Ho1. injection Ho1 as <-.
      rewrite dict_get_set_same in Ht1. injection Ht1 as <-.
      eexists. split; [apply dict_get_set_same|apply dict_get_set_same].
    + injection Hpl as <-.
      eexists. split; [apply dict_get_set_same|apply dict_get_set_same].
Qed.

(** C4, as amended. For a sink with a single source id whose owning step
    is conditional: the warning "Source is from conditional step and may
    produce `null`" is recorded exactly when the sink's type does not
    include [null]; and, whatever the sink's type, the source's type is
    replaced by its list form with [null] in front unless [null] is already
    a member (and then wrapped in an array if the step is an
    [all_iterations] loop). *)
Theorem conditional_single_source (sourceField : string) (src_dict : store)
  (sink : obj) (parm_id : string) (src_dict' : store) (v' : validation) :
  dict_get sink sourceField = Some (VStr parm_id) ->
  is_conditional_step param_to_step parm_id = true ->
  _check_all_types makeError py_repr param_to_step src_dict [sink] sourceField
  = Ok (src_dict', v') ->
  exists (o : obj) (t snk_typ : value) (sink_has_null : bool),
    dict_get src_dict parm_id = Some o /\
    dict_get o "type" = Some t /\
    dict_get sink "type" = Some snk_typ /\
    py_contains snk_typ "null" = Ok sink_has_null /\
    (In (may_produce_null parm_id sink) (warning v') <->
     sink_has_null = false) /\
    exists o', dict_get src_dict' parm_id = Some o' /\
      dict_get o' "type" =
      Some (if is_all_output_method_loop_step param_to_step parm_id
            then array_of (with_null t) else with_null t).
Proof.
  intros Hsrc Hcond H. unfold _check_all_types in H. simpl in H.
  apply bind_Ok in H as ([sd1 v1] & Hsink & H). simpl in H.
  injection H as <- <-.
  destruct (check_sink_conditional _ _ _ _ _ _ _ Hsrc Hcond Hsink)
    as (o & t & snk_typ & has_null & Ho & Ht & Hk & Hn & Hw & Hty).
  exists o, t, snk_typ, has_null. repeat (split; [assumption|]).
  split; [|exact Hty].
  rewrite Hw. simpl. tauto.
Qed.

End Enumerator.

(** C4, counterexample. The sink admits [null]: no warning is recorded,
    and the type of the source is changed all the same, from [int] to
    [[null, int]]. *)
Lemma conditional_single_source_counterexample :
  _check_all_types plain_makeError plain_repr Sample.conditional_steps
    (Sample.store_with (VStr "int")) [Sample.nullable_sink] "source"
  = Ok (Sample.store_with Sample.nullable_int, mk_validation [] []) /\
  Sample.store_with Sample.nullable_int <> Sample.store_with (VStr "int").
Proof. split; [reflexivity|discriminate]. Qed.

Lemma conditional_single_source_witness :
  dict_get Sample.int_sink "source" = Some (VStr "file:///wf.cwl#step1/out") /\
  is_conditional_step Sample.conditional_steps "file:///wf.cwl#step1/out" = true /\
  _check_all_types plain_makeError plain_repr Sample.conditional_steps
    (Sample.store_with (VStr "int")) [Sample.int_sink] "source"
  = Ok (Sample.store_with Sample.nullable_int,
        mk_validation
          [may_produce_null "file:///wf.cwl#step1/out" Sample.int_sink;
           SrcSink.mk "file:///wf.cwl#step1/out" Sample.int_sink None None]
          []) /\
  exists (o : obj) (t snk_typ : value) (sink_has_null : bool),
    dict_get (Sample.store_with (VStr "int")) "file:///wf.cwl#step1/out" = Some o /\
    dict_get o "type" = Some t /\
    dict_get Sample.int_sink "type" = Some snk_typ /\
    py_contains snk_typ "null" = Ok sink_has_null /\
    (In (may_produce_null "file:///wf.cwl#step1/out" Sample.int_sink)
        [may_produce_null "file:///wf.cwl#step1/out" Sample.int_sink;
         SrcSink.mk "file:///wf.cwl#step1/out" Sample.int_sink None None] <->
     sink_has_null = false) /\
    exists o', dict_get (Sample.store_with Sample.nullable_int)
                 "file:///wf.cwl#step1/out" = Some o' /\
      dict_get o' "type" =
      Some (if is_all_output_method_loop_step Sample.conditional_steps
                 "file:///wf.cwl#step1/out"
            then array_of (with_null t) else with_null t).
Proof.
  split; [reflexivity|]. split; [reflexivity|]. split; [reflexivity|].
  apply (conditional_single_source plain_makeError plain_repr
           Sample.conditional_steps "source" (Sample.store_with (VStr "int"))
           Sample.int_sink "file:///wf.cwl#step1/out"
           (Sample.store_with Sample.nullable_int)
           (mk_validation
              [may_produce_null "file:///wf.cwl#step1/out" Sample.int_sink;
               SrcSink.mk "file:///wf.cwl#step1/out" Sample.int_sink None None]
              []));
    reflexivity.
Defined.


Section Idempotence.

Variable makeError : value -> option string -> string -> string.
Variable py_repr : string -> string.
Variable param_to_step : list (string * obj).

Lemma visit_sources_store (sink : obj) (linkMerge pickValue : option string)
  (ids : list value) (st st' : store * validation * list string) :
  (forall id, In (VStr id) ids ->
              is_all_output_method_loop_step param_to_step id = false) ->
  visit_sources param_to_step sink linkMerge pickValue ids st = Ok st' ->
  fst (fst st') = fst (fst st).
Proof.
  revert st. induction ids as [|id rest IH]; simpl; intros st Hloop H.
  - now injection H as <-.
  - apply bind_Ok in H as (st1 & H1 & H).
    rewrite (IH st1); [|auto|exact H].
    destruct st as [[sd v] srcs]. unfold visit_source in H1.
    apply bind_Ok in H1 as (pid & Hpid & H1).
    apply bind_Ok in H1 as (o & _ & H1).
    apply bind_Ok in H1 as (sd' & Hsd' & H1). injection H1 as <-. simpl.
    destruct id; simpl in Hpid; try discriminate. injection Hpid as <-.
    unfold promote_loop in Hsd'. rewrite Hloop in Hsd' by now left.
    now injection Hsd' as <-.
Qed.

(** The widening of a conditional step's source is guarded by a test for
    [null]: a sink none of whose sources belongs to an [all_iterations]
    loop step, processed a second time on the store its first processing
    left, leaves that store as it is and yields the same diagnostics. *)
Lemma check_sink_again (sourceField : string) (src_dict : store)
  (v : validation) (sink : obj) (src_dict' : store) (v' : validation) :
  (forall id, In (VStr id) (named_sources sourceField sink) ->
              is_all_output_method_loop_step param_to_step id = false) ->
  check_sink makeError py_repr param_to_step sourceField src_dict v sink
  = Ok (src_dict', v') ->
  check_sink makeError py_repr param_to_step sourceField src_dict' v sink
  = Ok (src_dict', v').
Proof.
  intros Hloop H. unfold check_sink, named_sources in *.
  destruct (dict_get sink sourceField) as [source|] eqn:Hsrc;
    [|now injection H as <- <-].
  apply bind_Ok in H as (valueFrom & HvF & H). rewrite HvF. simpl.
  apply bind_Ok in H as (pickValue & Hpv & H). rewrite Hpv. simpl.
  apply bind_Ok in H as ([[[sd2 v2] srcs] lm] & Hs & H).
  apply bind_Ok in H as (v3 & Hchk & H). injection H as <- <-.
  assert (Hsame : sources_of_sink makeError param_to_step sourceField sink
                    source pickValue sd2 v = Ok (sd2, v2, srcs, lm)).
  { destruct source as [| | |id|ids|d]; simpl in Hs; try discriminate.
    - (* a single id *)
      simpl. destruct (dict_has src_dict id) eqn:Hhas; simpl in Hs; [|discriminate].
      apply bind_Ok in Hs as ([sd1 v1] & Hpc & Hs).
      apply bind_Ok in Hs as (sd2' & Hpl & Hs). injection Hs as <- <- <- <-.
      unfold promote_loop in Hpl |- *.
      rewrite Hloop in Hpl |- * by now left. injection Hpl as <-.
      unfold promote_conditional in Hpc |- *.
      destruct (is_conditional_step param_to_step id).
      + apply bind_Ok in Hpc as (o & Ho & Hpc).
        apply bind_Ok in Hpc as (t & Ht & Hpc).
        apply bind_Ok in Hpc as (snk_typ & Hk & Hpc).
        apply bind_Ok in Hpc as (has_null & Hn & Hpc).
        apply bind_Ok in Hpc as (sd1' & Hset & Hpc). injection Hpc as <- <-.
        unfold set_type in Hset. rewrite Ho in Hset. simpl in Hset.
        injection Hset as <-.
        unfold dict_has. rewrite dict_get_set_same. simpl.
        unfold set_type, getitem. rewrite !dict_get_set_same. simpl.
        rewrite !dict_get_set_same. simpl.
        apply getitem_Ok in Hk. rewrite Hk. simpl. rewrite Hn. simpl.
        rewrite with_null_idempotent, !dict_set_set. reflexivity.
      + injection Hpc as <- <-. rewrite Hhas. reflexivity.
    - (* a sequence of ids *)
      apply bind_Ok in Hs as (lm0 & Hlm & Hs). simpl. rewrite Hlm. simpl.
      apply bind_Ok in Hs as ([[sd3 v4] srcs'] & Hvis & Hs).
      injection Hs as <- <- <- <-.
      pose proof (visit_sources_store _ _ _ _ _ _ Hloop Hvis) as Hst.
      simpl in Hst. subst sd3. rewrite Hvis. reflexivity. }
  rewrite Hsame. simpl in Hchk |- *. rewrite Hchk. reflexivity.
Qed.

End Idempotence.

Section Rewrapping.

Variable makeError : value -> option string -> string -> string.
Variable json_dumps : value -> string.
Variable bullets : list string -> string -> string.
Variable strip_dup_lineno : string -> string.
Variable py_str : value -> string.
Variable py_repr : string -> string.

(** C2. The wrapping of the source of an [all_iterations] loop step is
    applied again by every sink that names the source. [step1/out], of
    type [int], feeds two step inputs that both take an array of
    [[null, int]]: the first finds the source as an array of [[null, int]]
    and passes; the second wraps that type once more and is recorded as a
    type mismatch, so that [static_checker] raises. The same happens to the
    first sink alone when it is enumerated a second time on the source as
    the first enumeration left it. *)
Theorem loop_source_wrapped_again :
  _check_all_types makeError py_repr Sample.loop_steps Sample.int_store
    [Sample.first_consumer] "source"
  = Ok (Sample.store_with Sample.wrapped_once,
        mk_validation
          [may_produce_null "file:///wf.cwl#step1/out" Sample.first_consumer]
          []) /\
  _check_all_types makeError py_repr Sample.loop_steps Sample.int_store
    [Sample.first_consumer; Sample.second_consumer] "source"
  = Ok (Sample.store_with Sample.wrapped_twice,
        mk_validation
          [may_produce_null "file:///wf.cwl#step1/out" Sample.first_consumer;
           may_produce_null "file:///wf.cwl#step1/out" Sample.second_consumer]
          [Sample.link_of Sample.second_consumer]) /\
  _check_all_types makeError py_repr Sample.loop_steps
    (Sample.store_with Sample.wrapped_once) [Sample.first_consumer] "source"
  = Ok (Sample.store_with Sample.wrapped_twice,
        mk_validation
          [may_produce_null "file:///wf.cwl#step1/out" Sample.first_consumer]
          [Sample.link_of Sample.first_consumer]) /\
  exists msg,
    static_checker makeError json_dumps bullets strip_dup_lineno py_str py_repr
      Sample.loop_steps [] [] [Sample.first_consumer; Sample.second_consumer]
      [Sample.int_output]
    = Raise (ValidationException msg).
Proof.
  split; [reflexivity|]. split; [reflexivity|]. split; [reflexivity|].
  eexists. reflexivity.
Qed.

(** Without any loop step the diagnostics of a second enumeration can
    still differ from those of the first: a sink that names a conditional
    step's source in a list is checked, the first time, against the type
    as it was before a later sink widened it. *)
Example first_enumeration_differs :
  _check_all_types makeError py_repr Sample.conditional_steps Sample.int_store
    [Sample.listed_sink; Sample.int_sink] "source"
  = Ok (Sample.store_with Sample.nullable_int,
        mk_validation
          [SrcSink.mk "file:///wf.cwl#step1/out" Sample.listed_sink None
             (Some "Source is from conditional step, but pickValue is not used");
           may_produce_null "file:///wf.cwl#step1/out" Sample.int_sink;
           Sample.link_of Sample.int_sink]
          []) /\
  _check_all_types makeError py_repr Sample.conditional_steps
    (Sample.store_with Sample.nullable_int)
    [Sample.listed_sink; Sample.int_sink] "source"
  = Ok (Sample.store_with Sample.nullable_int,
        mk_validation
          [SrcSink.mk "file:///wf.cwl#step1/out" Sample.listed_sink None
             (Some "Source is from conditional step, but pickValue is not used");
           Sample.link_of Sample.listed_sink;
           may_produce_null "file:///wf.cwl#step1/out" Sample.int_sink;
           Sample.link_of Sample.int_sink]
          []).
Proof. split; reflexivity. Qed.

End Rewrapping.

(* ================================================================= *)
(** ** The cycle detector *)

Lemma mem_In (x : string) (l : list string) : mem x l = true <-> In x l.
Proof.
  unfold mem. rewrite existsb_exists. split.
  - intros (y & Hy & Heq). apply String.eqb_eq in Heq. now subst.
  - intros H. exists x. split; [exact H|apply String.eqb_refl].
Qed.

Lemma mem_false (x : string) (l : list string) : mem x l = false <-> ~ In x l.
Proof.
  rewrite <- mem_In. destruct (mem x l); split; congruence.
Qed.

Section Topological.

Variable E : string -> string -> Prop.

Lemma topo_closed (l : list string) :
  topo E l -> forall v w, In v l -> E v w -> In w l.
Proof.
  induction 1 as [|l x Hl IH Hx Hsucc]; intros v w Hv Hvw; [destruct Hv|].
  apply in_or_app. left. apply in_app_or in Hv as [Hv|[<-|[]]].
  - eapply IH; eauto.
  - auto.
Qed.

Lemma topo_reach (l : list string) :
  topo E l -> forall v w, In v l -> clos_trans string E v w -> In w l.
Proof.
  intros Hl v w Hv Hvw. induction Hvw as [v w Hvw|v u w _ IH1 _ IH2].
  - eapply topo_closed; eauto.
  - auto.
Qed.

Lemma topo_acyclic (l : list string) :
  topo E l -> forall v, In v l -> ~ clos_trans string E v v.
Proof.
  induction 1 as [|l x Hl IH Hx Hsucc]; intros v Hv Hcyc; [destruct Hv|].
  apply in_app_or in Hv as [Hv|[<-|[]]].
  - exact (IH v Hv Hcyc).
  - apply Hx. apply clos_trans_t1n in Hcyc.
    inversion Hcyc as [y Hxy|y z Hxy Hyx]; subst.
    + now apply Hsucc.
    + apply clos_t1n_trans in Hyx.
      eapply topo_reach; [exact Hl| |exact Hyx]. now apply Hsucc.
Qed.

Lemma reach_then_edge (a b c : string) :
  clos_refl_trans string E a b -> E b c -> clos_trans string E a c.
Proof.
  intros Hab Hbc. apply clos_rt_rtn1 in Hab.
  induction Hab as [|b b' Hbb' Hab IH] in c, Hbc |- *.
  - now apply t_step.
  - eapply t_trans; [|apply t_step; exact Hbc]. now apply IH.
Qed.

End Topological.

Lemma dict_has_keys {A} (d : list (string * A)) (k : string) :
  dict_has d k = true -> In k (map fst d).
Proof.
  unfold dict_has. destruct (dict_get d k) eqn:E; [|discriminate].
  intros _. apply dict_get_In in E. now apply (in_map fst) in E.
Qed.

Lemma keys_dict_has {A} (d : list (string * A)) (k : string) :
  In k (map fst d) -> dict_has d k = true.
Proof.
  intros H. apply in_map_iff in H as ([k' v] & <- & H).
  unfold dict_has. simpl. destruct (In_dict_get _ _ _ H) as [w ->]. reflexivity.
Qed.

Section Search.

Variable adjacency : graph.
Hypothesis Hclosed : closed adjacency.

Lemma path_bounded (path : list string) :
  NoDup path -> (forall x, In x path -> dict_has adjacency x = true) ->
  List.length path <= List.length adjacency.
Proof.
  intros Hnd Hkeys. rewrite <- (length_map fst adjacency).
  apply NoDup_incl_length; [exact Hnd|].
  intros x Hx. apply dict_has_keys. auto.
Qed.

Section Successors.

Variable fuel : nat.
Variable recurse : dfs_state -> result dfs_state.

(** The recursive call meets the specification of the search. *)
Hypothesis Hrecurse : forall path seen found tip p,
  search_inv adjacency fuel path seen found tip p ->
  exists st', recurse (mk_dfs path seen found) = Ok st' /\
    traversal_path st' = p /\
    (exists added, processed st' = seen ++ added /\
                   In tip (processed st') /\
                   forall x, In x added -> ~ In x p) /\
    (exists new, cycles st' = found ++ new) /\
    (cycles st' = [] -> topo (adj_edge adjacency) (processed st')) /\
    (cycles st' <> [] -> cyclic (adj_edge adjacency)).

Lemma visit_successors_spec (vs : list string) :
  forall path seen found tip p,
  search_inv adjacency (S fuel) path seen found tip p ->
  (forall v, In v vs -> (adj_edge adjacency) tip v) ->
  exists st', visit_successors recurse vs (mk_dfs path seen found) = Ok st' /\
    traversal_path st' = path /\
    (exists added, processed st' = seen ++ added /\
                   forall x, In x added -> ~ In x path) /\
    (exists new, cycles st' = found ++ new) /\
    (cycles st' = [] ->
       topo (adj_edge adjacency) (processed st') /\
       forall v, In v vs -> In v (processed st')) /\
    (cycles st' <> [] -> cyclic (adj_edge adjacency)).
Proof.
  induction vs as [|vertex rest IH]; intros path seen found tip p Hinv Hsucc.
  - simpl. eexists. split; [reflexivity|]. simpl.
    split; [reflexivity|]. split; [exists []; split; [now rewrite app_nil_r|intros x []]|].
    split; [exists []; now rewrite app_nil_r|].
    split; [intros Hc; split; [now apply (inv_topo _ _ _ _ _ _ _ Hinv)|intros v []]|].
    apply (inv_cyclic _ _ _ _ _ _ _ Hinv).
  - simpl. destruct (mem vertex path) eqn:Hpath.
    + (* a vertex of the path: a cycle is recorded *)
      apply mem_In in Hpath. cbn [bind].
      assert (Hcyc : cyclic (adj_edge adjacency)).
      { exists vertex. eapply reach_then_edge.
        - apply (inv_reach _ _ _ _ _ _ _ Hinv). exact Hpath.
        - apply Hsucc. now left. }
      destruct (IH path seen (found ++ [from_first vertex path]) tip p)
        as (st' & Hst' & Hp' & Hadd & (new & Hnew) & _ & Hc').
      { destruct Hinv. constructor; auto.
        - intros Hnil. now apply app_eq_nil in Hnil as [_ Hnil]. }
      { intros v Hv. apply Hsucc. now right. }
      exists st'. split; [exact Hst'|]. split; [exact Hp'|].
      split; [exact Hadd|].
      split; [exists (from_first vertex path :: new); now rewrite Hnew, <- app_assoc|].
      split; [|auto].
      intros Hnil. rewrite Hnew in Hnil.
      apply app_eq_nil in Hnil as [Hnil _]. now apply app_eq_nil in Hnil as [_ Hnil].
    + apply mem_false in Hpath. destruct (mem vertex seen) eqn:Hproc; cbn [negb].
      * (* already seen *)
        apply mem_In in Hproc. cbn [bind].
        destruct (IH path seen found tip p Hinv)
          as (st' & Hst' & Hp' & (added & Hadd & Hfresh) & Hnew & Ht' & Hc').
        { intros v Hv. apply Hsucc. now right. }
        exists st'. split; [exact Hst'|]. split; [exact Hp'|].
        split; [eauto|]. split; [exact Hnew|]. split; [|exact Hc'].
        intros Hnil. destruct (Ht' Hnil) as [Ht Hin]. split; [exact Ht|].
        intros v [<-|Hv]; [|auto]. rewrite Hadd. apply in_or_app. now left.
      * (* a new vertex: the search goes down *)
        apply mem_false in Hproc.
        assert (Hedge : (adj_edge adjacency) tip vertex) by (apply Hsucc; now left).
        destruct (Hrecurse (path ++ [vertex]) seen found vertex path)
          as (st1 & Hst1 & Hp1 & (added1 & Hadd1 & Hin1 & Hfresh1) &
              (new1 & Hnew1) & Ht1 & Hc1).
        { destruct Hinv. constructor; auto.
          - apply NoDup_app; [exact inv_nodup0|repeat constructor; intros []|].
            intros x Hx [<-|[]]. contradiction.
          - intros x Hx. apply in_app_or in Hx as [Hx|[<-|[]]]; [auto|].
            now apply (Hclosed tip).
          - intros x Hx. apply in_app_or in Hx as [Hx|[<-|[]]]; auto.
          - intros x Hx. apply in_app_or in Hx as [Hx|[<-|[]]].
            + eapply rt_trans; [apply inv_reach0; exact Hx|]. now apply rt_step.
            + apply rt_refl.
          - rewrite length_app. simpl. lia. }
        rewrite Hst1. cbn [bind]. destruct st1 as [path1 processed1 cycles1].
        simpl in Hp1, Hadd1, Hin1, Hnew1, Ht1, Hc1. subst path1.
        destruct (IH path processed1 cycles1 tip p)
          as (st' & Hst' & Hp' & (added & Hadd & Hfresh) & (new & Hnew) & Ht' & Hc').
        { destruct Hinv. constructor; auto.
          intros x Hx Hx'. rewrite Hadd1 in Hx'.
          apply in_app_or in Hx' as [Hx'|Hx'].
          - now apply (inv_fresh0 x).
          - now apply (Hfresh1 x). }
        { intros v Hv. apply Hsucc. now right. }
        exists st'. split; [exact Hst'|]. split; [exact Hp'|].
        split.
        { exists (added1 ++ added). split.
          - now rewrite Hadd, Hadd1, app_assoc.
          - intros x Hx. apply in_app_or in Hx as [Hx|Hx]; auto. }
        split; [exists (new1 ++ new); now rewrite Hnew, Hnew1, app_assoc|].
        split; [|exact Hc'].
        intros Hnil. destruct (Ht' Hnil) as [Ht Hin]. split; [exact Ht|].
        intros v [<-|Hv]; [|auto]. rewrite Hadd. apply in_or_app. now left.
Qed.

End Successors.

(** [processDFS] returns; it pops the tip, finishes it, leaves the vertices
    below it on the path unfinished, and keeps the finished vertices in
    topological order unless it records a cycle, which is then a cycle of
    the graph. *)
Lemma processDFS_spec (fuel : nat) :
  forall path seen found tip p,
  search_inv adjacency fuel path seen found tip p ->
  exists st', processDFS fuel adjacency (mk_dfs path seen found) = Ok st' /\
    traversal_path st' = p /\
    (exists added, processed st' = seen ++ added /\
                   In tip (processed st') /\
                   forall x, In x added -> ~ In x p) /\
    (exists new, cycles st' = found ++ new) /\
    (cycles st' = [] -> topo (adj_edge adjacency) (processed st')) /\
    (cycles st' <> [] -> cyclic (adj_edge adjacency)).
Proof.
  induction fuel as [|fuel IH]; intros path seen found tip p Hinv.
  - exfalso. destruct Hinv.
    pose proof (path_bounded path inv_nodup0 inv_keys0). simpl in inv_fuel0. lia.
  - simpl. unfold processDFS_body. cbn [traversal_path].
    rewrite (inv_path _ _ _ _ _ _ _ Hinv), rev_app_distr. simpl.
    assert (Htip : In tip path).
    { rewrite (inv_path _ _ _ _ _ _ _ Hinv). apply in_or_app. right. now left. }
    pose proof (inv_keys _ _ _ _ _ _ _ Hinv tip Htip) as Hkey.
    unfold dict_has in Hkey. unfold getitem.
    destruct (dict_get adjacency tip) as [succs|] eqn:Hsuccs; [|discriminate].
    cbn [bind]. rewrite <- (inv_path _ _ _ _ _ _ _ Hinv).
    destruct (visit_successors_spec fuel (processDFS fuel adjacency) IH succs
                path seen found tip p Hinv)
      as (st' & Hst' & Hp' & (added & Hadd & Hfresh) & Hnew & Ht' & Hc').
    { intros v Hv. exists succs. split; [exact Hsuccs|exact Hv]. }
    rewrite Hst'. cbn [bind]. eexists. split; [reflexivity|]. simpl.
    rewrite Hp', (inv_path _ _ _ _ _ _ _ Hinv), removelast_last.
    split; [reflexivity|].
    split.
    { exists (added ++ [tip]). split; [now rewrite Hadd, app_assoc|].
      split; [apply in_or_app; right; now left|].
      intros x Hx. apply in_app_or in Hx as [Hx|[<-|[]]].
      - intros Hp. apply (Hfresh x Hx).
        rewrite (inv_path _ _ _ _ _ _ _ Hinv). apply in_or_app. now left.
      - pose proof (inv_nodup _ _ _ _ _ _ _ Hinv) as Hnd.
        rewrite (inv_path _ _ _ _ _ _ _ Hinv) in Hnd.
        apply NoDup_remove_2 in Hnd. now rewrite app_nil_r in Hnd. }
    split; [exact Hnew|]. split; [|exact Hc'].
    intros Hnil. destruct (Ht' Hnil) as [Ht Hin]. apply topo_snoc.
    + exact Ht.
    + rewrite Hadd. intros Hx. apply in_app_or in Hx as [Hx|Hx].
      * now apply (inv_fresh _ _ _ _ _ _ _ Hinv tip).
      * now apply (Hfresh tip).
    + intros w (outs & Houts & Hw). rewrite Hsuccs in Houts.
      injection Houts as <-. auto.
Qed.

End Search.

Section Decision.

Variable adjacency : graph.
Hypothesis Hclosed : closed adjacency.

Lemma visit_vertices_spec (vertices : list string) :
  forall st,
  (forall v, In v vertices -> dict_has adjacency v = true) ->
  (cycles st = [] -> topo (adj_edge adjacency) (processed st)) ->
  (cycles st <> [] -> cyclic (adj_edge adjacency)) ->
  exists st', visit_vertices adjacency vertices st = Ok st' /\
    (forall v, In v (processed st) \/ In v vertices -> In v (processed st')) /\
    (cycles st' = [] -> topo (adj_edge adjacency) (processed st')) /\
    (cycles st' <> [] -> cyclic (adj_edge adjacency)).
Proof.
  induction vertices as [|vertex rest IH]; intros st Hkeys Ht Hc; simpl.
  - exists st. split; [reflexivity|]. split; [|auto]. intros v [H|[]]. exact H.
  - destruct (mem vertex (processed st)) eqn:Hproc; cbn [negb].
    + apply mem_In in Hproc.
      destruct (IH st) as (st' & Hst' & Hin & Ht' & Hc'); auto.
      { intros v Hv. apply Hkeys. now right. }
      exists st'. split; [exact Hst'|]. split; [|auto].
      intros v [H|[<-|H]]; auto.
    + apply mem_false in Hproc.
      destruct (processDFS_spec adjacency Hclosed (List.length adjacency)
                  [vertex] (processed st) (cycles st) vertex [])
        as (st1 & Hst1 & _ & (added & Hadd & Htip & _) & _ & Ht1 & Hc1).
      { constructor; auto.
        - repeat constructor. intros [].
        - intros x [<-|[]]. apply Hkeys. now left.
        - intros x [<-|[]]. exact Hproc.
        - intros x [<-|[]]. apply rt_refl.
        - simpl. lia. }
      rewrite Hst1. cbn [bind].
      destruct (IH st1) as (st' & Hst' & Hin & Ht' & Hc'); auto.
      { intros v Hv. apply Hkeys. now right. }
      exists st'. split; [exact Hst'|]. split; [|auto].
      intros v [H|[<-|H]]; auto.
      apply Hin. left. rewrite Hadd. apply in_or_app. now left.
Qed.

(** The loop over all vertices ends, with a cycle recorded exactly when
    the graph has one. *)
Lemma search_decides :
  exists st, visit_vertices adjacency (map fst adjacency) (mk_dfs [] [] []) = Ok st /\
    (cycles st = [] -> ~ cyclic (adj_edge adjacency)) /\
    (cycles st <> [] -> cyclic (adj_edge adjacency)).
Proof.
  destruct (visit_vertices_spec (map fst adjacency) (mk_dfs [] [] []))
    as (st & Hst & Hin & Ht & Hc).
  - intros v. apply keys_dict_has.
  - intros _. constructor.
  - intros H. now elim H.
  - exists st. split; [exact Hst|]. split; [|exact Hc].
    intros Hnil [v Hcyc]. apply (topo_acyclic _ _ (Ht Hnil) v); [|exact Hcyc].
    apply Hin. right. apply clos_trans_t1n in Hcyc.
    assert (Hout : exists w, adj_edge adjacency v w)
      by (inversion Hcyc; eauto).
    destruct Hout as (w & outs & Houts & _).
    apply dict_get_In in Houts. now apply (in_map fst) in Houts.
Qed.

End Decision.

(** The adjacency list holds the edges of the step inputs. *)
Lemma dep_edge_iff (step_inputs : list obj) (u v : string) :
  dep_edge step_inputs u v <->
  exists step_input, In step_input step_inputs /\ input_edge step_input u v.
Proof.
  split.
  - intros [si srcs src id H1 H2 H3 H4 H5 H6]. exists si. split; [exact H1|].
    exists srcs, src, id. auto.
  - intros (si & H1 & srcs & src & id & H2 & H3 & H4 & H5 & H6).
    econstructor; eauto.
Qed.

Lemma step_ids_spec (srcs : list value) (vins : list string) :
  step_ids srcs = Ok vins ->
  forall u, In u vins <->
            exists src, In (VStr src) srcs /\ get_step_id src = Ok u.
Proof.
  revert vins. induction srcs as [|s rest IH]; simpl; intros vins H u.
  - injection H as <-. split; [intros []|intros (? & [] & _)].
  - apply bind_Ok in H as (str & Hstr & H).
    apply bind_Ok in H as (v & Hv & H).
    apply bind_Ok in H as (tl & Htl & H). injection H as <-.
    destruct s; simpl in Hstr; try discriminate. injection Hstr as <-.
    specialize (IH tl Htl u). simpl. rewrite IH. split.
    + intros [<-|(src & Hsrc & Hu)]; [exists s; auto|exists src; auto].
    + intros (src & [[= <-]|Hsrc] & Hu).
      * left. congruence.
      * right. eauto.
Qed.

Lemma add_edge_get (adjacency : graph) (a b u : string) :
  u <> a -> dict_get (add_edge adjacency a b) u = dict_get adjacency u.
Proof.
  intros Hne. unfold add_edge.
  destruct (dict_get adjacency a) as [outs|].
  - destruct (mem b outs); [reflexivity|now apply dict_get_set_other].
  - now apply dict_get_set_other.
Qed.

Lemma add_edge_edge (adjacency : graph) (a b u v : string) :
  adj_edge (add_edge adjacency a b) u v <->
  adj_edge adjacency u v \/ (u = a /\ v = b).
Proof.
  unfold adj_edge. destruct (String.eqb_spec u a) as [->|Hne].
  - unfold add_edge. destruct (dict_get adjacency a) as [outs|] eqn:Ha.
    + destruct (mem b outs) eqn:Hb.
      * apply mem_In in Hb. rewrite Ha. split.
        -- intros H. now left.
        -- intros [H|[_ ->]]; [exact H|eauto].
      * rewrite dict_get_set_same. split.
        -- intros (o & [= <-] & Hv). apply in_app_or in Hv as [Hv|[<-|[]]]; eauto.
        -- intros [(o & [= <-] & Hv)|[_ ->]]; eexists; split; try reflexivity;
             apply in_or_app; [now left|right; now left].
    + rewrite dict_get_set_same. split.
      * intros (o & [= <-] & [<-|[]]). now right.
      * intros [(o & [=] & _)|[_ ->]]. eexists. split; [reflexivity|now left].
  - rewrite add_edge_get by exact Hne. split; [auto|].
    intros [H|[H _]]; [exact H|contradiction].
Qed.

Lemma add_edge_has (adjacency : graph) (a b k : string) :
  dict_has (add_edge adjacency a b) k = true <->
  dict_has adjacency k = true \/ k = a.
Proof.
  unfold dict_has. destruct (String.eqb_spec k a) as [->|Hne].
  - split; [auto|]. intros _. unfold add_edge.
    destruct (dict_get adjacency a) as [outs|] eqn:Ha.
    + destruct (mem b outs); [now rewrite Ha|now rewrite dict_get_set_same].
    + now rewrite dict_get_set_same.
  - rewrite add_edge_get by exact Hne. split; [auto|].
    intros [H|H]; [exact H|contradiction].
Qed.

Lemma add_edges_spec (vins : list string) (b : string) (adjacency : graph) :
  let adjacency' :=
    fold_left (fun adj vertex_in => add_edge adj vertex_in b) vins adjacency in
  (forall u v, adj_edge adjacency' u v <->
               adj_edge adjacency u v \/ (In u vins /\ v = b)) /\
  (forall k, dict_has adjacency' k = true <->
             dict_has adjacency k = true \/ In k vins).
Proof.
  revert adjacency. induction vins as [|a rest IH]; intros adjacency; simpl.
  - split; intros; tauto.
  - destruct (IH (add_edge adjacency a b)) as [He Hk]. split.
    + intros u v. rewrite He, add_edge_edge. intuition (subst; auto).
    + intros k. rewrite Hk, add_edge_has. intuition (subst; auto).
Qed.

Lemma add_step_input_spec (adjacency adjacency' : graph) (step_input : obj) :
  add_step_input adjacency step_input = Ok adjacency' ->
  (forall u v, adj_edge adjacency' u v <->
               adj_edge adjacency u v \/ input_edge step_input u v) /\
  (forall k, dict_has adjacency k = true -> dict_has adjacency' k = true) /\
  (forall u v, input_edge step_input u v -> dict_has adjacency' v = true).
Proof.
  unfold add_step_input, input_edge, source_values.
  destruct (dict_get step_input "source") as [source|] eqn:Hsource.
  2:{ intros [= <-]. split; [|split; [auto|]].
      - intros u v. split; [auto|]. intros [H|(? & ? & ? & [=] & _)]. exact H.
      - intros u v (? & ? & ? & [=] & _). }
  intros H. apply bind_Ok in H as (vins & Hvins & H).
  apply bind_Ok in H as (idv & Hid & H).
  apply bind_Ok in H as (id & Hcast & H).
  apply bind_Ok in H as (b & Hb & H).
  destruct idv as [| | |sid| |]; simpl in Hcast; try discriminate.
  injection Hcast as ->.
  apply getitem_Ok in Hid.
  set (srcs := match source with VList srcs => srcs | _ => [source] end).
  assert (Hsrcs : step_ids srcs = Ok vins) by (destruct source; exact Hvins).
  assert (Hsv : match source with VList srcs => Some srcs | _ => Some [source] end
                = Some srcs) by (destruct source; reflexivity).
  rewrite Hsv, Hid. clear Hsv Hvins.
  pose proof (step_ids_spec _ _ Hsrcs) as Hin.
  destruct (add_edges_spec vins b adjacency) as [He Hk].
  set (adj1 := fold_left _ vins adjacency) in *.
  assert (Hedge : forall u v,
    (exists (srcs0 : list value) (src id0 : string),
       Some srcs = Some srcs0 /\ In (VStr src) srcs0 /\
       get_step_id src = Ok u /\ Some (VStr id) = Some (VStr id0) /\
       get_step_id id0 = Ok v) <-> (In u vins /\ v = b)).
  { intros u v. rewrite Hin. split.
    - intros (srcs0 & src & id0 & [= <-] & Hsrc & Hu & [= <-] & Hv).
      split; [eauto|congruence].
    - intros [(src & Hsrc & Hu) ->]. exists srcs, src, id. auto. }
  assert (Hfinal : (forall u v, adj_edge adjacency' u v <-> adj_edge adj1 u v) /\
                   (forall k, dict_has adj1 k = true -> dict_has adjacency' k = true) /\
                   dict_has adjacency' b = true).
  { destruct (dict_has adj1 b) eqn:Hhas; injection H as <-.
    - split; [tauto|]. split; [auto|exact Hhas].
    - unfold dict_has in Hhas.
      destruct (dict_get adj1 b) as [outs|] eqn:Hget; [discriminate|].
      split; [|split].
      + intros u v. unfold adj_edge.
        destruct (String.eqb_spec u b) as [->|Hne].
        * rewrite dict_get_set_same, Hget. split.
          -- intros (o & [= <-] & []).
          -- intros (o & [=] & _).
        * now rewrite dict_get_set_other.
      + intros k Hk1. unfold dict_has in *.
        destruct (String.eqb_spec k b) as [->|Hne].
        * now rewrite dict_get_set_same.
        * now rewrite dict_get_set_other.
      + unfold dict_has. now rewrite dict_get_set_same. }
  destruct Hfinal as (Hsame & Hmono & Hb').
  split; [|split].
  - intros u v. rewrite Hsame, He, Hedge. tauto.
  - intros k Hk1. apply Hmono, Hk. now left.
  - intros u v Huv. apply Hedge in Huv as [_ ->]. exact Hb'.
Qed.

Lemma dependency_tree_from_spec (step_inputs : list obj) :
  forall adjacency adjacency',
  dependency_tree_from step_inputs adjacency = Ok adjacency' ->
  (forall u v, adj_edge adjacency' u v <->
               adj_edge adjacency u v \/ dep_edge step_inputs u v) /\
  (closed adjacency -> closed adjacency') /\
  (forall k, dict_has adjacency k = true -> dict_has adjacency' k = true).
Proof.
  induction step_inputs as [|si rest IH]; simpl; intros adj adj' H.
  - injection H as <-. split; [|auto]. intros u v. split; [auto|].
    intros [H|H]; [exact H|]. apply dep_edge_iff in H as (? & [] & _).
  - apply bind_Ok in H as (adj1 & H1 & H).
    destruct (add_step_input_spec _ _ _ H1) as (He1 & Hk1 & Hv1).
    destruct (IH _ _ H) as (He & Hc & Hk).
    split; [|split].
    + intros u v. rewrite He, He1, !dep_edge_iff. split.
      * intros [[Hadj|Hsi]|(si' & Hin & Hsi')]; [now left| |].
        -- right. exists si. split; [now left|exact Hsi].
        -- right. exists si'. split; [now right|exact Hsi'].
      * intros [Hadj|(si' & [<-|Hin] & Hsi')]; [auto|auto|].
        right. exists si'. auto.
    + intros Hclosed. apply Hc. intros u v Huv.
      apply He1 in Huv as [Huv|Huv]; [|eauto].
      apply Hk1. eapply Hclosed, Huv.
    + auto.
Qed.

(** [get_dependency_tree] builds the graph of the step inputs, and every
    vertex of it is a key. *)
Lemma get_dependency_tree_spec (step_inputs : list obj) (adjacency : graph) :
  get_dependency_tree step_inputs = Ok adjacency ->
  (forall u v, adj_edge adjacency u v <-> dep_edge step_inputs u v) /\
  closed adjacency.
Proof.
  intros H. destruct (dependency_tree_from_spec _ _ _ H) as (He & Hc & _).
  split.
  - intros u v. rewrite He. split; [|auto].
    intros [(o & [=] & _)|Hd]. exact Hd.
  - apply Hc. intros u v (o & [=] & _).
Qed.

Lemma clos_trans_ext {V : Type} (E F : V -> V -> Prop) (x y : V) :
  (forall u v, E u v <-> F u v) -> clos_trans V E x y -> clos_trans V F x y.
Proof.
  intros H Hxy. induction Hxy as [x y Hxy|x y z _ IH1 _ IH2].
  - apply t_step. now apply H.
  - eapply t_trans; eauto.
Qed.

Lemma cyclic_ext {V : Type} (E F : V -> V -> Prop) :
  (forall u v, E u v <-> F u v) -> cyclic E -> cyclic F.
Proof. intros H [v Hv]. exists v. eapply clos_trans_ext; eauto. Qed.

Lemma cycle_check_on_tree (py_str : value -> string)
  (step_inputs : list obj) (adjacency : graph) :
  get_dependency_tree step_inputs = Ok adjacency ->
  ((exists msg, circular_dependency_checker py_str step_inputs
                = Raise (ValidationException msg))
   <-> cyclic (dep_edge step_inputs)) /\
  (~ cyclic (dep_edge step_inputs) ->
   circular_dependency_checker py_str step_inputs = Ok tt).
Proof.
  intros Htree. destruct (get_dependency_tree_spec _ _ Htree) as [Hedges Hclosed].
  destruct (search_decides adjacency Hclosed) as (st & Hst & Hnil & Hcons).
  unfold circular_dependency_checker. rewrite Htree. cbn [bind].
  rewrite Hst. cbn [bind].
  destruct (cycles st) as [|c cs] eqn:Hc.
  - assert (Hac : ~ cyclic (dep_edge step_inputs)).
    { intros Hcyc. apply (Hnil eq_refl).
      eapply cyclic_ext; [|exact Hcyc]. intros u v. symmetry. apply Hedges. }
    split; [|reflexivity]. split; [intros (msg & [=])|contradiction].
  - assert (Hcyc : cyclic (dep_edge step_inputs)).
    { eapply cyclic_ext; [exact Hedges|]. apply Hcons. discriminate. }
    split; [|contradiction]. split; [auto|]. intros _. eauto.
Qed.

Lemma split_nonempty (sep : ascii) (s : string) : split sep s <> [].
Proof.
  destruct s as [|c s]; simpl; [discriminate|].
  destruct (Ascii.eqb c sep); [discriminate|].
  destruct (split sep s); discriminate.
Qed.

Lemma split_second (sep : ascii) (s : string) :
  is_substring (String sep EmptyString) s = true ->
  exists a b rest, split sep s = a :: b :: rest.
Proof.
  induction s as [|c s IH]; simpl.
  - discriminate.
  - destruct (ascii_dec sep c) as [->|Hne].
    + intros _. rewrite Ascii.eqb_refl.
      destruct (split c s) as [|b rest] eqn:E; [now apply split_nonempty in E|].
      eauto.
    + destruct (Ascii.eqb_spec c sep) as [->|_]; [now elim Hne|].
      simpl. intros H. destruct (IH H) as (a & b & rest & ->). eauto.
Qed.

Lemma get_step_id_total (s : string) :
  is_substring "#" s = true -> exists v, get_step_id s = Ok v.
Proof.
  intros H. unfold get_step_id.
  destruct (split_second "#" s H) as (a & b & rest & ->). simpl.
  destruct (is_substring "/" b); eauto.
Qed.

Lemma step_ids_total (srcs : list value) :
  forallb is_param_id srcs = true -> exists vins, step_ids srcs = Ok vins.
Proof.
  induction srcs as [|s rest IH]; simpl; [eauto|].
  intros H. apply andb_prop in H as [Hs Hrest].
  destruct s; simpl in Hs; try discriminate.
  destruct (get_step_id_total _ Hs) as [v Hv]. destruct (IH Hrest) as [vins Hvins].
  simpl. rewrite Hv. simpl. rewrite Hvins. simpl. eauto.
Qed.

Lemma add_step_input_total (adjacency : graph) (step_input : obj) :
  well_identified step_input = true ->
  exists adjacency', add_step_input adjacency step_input = Ok adjacency'.
Proof.
  unfold well_identified, source_values, add_step_input, getitem.
  destruct (dict_get step_input "source") as [source|]; [|eauto].
  intros H.
  assert (H' : forallb is_param_id
                 (match source with VList srcs => srcs | _ => [source] end) = true /\
               match dict_get step_input "id" with
               | Some id => is_param_id id
               | None => false
               end = true)
    by (destruct source; apply andb_prop in H; exact H).
  destruct H' as [Hsrcs Hid].
  apply step_ids_total in Hsrcs as [vins Hvins].
  assert (Hv : match source with
               | VList srcs => step_ids srcs
               | _ => step_ids [source]
               end = Ok vins) by (destruct source; exact Hvins).
  rewrite Hv. cbn [bind].
  destruct (dict_get step_input "id") as [id|]; [|discriminate].
  destruct id; simpl in Hid; try discriminate.
  destruct (get_step_id_total _ Hid) as [v Hvo]. cbn [bind cast_str].
  rewrite Hvo. cbn [bind]. eauto.
Qed.

(** On parameter ids [get_step_id] does not fail, so the adjacency list is
    built. *)
Lemma get_dependency_tree_total (step_inputs : list obj) :
  forallb well_identified step_inputs = true ->
  exists adjacency, get_dependency_tree step_inputs = Ok adjacency.
Proof.
  unfold get_dependency_tree. generalize (@nil (string * list string)).
  induction step_inputs as [|si rest IH]; simpl; intros adj H; [eauto|].
  apply andb_prop in H as [Hsi Hrest].
  destruct (add_step_input_total adj si Hsi) as [adj1 ->]. cbn [bind].
  now apply IH.
Qed.

(** *** The step ids of the specification *)

Lemma has_char_cons (sep c : ascii) (s : string) :
  is_substring (one sep) (String c s)
  = Ascii.eqb c sep || is_substring (one sep) s.
Proof.
  unfold one. simpl. destruct (ascii_dec sep c) as [->|Hne].
  - rewrite Ascii.eqb_refl. now destruct s.
  - destruct (Ascii.eqb_spec c sep) as [->|_]; [now elim Hne|reflexivity].
Qed.

Lemma split_no_sep (sep : ascii) (s : string) :
  is_substring (one sep) s = false -> split sep s = [s].
Proof.
  induction s as [|c s IH]; [reflexivity|].
  rewrite has_char_cons. intros H. apply orb_false_elim in H as [Hc Hs].
  simpl. rewrite Hc, (IH Hs). reflexivity.
Qed.

Lemma occurs_is_substring (c : ascii) (s : string) :
  is_substring (one c) s = occurs c s.
Proof.
  induction s as [|a s IH]; [reflexivity|].
  rewrite has_char_cons, IH. reflexivity.
Qed.

Lemma split_at_first (c : ascii) (s : string) :
  occurs c s = true ->
  split c s = portion_before c s :: split c (portion_after c s).
Proof.
  induction s as [|a s IH]; simpl; [discriminate|].
  destruct (Ascii.eqb a c); simpl; [reflexivity|].
  intros H. now rewrite (IH H).
Qed.

Lemma occurs_portion_after (c d : ascii) (s : string) :
  occurs d (portion_after c s) = true -> occurs d s = true.
Proof.
  induction s as [|a s IH]; simpl; [discriminate|].
  destruct (Ascii.eqb a c).
  - intros ->. apply orb_true_r.
  - intros H. rewrite (IH H). apply orb_true_r.
Qed.

Lemma split_single (c : ascii) (s : string) :
  occurs c s = false -> split c s = [s].
Proof. rewrite <- occurs_is_substring. apply split_no_sep. Qed.

Lemma split_several (c : ascii) (s : string) :
  occurs c s = true -> exists h x t, split c s = h :: x :: t.
Proof. rewrite <- occurs_is_substring. apply split_second. Qed.

Lemma join_cons (sep h : string) (x : string) (t : list string) :
  join sep (h :: x :: t) = (h ++ sep ++ join sep (x :: t))%string.
Proof. reflexivity. Qed.

Lemma strip_final_segment_join (s : string) :
  occurs "/" s = true ->
  join "/" (removelast (split "/" s)) = strip_final_segment s.
Proof.
  induction s as [|a s IH]; [discriminate|].
  cbn [occurs split strip_final_segment].
  destruct (occurs "/" s) eqn:Hs.
  - specialize (IH eq_refl).
    destruct (split_several "/" s Hs) as (h & x & t & Hsplit).
    rewrite Hsplit in IH |- *.
    destruct (Ascii.eqb a "/") eqn:Ha.
    + apply Ascii.eqb_eq in Ha. subst a.
      change (removelast (EmptyString :: h :: x :: t))
        with (EmptyString :: removelast (h :: x :: t)).
      change (removelast (h :: x :: t)) with (h :: removelast (x :: t)) in *.
      rewrite join_cons, IH. reflexivity.
    + intros _.
      change (removelast (String a h :: x :: t))
        with (String a h :: removelast (x :: t)).
      change (removelast (h :: x :: t)) with (h :: removelast (x :: t)) in IH.
      rewrite <- IH. generalize (removelast (x :: t)). intros r.
      destruct r; reflexivity.
  - rewrite orb_false_r. intros Ha. rewrite Ha.
    rewrite (split_single "/" s Hs). reflexivity.
Qed.

Lemma get_step_id_step_id_of (pid : string) :
  single_fragment (VStr pid) = true -> get_step_id pid = Ok (step_id_of pid).
Proof.
  cbn [single_fragment]. intros H. apply andb_prop in H as [Hh Hf].
  apply negb_true_iff in Hf.
  unfold get_step_id, step_id_of.
  rewrite (split_at_first "#" pid Hh), (split_single "#" _ Hf).
  cbn [nth_error hd].
  change "/" with (one "/") at 1. rewrite occurs_is_substring.
  destruct (occurs "/" (portion_after "#" pid)) eqn:Hs; [|reflexivity].
  f_equal. apply strip_final_segment_join.
  now apply (occurs_portion_after "#").
Qed.

Lemma single_fragment_param_id (v : value) :
  single_fragment v = true -> is_param_id v = true.
Proof.
  destruct v; simpl; try discriminate. intros H.
  apply andb_prop in H as [H _].
  change "#" with (one "#"). now rewrite occurs_is_substring.
Qed.

Lemma single_fragments_identified (step_input : obj) :
  single_fragments step_input = true -> well_identified step_input = true.
Proof.
  unfold single_fragments, well_identified.
  destruct (source_values step_input) as [srcs|]; [|reflexivity].
  intros H. apply andb_prop in H as [Hs Hid]. apply andb_true_intro. split.
  - rewrite forallb_forall in *. intros x Hx.
    now apply single_fragment_param_id, Hs.
  - destruct (dict_get step_input "id"); [|discriminate].
    now apply single_fragment_param_id.
Qed.

Lemma step_edge_dep_edge (step_inputs : list obj) :
  forallb single_fragments step_inputs = true ->
  forall u v, dep_edge step_inputs u v <-> step_edge step_inputs u v.
Proof.
  intros Hall u v. rewrite forallb_forall in Hall.
  assert (Hids : forall si srcs src id,
            In si step_inputs -> source_values si = Some srcs ->
            In (VStr src) srcs -> dict_get si "id" = Some (VStr id) ->
            get_step_id src = Ok (step_id_of src) /\
            get_step_id id = Ok (step_id_of id)).
  { intros si srcs src id Hsi Hsrcs Hsrc Hid.
    specialize (Hall si Hsi). unfold single_fragments in Hall.
    rewrite Hsrcs, Hid in Hall. apply andb_prop in Hall as [Hs Hi].
    rewrite forallb_forall in Hs.
    split; apply get_step_id_step_id_of; auto. }
  split.
  - intros [si srcs src id H1 H2 H3 H4 H5 H6].
    destruct (Hids si srcs src id H1 H2 H3 H5) as [Es Ei].
    rewrite Es in H4. rewrite Ei in H6.
    injection H4 as <-. injection H6 as <-.
    econstructor; eauto.
  - intros [si srcs src id H1 H2 H3 H4 -> ->].
    destruct (Hids si srcs src id H1 H2 H3 H4) as [Es Ei].
    econstructor; eauto.
Qed.

(** C8. On step inputs whose ids and sources are parameter ids with one
    fragment, [circular_dependency_checker] raises a validation failure
    exactly when the step dependency multigraph of the specification (an
    edge from the step id of every source of a step input to the step id
    of that input) has a directed cycle, and returns normally when it has
    none. *)
Theorem cycle_check_raises_iff (py_str : value -> string)
  (step_inputs : list obj) :
  forallb single_fragments step_inputs = true ->
  ((exists msg, circular_dependency_checker py_str step_inputs
                = Raise (ValidationException msg))
   <-> cyclic (step_edge step_inputs)) /\
  (~ cyclic (step_edge step_inputs) ->
   circular_dependency_checker py_str step_inputs = Ok tt).
Proof.
  intros Hids.
  assert (Hwi : forallb well_identified step_inputs = true).
  { rewrite forallb_forall in *. intros si Hsi.
    now apply single_fragments_identified, Hids. }
  destruct (get_dependency_tree_total _ Hwi) as [adjacency Htree].
  destruct (cycle_check_on_tree py_str step_inputs adjacency Htree) as [Hiff Hok].
  pose proof (step_edge_dep_edge step_inputs Hids) as Hsame.
  assert (Hcyc : cyclic (dep_edge step_inputs) <-> cyclic (step_edge step_inputs)).
  { split; apply cyclic_ext; intros a b; [|symmetry]; apply Hsame. }
  split.
  - now rewrite Hiff.
  - intros H. apply Hok. now rewrite Hcyc.
Qed.

Lemma cycle_check_raises_iff_witness :
  forallb single_fragments Sample.ring = true /\
  ((exists msg, circular_dependency_checker plain_text Sample.ring
                = Raise (ValidationException msg))
   <-> cyclic (step_edge Sample.ring)) /\
  (~ cyclic (step_edge Sample.ring) ->
   circular_dependency_checker plain_text Sample.ring = Ok tt).
Proof.
  split; [reflexivity|].
  apply (cycle_check_raises_iff plain_text Sample.ring). reflexivity.
Defined.

(** The step ids of the specification, on the id of a step's input and on
    the id of a parameter of the workflow. *)
Example step_id_of_ids :
  step_id_of "file:///wf.cwl#A/in" = "file:///wf.cwl#A" /\
  step_id_of "file:///wf.cwl#x" = "file:///wf.cwl".
Proof. split; reflexivity. Qed.

(** The ring of three steps is reported, the line of two is not. *)
Example ring_is_reported :
  exists msg, circular_dependency_checker plain_text Sample.ring
              = Raise (ValidationException msg).
Proof. eexists. reflexivity. Qed.

Example line_is_accepted :
  circular_dependency_checker plain_text Sample.line = Ok tt.
Proof. reflexivity. Qed.

(* ================================================================= *)
(** ** The scenarios of the specification, run on the model *)

Module Scenario.

Import Sample.

(** Source [int], sink [int]: no diagnostics. *)
Example plain_pass :
  check_types plain_repr (param "w#s/o" (VStr "int"))
    (param "w#t/i" (VStr "int")) None None = Ok Pass.
Proof. reflexivity. Qed.

(** Source [int], sink [[null, int]]. *)
Example nullable_sink_passes :
  check_types plain_repr (param "w#s/o" (VStr "int"))
    (param "w#t/i" (VList [VStr "null"; VStr "int"])) None None = Ok Pass.
Proof. reflexivity. Qed.

(** Source [[int, string]], sink [int]: a warning, no exception. *)
Example partial_union_warns :
  check_types plain_repr (param "w#s/o" (VList [VStr "int"; VStr "string"]))
    (param "w#t/i" (VStr "int")) None None = Ok Warning.
Proof. reflexivity. Qed.

(** [merge_nested] over [int] sources: an array sink passes, an [int]
    sink does not. *)
Example merge_nested_into_array :
  check_types plain_repr (param "w#s/o" (VStr "int"))
    (param "w#t/i" array_of_int) (Some "merge_nested") None = Ok Pass /\
  check_types plain_repr (param "w#s/o" (VStr "int"))
    (param "w#t/i" (VStr "int")) (Some "merge_nested") None = Ok Exception.
Proof. split; reflexivity. Qed.

(** A [valueFrom] silences a mismatch; an unknown link-merge name is a
    workflow exception. *)
Example valueFrom_passes :
  check_types plain_repr (param "w#s/o" (VStr "int"))
    (param "w#t/i" (VStr "string")) None (Some "$(1)") = Ok Pass.
Proof. reflexivity. Qed.

Example unknown_linkMerge :
  check_types plain_repr (param "w#s/o" (VStr "int"))
    (param "w#t/i" (VStr "int")) (Some "merge_all") None
  = Raise (WorkflowException "Unrecognized linkMerge enum 'merge_all'").
Proof. reflexivity. Qed.

(** A step with [loop] and no [when]. *)
Example loop_without_when :
  loop_checker plain_makeError [[("id", VStr "w#s"); ("loop", VDict [])]]
  = Raise (ValidationException
             "The `when` clause is mandatory when the `loop` directive is defined.").
Proof. reflexivity. Qed.

(** A type mismatch makes [static_checker] raise. *)
Example mismatch_raises :
  exists msg,
    static_checker plain_makeError plain_text (fun l _ => join nl l)
      (fun s => s) plain_text plain_repr [] [] []
      [[("id", VStr "w#t/i"); ("type", VStr "string"); ("source", VStr "w#s/o")]]
      [[("id", VStr "w#s/o"); ("type", VStr "int")]]
    = Raise (ValidationException msg).
Proof. eexists. reflexivity. Qed.

(** One source and a [pickValue]. *)
Example pickValue_single_source :
  exists src_dict,
    _check_all_types plain_makeError plain_repr []
      [("w#s/o", [("id", VStr "w#s/o"); ("type", VStr "int")])]
      [[("id", VStr "w#t/i"); ("type", VStr "int"); ("source", VStr "w#s/o");
        ("pickValue", VStr "first_non_null")]] "source"
    = Ok (src_dict,
          mk_validation
            [SrcSink.mk "w#s/o"
               [("id", VStr "w#t/i"); ("type", VStr "int");
                ("source", VStr "w#s/o"); ("pickValue", VStr "first_non_null")]
               None
               (Some "pickValue is used but only a single input source is declared")]
            []).
Proof. eexists. reflexivity. Qed.

End Scenario.

(* ================================================================= *)
(** ** Further properties of the assignability oracle *)

(** X1. [can_assign_src_to_sink] comes back on every pair of values: the
    recursion ends within the bound its entry point sets, and a larger
    bound gives the same result. *)
Theorem oracle_terminates (src sink : value) (strict : bool) :
  can_assign_src_to_sink src sink strict <> OutOfFuel /\
  forall n, size src + size sink < n ->
            can_assign_fuel n src sink strict
            = can_assign_src_to_sink src sink strict.
Proof.
  split; [apply can_assign_src_to_sink_returns|].
  intros n Hn. unfold can_assign_src_to_sink.
  apply can_assign_fuel_enough; lia.
Qed.

(** X2. Between two well-formed type expressions the oracle raises
    nothing: it answers [True] or [False], in both modes. *)
Theorem oracle_total_on_types (s t : type_expr) (strict : bool) :
  can_assign_src_to_sink (denote s) (denote t) strict = Ok true \/
  can_assign_src_to_sink (denote s) (denote t) strict = Ok false.
Proof.
  destruct (can_assign_well_formed_total s t strict) as [[|] H]; auto.
Qed.

(** Reflexivity in either mode, under the condition of that mode. *)
Lemma can_assign_reflexive_mode (t : type_expr) (strict : bool) :
  (if strict then nested_unions_inhabited t else unions_inhabited t) = true ->
  can_assign_src_to_sink (denote t) (denote t) strict = Ok true.
Proof.
  intros Ht.
  destruct (proj1 (can_assign_fuel_reflexive
                     (S (size (denote t) + size (denote t)))) t strict Ht)
    as [H|H]; [exact H|].
  now elim (can_assign_src_to_sink_returns (denote t) (denote t) strict).
Qed.

(** X3. In non-strict mode a type expression is assignable to itself as
    soon as every union in it, the outermost included, has a branch other
    than [null]. *)
Theorem nonstrict_reflexive (t : type_expr) :
  unions_inhabited t = true ->
  can_assign_src_to_sink (denote t) (denote t) false = Ok true.
Proof. apply (can_assign_reflexive_mode t false). Qed.

Lemma nonstrict_reflexive_witness :
  unions_inhabited Sample.nested_type = true /\
  can_assign_src_to_sink (denote Sample.nested_type)
    (denote Sample.nested_type) false = Ok true.
Proof.
  split; [reflexivity|]. apply (nonstrict_reflexive Sample.nested_type).
  reflexivity.
Defined.

(** Two type names: equal, or one of them [Any]. *)
Lemma can_assign_strings (a b : string) (strict : bool) :
  can_assign_src_to_sink (VStr a) (VStr b) strict
  = Ok (String.eqb a "Any" || String.eqb b "Any" || String.eqb a b).
Proof.
  rewrite can_assign_src_to_sink_eq. unfold can_assign_body, is_str. simpl.
  destruct (String.eqb a "Any" || String.eqb b "Any"); reflexivity.
Qed.

(** X4. Two mappings whose [type] is the same name, other than [array],
    [record] and [File], are assignable whatever else they hold: the
    symbols and the names of two enums are never compared. Only the
    [not_connected] marker of the sink, in strict mode, stands in the
    way. *)
Theorem same_tag_mappings (dsrc dsink : obj) (tag : string) (strict : bool) :
  dict_get dsrc "type" = Some (VStr tag) ->
  dict_get dsink "type" = Some (VStr tag) ->
  tag <> "array" -> tag <> "record" -> tag <> "File" ->
  truthy (get_default dsink "not_connected" VNone) && strict = false ->
  can_assign_src_to_sink (VDict dsrc) (VDict dsink) strict = Ok true.
Proof.
  intros Hs Hk Ha Hr Hf Hm.
  rewrite can_assign_src_to_sink_eq. unfold can_assign_body.
  replace (is_str (VDict dsrc) "Any") with false by reflexivity.
  replace (is_str (VDict dsink) "Any") with false by reflexivity.
  cbn [orb]. rewrite Hm. unfold both_tagged, getitem. rewrite Hs, Hk.
  cbn [bind]. unfold is_str. cbn [py_eq].
  apply String.eqb_neq in Ha, Hr, Hf. rewrite Ha, Hr, Hf. cbn [bind].
  rewrite can_assign_strings, String.eqb_refl. now rewrite orb_true_r.
Qed.

Lemma same_tag_mappings_witness :
  dict_get More.colour "type" = Some (VStr "enum") /\
  dict_get More.shirt_size "type" = Some (VStr "enum") /\
  "enum" <> "array" /\ "enum" <> "record" /\ "enum" <> "File" /\
  truthy (get_default More.shirt_size "not_connected" VNone) && true = false /\
  can_assign_src_to_sink (VDict More.colour) (VDict More.shirt_size) true
  = Ok true.
Proof.
  assert (Ha : "enum" <> "array") by discriminate.
  assert (Hr : "enum" <> "record") by discriminate.
  assert (Hf : "enum" <> "File") by discriminate.
  repeat (split; [first [reflexivity | assumption]|]).
  apply (same_tag_mappings More.colour More.shirt_size "enum" true);
    first [reflexivity | assumption].
Defined.

(** The loop over the sink's secondary files, when the source's are a
    list. *)
Lemma secondary_files_loop_value (src : obj) (srcsfs sinksfs : list value)
  (strict : bool) :
  get_default src "secondaryFiles" (VList []) = VList srcsfs ->
  secondary_files_loop src sinksfs strict
  = Ok (negb strict ||
        forallb (fun sinksf => existsb (fun srcsf => py_eq sinksf srcsf) srcsfs)
          sinksfs).
Proof.
  intros Hsrc. induction sinksfs as [|sf rest IH]; simpl.
  - now rewrite orb_true_r.
  - rewrite Hsrc. simpl. rewrite IH.
    destruct (existsb _ srcsfs), strict; reflexivity.
Qed.

(** X5. [File] against [File]: in strict mode the source is assignable
    exactly when every secondary file of the sink is equal to one of the
    source; in non-strict mode it always is. A missing [secondaryFiles]
    counts as the empty list. *)
Theorem file_secondary_files (dsrc dsink : obj) (srcsfs sinksfs : list value)
  (strict : bool) :
  dict_get dsrc "type" = Some (VStr "File") ->
  dict_get dsink "type" = Some (VStr "File") ->
  get_default dsrc "secondaryFiles" (VList []) = VList srcsfs ->
  get_default dsink "secondaryFiles" (VList []) = VList sinksfs ->
  truthy (get_default dsink "not_connected" VNone) && strict = false ->
  can_assign_src_to_sink (VDict dsrc) (VDict dsink) strict
  = Ok (negb strict ||
        forallb (fun sinksf => existsb (fun srcsf => py_eq sinksf srcsf) srcsfs)
          sinksfs).
Proof.
  intros Hs Hk Hss Hks Hm.
  rewrite can_assign_src_to_sink_eq. unfold can_assign_body.
  replace (is_str (VDict dsrc) "Any") with false by reflexivity.
  replace (is_str (VDict dsink) "Any") with false by reflexivity.
  cbn [orb]. rewrite Hm. unfold both_tagged, getitem. rewrite Hs, Hk.
  cbn. rewrite Hks. cbn. now apply secondary_files_loop_value.
Qed.

Lemma file_secondary_files_witness :
  dict_get More.plain_file "type" = Some (VStr "File") /\
  dict_get More.indexed_file "type" = Some (VStr "File") /\
  get_default More.plain_file "secondaryFiles" (VList []) = VList [] /\
  get_default More.indexed_file "secondaryFiles" (VList [])
  = VList [More.index_pattern] /\
  truthy (get_default More.indexed_file "not_connected" VNone) && true = false /\
  can_assign_src_to_sink (VDict More.plain_file) (VDict More.indexed_file) true
  = Ok false.
Proof.
  repeat (split; [reflexivity|]).
  apply (file_secondary_files More.plain_file More.indexed_file []
           [More.index_pattern] true); reflexivity.
Defined.

Lemma any_of_pure (f : value -> result bool) (g : value -> bool)
  (l : list value) :
  (forall x, In x l -> f x = Ok (g x)) -> any_of f l = Ok (existsb g l).
Proof.
  induction l as [|x l IH]; intros H; simpl; [reflexivity|].
  rewrite (H x (or_introl eq_refl)). simpl.
  destruct (g x); [reflexivity|]. apply IH. intros y Hy. apply H. now right.
Qed.

(** X6. A type name against a union of type names, in either mode: the
    source is assignable exactly when it is [Any], or a member of the
    union is [Any] or equal to it. *)
Theorem primitive_into_union (a : string) (bs : list string) (strict : bool) :
  can_assign_src_to_sink (VStr a) (VList (map VStr bs)) strict
  = Ok (String.eqb a "Any" ||
        existsb (fun b => String.eqb b "Any" || String.eqb a b) bs).
Proof.
  rewrite can_assign_src_to_sink_eq. unfold can_assign_body.
  replace (is_str (VList (map VStr bs)) "Any") with false by reflexivity.
  rewrite orb_false_r. unfold is_str at 1. cbn [py_eq].
  destruct (String.eqb a "Any") eqn:Ha; [reflexivity|]. cbn [orb].
  rewrite (any_of_pure _ (fun s => match s with
                                   | VStr b => String.eqb b "Any" || String.eqb a b
                                   | _ => false end)).
  - f_equal. induction bs as [|b bs IH]; simpl; [reflexivity|]. now rewrite IH.
  - intros x Hx. apply in_map_iff in Hx as (b & <- & _).
    rewrite can_assign_strings, Ha. reflexivity.
Qed.

(* ================================================================= *)
(** ** Records *)

Lemma rec_fields_loop_keys (fields : list (string * type_expr)) (out out' : obj) :
  rec_fields_loop (map denote_field fields) out = Ok out' ->
  forall k v, In (k, v) out' ->
    In (k, v) out \/
    exists ft, In ft fields /\ k = shortname (fst ft) /\ v = denote (snd ft).
Proof.
  revert out. induction fields as [|ft rest IH]; simpl; intros out H k v Hk.
  - injection H as <-. now left.
  - destruct (IH _ H k v Hk) as [Hin|(ft' & Hft' & Hk' & Hv')].
    + apply dict_set_In in Hin as [[-> ->]|Hin]; [|now left].
      right. exists ft. auto.
    + right. exists ft'. auto.
Qed.

Lemma rec_fields_loop_untouched (fields : list (string * type_expr))
  (out out' : obj) (k : string) :
  rec_fields_loop (map denote_field fields) out = Ok out' ->
  ~ In k (short_names fields) ->
  dict_get out' k = dict_get out k.
Proof.
  unfold short_names.
  revert out. induction fields as [|ft rest IH]; simpl; intros out H Hk.
  - now injection H as <-.
  - rewrite (IH _ H) by tauto. apply dict_get_set_other.
    intros E. apply Hk. left. now rewrite E.
Qed.

Lemma rec_fields_loop_lookup (fields : list (string * type_expr))
  (out out' : obj) :
  rec_fields_loop (map denote_field fields) out = Ok out' ->
  NoDup (short_names fields) ->
  forall ft, In ft fields ->
             dict_get out' (shortname (fst ft)) = Some (denote (snd ft)).
Proof.
  unfold short_names.
  revert out. induction fields as [|ft0 rest IH]; simpl; intros out H Hnd ft Hft;
    [destruct Hft|].
  inversion Hnd as [|? ? Hnot Hnd']; subst.
  destruct Hft as [->|Hft].
  - rewrite (rec_fields_loop_untouched _ _ _ _ H Hnot).
    apply dict_get_set_same.
  - eapply IH; eauto.
Qed.

Lemma compare_fields_all (f : value -> value -> bool -> result bool)
  (src sink srcfields sinkfields : obj) (keys : list (string * value))
  (strict : bool) :
  (forall k v, In (k, v) keys ->
     f (get_default srcfields k (VStr "null"))
       (get_default sinkfields k (VStr "null")) strict = Ok true) ->
  compare_fields f src sink srcfields sinkfields keys strict = Ok true.
Proof.
  induction keys as [|[key v] rest IH]; intros H; simpl; [reflexivity|].
  rewrite (H key v (or_introl eq_refl)). simpl.
  apply IH. intros k w Hk. apply (H k w). now right.
Qed.

(** X7. Width subtyping of records: a record whose fields have distinct
    short names is assignable to every record made of some of its fields
    (in any order, under any record name), provided each kept field type
    is assignable to itself in the mode of the call. Fields the sink does
    not name are not looked at. *)
Theorem record_width (n n' : string) (fs fs' : list (string * type_expr))
  (strict : bool) :
  NoDup (short_names fs) ->
  incl fs' fs ->
  (forall ft, In ft fs' ->
     can_assign_src_to_sink (denote (snd ft)) (denote (snd ft)) strict
     = Ok true) ->
  can_assign_src_to_sink (denote (TRecord n fs)) (denote (TRecord n' fs')) strict
  = Ok true.
Proof.
  intros Hnd Hincl Hrefl.
  rewrite can_assign_src_to_sink_eq.
  unfold can_assign_body. cbn. unfold _compare_records, _rec_fields. cbn.
  destruct (rec_fields_loop_denote fs []) as (o1 & H1 & _).
  destruct (rec_fields_loop_denote fs' []) as (o2 & H2 & _).
  unfold denote_field in H1, H2. rewrite H1, H2. cbn [bind].
  apply compare_fields_all. intros k v Hk.
  destruct (In_dict_get _ _ _ Hk) as [w Hw].
  unfold get_default at 2. rewrite Hw.
  destruct (rec_fields_loop_keys _ _ _ H2 k w (dict_get_In _ _ _ Hw))
    as [[]|(ft & Hft & -> & ->)].
  unfold get_default.
  rewrite (rec_fields_loop_lookup _ _ _ H1 Hnd ft (Hincl _ Hft)).
  now apply Hrefl.
Qed.

Lemma record_width_witness :
  NoDup (short_names More.loose_fields) /\
  incl More.loose_kept More.loose_fields /\
  (forall ft, In ft More.loose_kept ->
     can_assign_src_to_sink (denote (snd ft)) (denote (snd ft)) true
     = Ok true) /\
  nested_unions_inhabited More.loose_type = false /\
  can_assign_src_to_sink (denote (TRecord "r" More.loose_fields))
    (denote (TRecord "s" More.loose_kept)) true = Ok true.
Proof.
  assert (Hnd : NoDup (short_names More.loose_fields)).
  { vm_compute. repeat constructor; simpl; intuition discriminate. }
  assert (Hincl : incl More.loose_kept More.loose_fields).
  { intros ft [<-|[]]. simpl. auto. }
  assert (Hrefl : forall ft, In ft More.loose_kept ->
            can_assign_src_to_sink (denote (snd ft)) (denote (snd ft)) true
            = Ok true).
  { intros ft [<-|[]]. reflexivity. }
  repeat (split; [first [assumption | reflexivity]|]).
  apply (record_width "r" "s" More.loose_fields More.loose_kept true);
    assumption.
Defined.

(** X8. Depth and width subtyping of records: a record whose fields have
    distinct short names is assignable to a record each of whose fields
    has, under the same short name, a field of the source whose type is
    assignable to its own in the mode of the call. The names of the two
    records and the order of their fields do not count. *)
Theorem record_fieldwise (n n' : string) (fs fs' : list (string * type_expr))
  (strict : bool) :
  NoDup (short_names fs) ->
  (forall ft', In ft' fs' ->
     exists ft, In ft fs /\ shortname (fst ft) = shortname (fst ft') /\
                can_assign_src_to_sink (denote (snd ft)) (denote (snd ft')) strict
                = Ok true) ->
  can_assign_src_to_sink (denote (TRecord n fs)) (denote (TRecord n' fs')) strict
  = Ok true.
Proof.
  intros Hnd Hfields.
  rewrite can_assign_src_to_sink_eq.
  unfold can_assign_body. cbn. unfold _compare_records, _rec_fields. cbn.
  destruct (rec_fields_loop_denote fs []) as (o1 & H1 & _).
  destruct (rec_fields_loop_denote fs' []) as (o2 & H2 & _).
  unfold denote_field in H1, H2. rewrite H1, H2. cbn [bind].
  apply compare_fields_all. intros k v Hk.
  destruct (In_dict_get _ _ _ Hk) as [w Hw].
  unfold get_default at 2. rewrite Hw.
  destruct (rec_fields_loop_keys _ _ _ H2 k w (dict_get_In _ _ _ Hw))
    as [[]|(ft' & Hft' & -> & ->)].
  destruct (Hfields ft' Hft') as (ft & Hft & Hname & Hok).
  unfold get_default.
  rewrite <- Hname, (rec_fields_loop_lookup _ _ _ H1 Hnd ft Hft).
  exact Hok.
Qed.

Lemma record_fieldwise_witness :
  NoDup (short_names More.wide_fields) /\
  (forall ft', In ft' More.any_fields ->
     exists ft, In ft More.wide_fields /\
                shortname (fst ft) = shortname (fst ft') /\
                can_assign_src_to_sink (denote (snd ft)) (denote (snd ft')) true
                = Ok true) /\
  can_assign_src_to_sink (denote (TRecord "r" More.wide_fields))
    (denote (TRecord "s" More.any_fields)) true = Ok true.
Proof.
  assert (Hnd : NoDup (short_names More.wide_fields)).
  { vm_compute. repeat constructor; simpl; intuition discriminate. }
  assert (Hfields : forall ft', In ft' More.any_fields ->
     exists ft, In ft More.wide_fields /\
                shortname (fst ft) = shortname (fst ft') /\
                can_assign_src_to_sink (denote (snd ft)) (denote (snd ft')) true
                = Ok true).
  { intros ft' [<-|[]]. exists ("file:///wf.cwl#r/a", TPrim "int").
    split; [now left|]. split; reflexivity. }
  split; [exact Hnd|]. split; [exact Hfields|].
  apply (record_fieldwise "r" "s" More.wide_fields More.any_fields true);
    assumption.
Defined.

Lemma denote_not_None (t : type_expr) : denote t <> VNone.
Proof. destruct t; discriminate. Qed.

(** The loop of [_compare_records] rejects as soon as one field of the sink
    is refused and is not [None] in the sink. *)
Lemma compare_fields_rejects (f : value -> value -> bool -> result bool)
  (src sink srcfields sinkfields : obj) (keys : list (string * value))
  (strict : bool) (ns nk : value) :
  dict_get src "name" = Some ns ->
  dict_get sink "name" = Some nk ->
  (forall k v, In (k, v) keys ->
     exists b, f (get_default srcfields k (VStr "null"))
                 (get_default sinkfields k (VStr "null")) strict = Ok b) ->
  (exists k v w, In (k, v) keys /\
     f (get_default srcfields k (VStr "null"))
       (get_default sinkfields k (VStr "null")) strict = Ok false /\
     dict_get sinkfields k = Some w /\ w <> VNone) ->
  compare_fields f src sink srcfields sinkfields keys strict = Ok false.
Proof.
  intros Hns Hnk. induction keys as [|[key v0] rest IH]; intros Htot Hbad.
  - destruct Hbad as (k & v & w & [] & _).
  - simpl. destruct (Htot key v0 (or_introl eq_refl)) as [b Hb]. rewrite Hb.
    cbn [bind]. unfold getitem. rewrite Hns, Hnk. cbn [bind].
    destruct b; cbn [negb andb].
    + apply IH.
      * intros k v Hk. apply (Htot k v). now right.
      * destruct Hbad as (k & v & w & [Heq|Hin] & Hf & Hw & Hne).
        -- injection Heq as <- <-. rewrite Hb in Hf. discriminate.
        -- exists k, v, w. auto.
    + destruct (dict_get sinkfields key) as [w|] eqn:Hw.
      * destruct w; try reflexivity.
        apply IH.
        -- intros k v Hk. apply (Htot k v). now right.
        -- destruct Hbad as (k & v & w & [Heq|Hin] & Hf & Hw' & Hne).
           ++ injection Heq as <- <-. rewrite Hw in Hw'. injection Hw' as <-.
              now elim Hne.
           ++ exists k, v, w. auto.
      * apply IH.
        -- intros k v Hk. apply (Htot k v). now right.
        -- destruct Hbad as (k & v & w & [Heq|Hin] & Hf & Hw' & Hne).
           ++ injection Heq as <- <-. rewrite Hw in Hw'. discriminate.
           ++ exists k, v, w. auto.
Qed.

Lemma rec_fields_default (fields : list (string * type_expr)) (o : obj)
  (k : string) :
  rec_fields_loop (map denote_field fields) [] = Ok o ->
  exists t, get_default o k (VStr "null") = denote t.
Proof.
  intros H. unfold get_default. destruct (dict_get o k) as [w|] eqn:Hw.
  - destruct (rec_fields_loop_keys _ _ _ H k w (dict_get_In _ _ _ Hw))
      as [[]|(ft & _ & _ & ->)]. eauto.
  - now exists (TPrim "null").
Qed.

(** X9. A record is refused, in either mode, by a record that has a field
    of a primitive type other than [Any] and [null] which the source has
    no field for: the missing field is read as [null]. *)
Theorem record_missing_field (n n' : string)
  (fs fs' : list (string * type_expr)) (ft : string * type_expr) (p : string)
  (strict : bool) :
  NoDup (short_names fs') ->
  In ft fs' -> snd ft = TPrim p -> p <> "Any" -> p <> "null" ->
  ~ In (shortname (fst ft)) (short_names fs) ->
  can_assign_src_to_sink (denote (TRecord n fs)) (denote (TRecord n' fs')) strict
  = Ok false.
Proof.
  intros Hnd Hft Hp HAny Hnull Hmiss.
  rewrite can_assign_src_to_sink_eq.
  unfold can_assign_body. cbn. unfold _compare_records, _rec_fields. cbn.
  destruct (rec_fields_loop_denote fs []) as (o1 & H1 & _).
  destruct (rec_fields_loop_denote fs' []) as (o2 & H2 & _).
  pose proof H1 as H1'. pose proof H2 as H2'.
  unfold denote_field in H1', H2'. rewrite H1', H2'. cbn [bind].
  eapply compare_fields_rejects; try reflexivity.
  - intros k v _.
    destruct (rec_fields_default fs o1 k H1) as [s ->].
    destruct (rec_fields_default fs' o2 k H2) as [t ->].
    apply can_assign_well_formed_total.
  - pose proof (rec_fields_loop_lookup _ _ _ H2 Hnd ft Hft) as Hk.
    exists (shortname (fst ft)), (denote (snd ft)), (denote (snd ft)).
    split; [now apply dict_get_In|].
    split; [|split; [exact Hk|apply denote_not_None]].
    unfold get_default. rewrite Hk.
    rewrite (rec_fields_loop_untouched _ _ _ _ H1 Hmiss). simpl.
    rewrite Hp. cbn [denote]. rewrite can_assign_strings.
    apply String.eqb_neq in HAny, Hnull.
    rewrite HAny, (String.eqb_sym "null" p), Hnull. reflexivity.
Qed.

Lemma record_missing_field_witness :
  NoDup (short_names More.wide_fields) /\
  In ("file:///wf.cwl#r/a", TPrim "int") More.wide_fields /\
  snd ("file:///wf.cwl#r/a", TPrim "int") = TPrim "int" /\
  "int" <> "Any" /\ "int" <> "null" /\
  ~ In (shortname (fst ("file:///wf.cwl#r/a", TPrim "int")))
       (short_names More.narrow_fields) /\
  can_assign_src_to_sink (denote (TRecord "s" More.narrow_fields))
    (denote (TRecord "r" More.wide_fields)) false = Ok false.
Proof.
  assert (Hnd : NoDup (short_names More.wide_fields)).
  { vm_compute. repeat constructor; simpl; intuition discriminate. }
  assert (Hin : In ("file:///wf.cwl#r/a", TPrim "int") More.wide_fields).
  { now left. }
  assert (HAny : "int" <> "Any") by discriminate.
  assert (Hnull : "int" <> "null") by discriminate.
  assert (Hmiss : ~ In (shortname (fst ("file:///wf.cwl#r/a", TPrim "int")))
                       (short_names More.narrow_fields)).
  { vm_compute. intuition discriminate. }
  repeat (split; [first [assumption | reflexivity]|]).
  apply (record_missing_field "s" "r" More.narrow_fields More.wide_fields
           ("file:///wf.cwl#r/a", TPrim "int") "int" false);
    first [assumption | reflexivity].
Defined.

(* ================================================================= *)
(** ** The type normaliser and the link-merge adapter *)

Lemma value_size_ind (P : value -> Prop) :
  (forall v, (forall w, size w < size v -> P w) -> P v) -> forall v, P v.
Proof.
  intros H v. remember (size v) as n eqn:Hn.
  revert v Hn. induction n as [n IH] using (well_founded_induction lt_wf).
  intros v ->. apply H. intros w Hw. now apply (IH (size w)).
Qed.

Lemma merge_flatten_shaped (v : value) :
  array_shaped (merge_flatten_type v) = true.
Proof.
  induction v as [v IH] using value_size_ind.
  destruct v; try reflexivity.
  - simpl. rewrite forallb_forall. intros x Hx.
    apply in_map_iff in Hx as (w & <- & Hw). apply IH. now apply In_size.
  - simpl. destruct (is_str (get_default d "type" VNone) "array") eqn:E.
    + simpl. exact E.
    + reflexivity.
Qed.

(** X10. [merge_flatten_type] leaves a value as it is exactly when the
    value is an array type or a list, nested to any depth, of array
    types. *)
Theorem merge_flatten_fixed_iff (v : value) :
  merge_flatten_type v = v <-> array_shaped v = true.
Proof.
  split.
  - intros <-. apply merge_flatten_shaped.
  - induction v as [v IH] using value_size_ind.
    destruct v; try discriminate.
    + simpl. intros H. f_equal. rewrite forallb_forall in H.
      assert (Hall : forall x, In x l -> merge_flatten_type x = x).
      { intros x Hx. apply IH; [now apply In_size|auto]. }
      clear IH H. induction l as [|x l IHl]; simpl; [reflexivity|].
      rewrite (Hall x (or_introl eq_refl)). f_equal.
      apply IHl. intros y Hy. apply Hall. now right.
    + simpl. intros ->. reflexivity.
Qed.

(** X11. [merge_flatten_type] is idempotent: flattening a flattened type
    wraps nothing a second time. *)
Theorem merge_flatten_idempotent (v : value) :
  merge_flatten_type (merge_flatten_type v) = merge_flatten_type v.
Proof.
  induction v as [v IH] using value_size_ind.
  destruct v; try reflexivity.
  - simpl. f_equal. rewrite map_map. apply map_ext_in.
    intros x Hx. apply IH. now apply In_size.
  - simpl. destruct (is_str (get_default d "type" VNone) "array") eqn:E.
    + simpl. now rewrite E.
    + reflexivity.
Qed.

(** X12. [_get_type] fails on one kind of input only, a mapping without a
    [type] key, and the failure is the [KeyError] of that key. *)
Theorem get_type_raises (tp : value) (e : exn) :
  _get_type tp = Raise e <->
  exists d, tp = VDict d /\ dict_get d "type" = None /\ e = KeyError "type".
Proof.
  split.
  - destruct tp; try discriminate. unfold _get_type, getitem, get_default.
    destruct (dict_get d "type") as [t|] eqn:E.
    + destruct (negb _); discriminate.
    + simpl. intros [= <-]. eauto.
  - intros (d & -> & H & ->). unfold _get_type, getitem, get_default.
    rewrite H. reflexivity.
Qed.

(** Array against array: the item types decide. *)
Lemma can_assign_arrays (dsrc dsink : obj) (si ki : value) (strict : bool) :
  dict_get dsrc "type" = Some (VStr "array") ->
  dict_get dsink "type" = Some (VStr "array") ->
  dict_get dsrc "items" = Some si ->
  dict_get dsink "items" = Some ki ->
  truthy (get_default dsink "not_connected" VNone) && strict = false ->
  can_assign_src_to_sink (VDict dsrc) (VDict dsink) strict
  = can_assign_src_to_sink si ki strict.
Proof.
  intros Hs Hk Hsi Hki Hm.
  rewrite can_assign_src_to_sink_eq. unfold can_assign_body.
  replace (is_str (VDict dsrc) "Any") with false by reflexivity.
  replace (is_str (VDict dsink) "Any") with false by reflexivity.
  cbn [orb]. rewrite Hm. unfold both_tagged, getitem.
  rewrite Hs, Hk, Hsi, Hki. reflexivity.
Qed.

(** X13. A [merge_nested] link into a connected sink of an array type is
    judged as the plain link of the source's type into the items of the
    sink. *)
Theorem merge_nested_array_sink (py_repr : string -> string)
  (srctype st ki : value) (dsink : obj) :
  _get_type srctype = Ok st ->
  dict_get dsink "type" = Some (VStr "array") ->
  dict_get dsink "items" = Some ki ->
  truthy (get_default dsink "not_connected" VNone) = false ->
  check_types py_repr srctype (VDict dsink) (Some "merge_nested") None
  = check_types_plain st ki.
Proof.
  intros Hst Hk Hki Hm. unfold check_types.
  simpl String.eqb. cbv iota. rewrite Hst. cbn [bind].
  unfold _get_type, get_default. rewrite Hk. cbn [bind is_str py_eq].
  simpl. unfold check_types_plain.
  rewrite !(can_assign_arrays _ dsink st ki); try reflexivity; try assumption.
  - now rewrite Hm.
  - now rewrite Hm.
Qed.

Lemma merge_nested_array_sink_witness :
  _get_type (VStr "int") = Ok (VStr "int") /\
  dict_get More.int_array "type" = Some (VStr "array") /\
  dict_get More.int_array "items" = Some (VStr "int") /\
  truthy (get_default More.int_array "not_connected" VNone) = false /\
  check_types plain_repr (VStr "int") (VDict More.int_array)
    (Some "merge_nested") None
  = check_types_plain (VStr "int") (VStr "int").
Proof.
  repeat (split; [reflexivity|]).
  apply (merge_nested_array_sink plain_repr (VStr "int") (VStr "int")
           (VStr "int") More.int_array); reflexivity.
Defined.

Lemma existsb_never {A} (l : list A) : existsb (fun _ => false) l = false.
Proof. induction l; simpl; auto. Qed.

(** No array-shaped value goes into a type name other than [Any]. *)
Lemma array_shaped_refused (p : string) (v : value) :
  p <> "Any" -> array_shaped v = true ->
  can_assign_src_to_sink v (VStr p) false = Ok false.
Proof.
  intros Hp. apply String.eqb_neq in Hp.
  induction v as [v IH] using value_size_ind.
  destruct v; try discriminate; intros Hv.
  - rewrite can_assign_src_to_sink_eq. unfold can_assign_body.
    unfold is_str. cbn [py_eq orb]. rewrite Hp.
    rewrite (any_of_pure _ (fun _ => false)); [now rewrite existsb_never|].
    intros x Hx. simpl in Hv. rewrite forallb_forall in Hv.
    destruct (negb _); [|reflexivity].
    apply IH; [now apply In_size|auto].
  - rewrite can_assign_src_to_sink_eq. unfold can_assign_body.
    unfold is_str. cbn [py_eq orb]. rewrite Hp. reflexivity.
Qed.

Lemma array_shaped_exception (p : string) (v : value) :
  p <> "Any" -> array_shaped v = true -> v <> VList [] ->
  check_types_plain v (VStr p) = Ok Exception.
Proof.
  intros Hp Hv Hne. unfold check_types_plain.
  rewrite (array_shaped_refused p v Hp Hv).
  assert (Hs : can_assign_src_to_sink v (VStr p) true = Ok false).
  { pose proof Hp as Hp'. apply String.eqb_neq in Hp'.
    destruct v; try discriminate.
    - destruct l as [|x l]; [now elim Hne|].
      rewrite can_assign_src_to_sink_eq. unfold can_assign_body.
      unfold is_str. cbn [py_eq orb]. rewrite Hp'. cbn [all_of].
      simpl in Hv. apply andb_prop in Hv as [Hx _].
      now rewrite (array_shaped_refused p x Hp Hx).
    - rewrite can_assign_src_to_sink_eq. unfold can_assign_body.
      unfold is_str. cbn [py_eq orb]. rewrite Hp'. reflexivity. }
  rewrite Hs. reflexivity.
Qed.

(** X14. A sink whose type is a type name other than [Any] takes no merged
    link: with [merge_nested], and with [merge_flattened] unless the
    source's type is the empty list, [check_types] answers [exception]
    whatever the source's type is. *)
Theorem link_merge_primitive_sink (py_repr : string -> string)
  (srctype st : value) (p lm : string) :
  lm = "merge_nested" \/ (lm = "merge_flattened" /\ st <> VList []) ->
  _get_type srctype = Ok st ->
  p <> "Any" ->
  check_types py_repr srctype (VStr p) (Some lm) None = Ok Exception.
Proof.
  intros Hlm Hst Hp. unfold check_types.
  destruct Hlm as [->|[-> Hne]].
  - simpl String.eqb. cbv iota. rewrite Hst. cbn [bind _get_type].
    apply array_shaped_exception; [exact Hp|reflexivity|discriminate].
  - simpl String.eqb. cbv iota. rewrite Hst. cbn [bind _get_type].
    apply array_shaped_exception; [exact Hp|apply merge_flatten_shaped|].
    destruct st; try discriminate.
    + destruct l; [now elim Hne|discriminate].
    + simpl. destruct (is_str _ _); discriminate.
Qed.

Lemma link_merge_primitive_sink_witness :
  ("merge_flattened" = "merge_nested" \/
   ("merge_flattened" = "merge_flattened" /\ VStr "int" <> VList [])) /\
  _get_type (VStr "int") = Ok (VStr "int") /\
  "int" <> "Any" /\
  check_types plain_repr (VStr "int") (VStr "int") (Some "merge_flattened") None
  = Ok Exception.
Proof.
  assert (Hlm : "merge_flattened" = "merge_nested" \/
                ("merge_flattened" = "merge_flattened" /\
                 VStr "int" <> VList [])).
  { right. split; [reflexivity|discriminate]. }
  assert (Hp : "int" <> "Any") by discriminate.
  repeat (split; [first [assumption | reflexivity]|]).
  apply (link_merge_primitive_sink plain_repr (VStr "int") (VStr "int") "int"
           "merge_flattened"); first [assumption | reflexivity].
Defined.

(* ================================================================= *)
(** ** The edge enumerator and the store of source parameters *)

Lemma dict_set_keys {A} (d : list (string * A)) (k : string) (x v : A) :
  dict_get d k = Some x -> map fst (dict_set d k v) = map fst d.
Proof.
  induction d as [|[k' v'] d IH]; simpl; [discriminate|].
  destruct (String.eqb_spec k k') as [->|Hne]; simpl; [reflexivity|].
  intros H. now rewrite IH.
Qed.

Lemma same_keys_get {A} (a b : list (string * A)) (k : string) (x : A) :
  map fst a = map fst b -> dict_get a k = Some x ->
  exists y, dict_get b k = Some y.
Proof.
  intros Hk Hx. apply dict_get_In in Hx. apply (in_map fst) in Hx. simpl in Hx.
  rewrite Hk in Hx. apply keys_dict_has in Hx. unfold dict_has in Hx.
  destruct (dict_get b k); [eauto|discriminate].
Qed.

Lemma same_keys_has {A} (a b : list (string * A)) (k : string) :
  map fst a = map fst b -> dict_has a k = dict_has b k.
Proof.
  intros Hk. unfold dict_has.
  destruct (dict_get a k) as [x|] eqn:Ha.
  - destruct (same_keys_get a b k x Hk Ha) as [y ->]. reflexivity.
  - destruct (dict_get b k) as [y|] eqn:Hb; [|reflexivity].
    destruct (same_keys_get b a k y (eq_sym Hk) Hb) as [x Hx]. congruence.
Qed.

Lemma same_but_types_refl (a : store) : same_but_types a a.
Proof. split; [reflexivity|]. intros id o o' k H H' _. congruence. Qed.

Lemma same_but_types_trans (a b c : store) :
  same_but_types a b -> same_but_types b c -> same_but_types a c.
Proof.
  intros [Hk1 H1] [Hk2 H2]. split; [congruence|].
  intros id o o'' k Ha Hc Hne.
  destruct (same_keys_get a b id o Hk1 Ha) as [o' Hb].
  rewrite (H2 id o' o'' k Hb Hc Hne). now apply (H1 id o o' k).
Qed.

Lemma set_type_frame (src_dict src_dict' : store) (parm_id : string)
  (v : value) :
  set_type src_dict parm_id v = Ok src_dict' ->
  same_but_types src_dict src_dict'.
Proof.
  unfold set_type. intros H. apply bind_Ok in H as (o & Ho & [= <-]).
  apply getitem_Ok in Ho. split.
  - symmetry. now apply (dict_set_keys _ _ o).
  - intros id o0 o0' k H0 H0' Hne.
    destruct (String.eqb_spec id parm_id) as [->|Hid].
    + rewrite dict_get_set_same in H0'. injection H0' as <-.
      rewrite Ho in H0. injection H0 as <-.
      now apply dict_get_set_other.
    + rewrite dict_get_set_other in H0' by exact Hid. congruence.
Qed.

Lemma promote_loop_frame (param_to_step : list (string * obj))
  (src_dict src_dict' : store) (parm_id : string) :
  promote_loop param_to_step src_dict parm_id = Ok src_dict' ->
  same_but_types src_dict src_dict'.
Proof.
  unfold promote_loop. destruct (is_all_output_method_loop_step _ _).
  - intros H. apply bind_Ok in H as (o & _ & H).
    apply bind_Ok in H as (t & _ & H). now apply set_type_frame in H.
  - intros [= <-]. apply same_but_types_refl.
Qed.

Lemma well_addressed_store (sinks : list obj) (a b : store) (v : validation) :
  same_but_types a b -> well_addressed sinks a v -> well_addressed sinks b v.
Proof.
  intros [Hk _] H w Hw. destruct (H w Hw) as [Hs Hi]. split; [|exact Hi].
  now rewrite <- (same_keys_has a b _ Hk).
Qed.

Lemma well_addressed_warning (sinks : list obj) (a : store) (v : validation)
  (w : SrcSink.t) :
  well_addressed sinks a v ->
  dict_has a (SrcSink.src w) = true -> In (SrcSink.sink w) sinks ->
  well_addressed sinks a (add_warning v w).
Proof.
  intros H Hs Hi x Hx. unfold add_warning in Hx. simpl in Hx.
  rewrite <- app_assoc in Hx. apply in_app_or in Hx as [Hx|Hx].
  - apply H. apply in_or_app. now left.
  - simpl in Hx. destruct Hx as [<-|Hx]; [now split|].
    apply H. apply in_or_app. now right.
Qed.

Lemma well_addressed_exception (sinks : list obj) (a : store) (v : validation)
  (w : SrcSink.t) :
  well_addressed sinks a v ->
  dict_has a (SrcSink.src w) = true -> In (SrcSink.sink w) sinks ->
  well_addressed sinks a (add_exception v w).
Proof.
  intros H Hs Hi x Hx. unfold add_exception in Hx. simpl in Hx.
  rewrite app_assoc in Hx. apply in_app_or in Hx as [Hx|Hx].
  - now apply H.
  - simpl in Hx. destruct Hx as [<-|[]]. now split.
Qed.

Lemma getitem_has {A} (d : list (string * A)) (k : string) (x : A) :
  getitem d k = Ok x -> dict_has d k = true.
Proof. intros H. apply getitem_Ok in H. unfold dict_has. now rewrite H. Qed.

Section Frame.

Variable makeError : value -> option string -> string -> string.
Variable py_repr : string -> string.
Variable param_to_step : list (string * obj).
Variable sinks : list obj.

Lemma visit_source_frame (sink : obj) (linkMerge pickValue : option string)
  (st st' : store * validation * list string) (parm_id : value) :
  In sink sinks ->
  visit_source param_to_step sink linkMerge pickValue st parm_id = Ok st' ->
  same_but_types (fst (fst st)) (fst (fst st')) /\
  exception (snd (fst st')) = exception (snd (fst st)) /\
  (well_addressed sinks (fst (fst st)) (snd (fst st)) ->
   well_addressed sinks (fst (fst st')) (snd (fst st'))) /\
  (Forall (fun id => dict_has (fst (fst st)) id = true) (snd st) ->
   Forall (fun id => dict_has (fst (fst st')) id = true) (snd st')).
Proof.
  destruct st as [[sd v] srcs]. intros Hsink H. unfold visit_source in H.
  apply bind_Ok in H as (id & Hid & H).
  apply bind_Ok in H as (o & Ho & H).
  apply bind_Ok in H as (sd' & Hsd' & [= <-]). simpl.
  pose proof (promote_loop_frame _ _ _ _ Hsd') as Hf.
  apply getitem_has in Ho.
  split; [exact Hf|]. split; [|split].
  - destruct (_ && _); reflexivity.
  - intros Hv. apply (well_addressed_store sinks sd sd' _ Hf).
    destruct (_ && _); [|exact Hv].
    now apply well_addressed_warning.
  - intros Hs. rewrite Forall_app. split.
    + eapply Forall_impl; [|exact Hs]. intros a Ha.
      now rewrite <- (same_keys_has sd sd' a (proj1 Hf)).
    + constructor; [|constructor].
      now rewrite <- (same_keys_has sd sd' id (proj1 Hf)).
Qed.

Lemma visit_sources_frame (sink : obj) (linkMerge pickValue : option string)
  (ids : list value) (st st' : store * validation * list string) :
  In sink sinks ->
  visit_sources param_to_step sink linkMerge pickValue ids st = Ok st' ->
  same_but_types (fst (fst st)) (fst (fst st')) /\
  exception (snd (fst st')) = exception (snd (fst st)) /\
  (well_addressed sinks (fst (fst st)) (snd (fst st)) ->
   well_addressed sinks (fst (fst st')) (snd (fst st'))) /\
  (Forall (fun id => dict_has (fst (fst st)) id = true) (snd st) ->
   Forall (fun id => dict_has (fst (fst st')) id = true) (snd st')).
Proof.
  intros Hsink. revert st. induction ids as [|id rest IH]; simpl; intros st H.
  - injection H as <-. split; [apply same_but_types_refl|]. auto.
  - apply bind_Ok in H as (st1 & H1 & H).
    destruct (visit_source_frame _ _ _ _ _ _ Hsink H1) as (F1 & E1 & W1 & S1).
    destruct (IH _ H) as (F2 & E2 & W2 & S2).
    split; [eapply same_but_types_trans; eauto|].
    split; [congruence|]. split; auto.
Qed.

Lemma promote_conditional_frame (sink : obj) (src_dict src_dict' : store)
  (v v' : validation) (parm_id : string) :
  In sink sinks -> dict_has src_dict parm_id = true ->
  promote_conditional param_to_step sink src_dict v parm_id
  = Ok (src_dict', v') ->
  same_but_types src_dict src_dict' /\
  exception v' = exception v /\
  (well_addressed sinks src_dict v -> well_addressed sinks src_dict' v').
Proof.
  intros Hsink Hhas. unfold promote_conditional.
  destruct (is_conditional_step _ _).
  - intros H. apply bind_Ok in H as (o & Ho & H).
    apply bind_Ok in H as (t & Ht & H).
    apply bind_Ok in H as (snk & Hsnk & H).
    apply bind_Ok in H as (b & Hb & H).
    apply bind_Ok in H as (sd' & Hsd' & [= <- <-]).
    pose proof (set_type_frame _ _ _ _ Hsd') as Hf.
    split; [exact Hf|]. split.
    + destruct (negb b); reflexivity.
    + intros Hv. apply (well_addressed_store sinks src_dict sd' _ Hf).
      destruct (negb b); [|exact Hv]. now apply well_addressed_warning.
  - intros [= <- <-]. split; [apply same_but_types_refl|]. auto.
Qed.

Lemma sources_of_sink_frame (sourceField : string) (sink : obj)
  (source : value) (pickValue : option string) (src_dict src_dict' : store)
  (v v' : validation) (srcs : list string) (linkMerge : option string) :
  In sink sinks ->
  sources_of_sink makeError param_to_step sourceField sink source pickValue
    src_dict v = Ok (src_dict', v', srcs, linkMerge) ->
  same_but_types src_dict src_dict' /\
  exception v' = exception v /\
  (well_addressed sinks src_dict v -> well_addressed sinks src_dict' v') /\
  Forall (fun id => dict_has src_dict' id = true) srcs.
Proof.
  intros Hsink. unfold sources_of_sink.
  assert (Hsingle :
    (parm_id <- cast_str source ;;
     if negb (dict_has src_dict parm_id) then
       Raise (ValidationException
                (makeError (VDict sink) (Some sourceField)
                   (sourceField ++ " not found: " ++ parm_id)%string))
     else
       let v :=
         match pickValue with
         | Some _ =>
             add_warning v
               (SrcSink.mk parm_id sink None
                  (Some "pickValue is used but only a single input source is declared"))
         | None => v
         end in
       r <- promote_conditional param_to_step sink src_dict v parm_id ;;
       let '(src_dict, v) := r in
       src_dict <- promote_loop param_to_step src_dict parm_id ;;
       Ok (src_dict, v, [parm_id], None))
    = Ok (src_dict', v', srcs, linkMerge) ->
    same_but_types src_dict src_dict' /\
    exception v' = exception v /\
    (well_addressed sinks src_dict v -> well_addressed sinks src_dict' v') /\
    Forall (fun id => dict_has src_dict' id = true) srcs).
  { intros H. apply bind_Ok in H as (id & _ & H).
    destruct (dict_has src_dict id) eqn:Hhas; [|discriminate]. cbn [negb] in H.
    apply bind_Ok in H as ([sd1 v1] & H1 & H).
    apply bind_Ok in H as (sd2 & H2 & [= <- <- <- <-]).
    destruct (promote_conditional_frame _ _ _ _ _ _ Hsink Hhas H1)
      as (F1 & E1 & W1).
    pose proof (promote_loop_frame _ _ _ _ H2) as F2.
    pose proof (same_but_types_trans _ _ _ F1 F2) as F.
    split; [exact F|]. split; [|split].
    - rewrite E1. destruct pickValue; reflexivity.
    - intros Hv. apply (well_addressed_store sinks sd1 sd2 _ F2). apply W1.
      destruct pickValue; [|exact Hv]. now apply well_addressed_warning.
    - constructor; [|constructor].
      now rewrite <- (same_keys_has src_dict sd2 id (proj1 F)). }
  destruct source; try exact Hsingle.
  intros H. apply bind_Ok in H as (lm & _ & H).
  apply bind_Ok in H as ([[sd1 v1] srcs1] & H1 & [= <- <- <- <-]).
  destruct (visit_sources_frame _ _ _ _ _ _ Hsink H1) as (F & E & W & S).
  simpl in *. split; [exact F|]. split; [exact E|]. split; [exact W|].
  apply S. constructor.
Qed.

Lemma check_sources_frame (src_dict : store) (sink : obj)
  (linkMerge valueFrom extra_message : option string)
  (srcs : list string) (v v' : validation) :
  In sink sinks ->
  check_sources py_repr src_dict sink linkMerge valueFrom extra_message srcs v
  = Ok v' ->
  (well_addressed sinks src_dict v -> well_addressed sinks src_dict v') /\
  (valueFrom <> None -> v' = v).
Proof.
  intros Hsink. revert v. induction srcs as [|id rest IH]; simpl; intros v H.
  - injection H as <-. auto.
  - apply bind_Ok in H as (o & Ho & H).
    apply bind_Ok in H as (r & Hr & H).
    apply getitem_has in Ho.
    destruct (IH _ H) as [W E]. split.
    + intros Hv. apply W. destruct r; [exact Hv| |].
      * now apply well_addressed_warning.
      * now apply well_addressed_exception.
    + intros Hvf. rewrite (E Hvf).
      unfold check_types in Hr. destruct valueFrom; [|now elim Hvf].
      now injection Hr as <-.
Qed.

Lemma check_sink_frame (sourceField : string) (src_dict src_dict' : store)
  (v v' : validation) (sink : obj) :
  In sink sinks ->
  check_sink makeError py_repr param_to_step sourceField src_dict v sink
  = Ok (src_dict', v') ->
  same_but_types src_dict src_dict' /\
  (well_addressed sinks src_dict v -> well_addressed sinks src_dict' v') /\
  ((exists e, dict_get sink "valueFrom" = Some (VStr e)) ->
   exception v' = exception v).
Proof.
  intros Hsink. unfold check_sink.
  destruct (dict_get sink sourceField) as [source|].
  - intros H. apply bind_Ok in H as (vf & Hvf & H).
    apply bind_Ok in H as (pv & _ & H).
    apply bind_Ok in H as ([[[sd1 v1] srcs] lm] & H1 & H).
    apply bind_Ok in H as (v2 & H2 & [= <- <-]).
    destruct (sources_of_sink_frame _ _ _ _ _ _ _ _ _ _ Hsink H1)
      as (F & E & W & _).
    destruct (check_sources_frame _ _ _ _ _ _ _ _ Hsink H2) as [W2 E2].
    split; [exact F|]. split; [auto|].
    intros [e He]. rewrite He in Hvf. injection Hvf as <-.
    rewrite E2 by discriminate. exact E.
  - intros [= <- <-]. split; [apply same_but_types_refl|]. auto.
Qed.

Lemma check_sinks_frame (sourceField : string) (todo : list obj)
  (src_dict src_dict' : store) (v v' : validation) :
  incl todo sinks ->
  check_sinks makeError py_repr param_to_step sourceField todo src_dict v
  = Ok (src_dict', v') ->
  same_but_types src_dict src_dict' /\
  (well_addressed sinks src_dict v -> well_addressed sinks src_dict' v') /\
  ((forall sink, In sink todo ->
                 exists e, dict_get sink "valueFrom" = Some (VStr e)) ->
   exception v' = exception v).
Proof.
  revert src_dict v. induction todo as [|sink rest IH]; simpl;
    intros src_dict v Hincl H.
  - injection H as <- <-. split; [apply same_but_types_refl|]. auto.
  - apply bind_Ok in H as ([sd1 v1] & H1 & H). simpl in H.
    destruct (check_sink_frame _ _ _ _ _ _ (Hincl sink (or_introl eq_refl)) H1)
      as (F1 & W1 & E1).
    destruct (IH sd1 v1 (fun x Hx => Hincl x (or_intror Hx)) H)
      as (F2 & W2 & E2).
    split; [eapply same_but_types_trans; eauto|]. split; [auto|].
    intros Hall. rewrite E2, E1; auto.
Qed.

End Frame.

(** X15. [_check_all_types] changes [src_dict] in one way only: when it
    returns, the store holds the ids it held, in the same order, and each
    source parameter is as it was but for its [type]. *)
Theorem check_all_types_frame
  (makeError : value -> option string -> string -> string)
  (py_repr : string -> string) (param_to_step : list (string * obj))
  (src_dict src_dict' : store) (sinks : list obj) (sourceField : string)
  (v : validation) :
  _check_all_types makeError py_repr param_to_step src_dict sinks sourceField
  = Ok (src_dict', v) ->
  same_but_types src_dict src_dict'.
Proof.
  intros H.
  exact (proj1 (check_sinks_frame makeError py_repr param_to_step sinks
                  sourceField sinks _ _ _ _ (incl_refl _) H)).
Qed.

Lemma check_all_types_frame_witness :
  _check_all_types plain_makeError plain_repr Sample.conditional_steps
    Sample.int_store [Sample.nullable_sink] "source"
  = Ok (Sample.store_with Sample.nullable_int, mk_validation [] []) /\
  same_but_types Sample.int_store (Sample.store_with Sample.nullable_int).
Proof.
  split; [reflexivity|].
  apply (check_all_types_frame plain_makeError plain_repr
           Sample.conditional_steps Sample.int_store
           (Sample.store_with Sample.nullable_int) [Sample.nullable_sink]
           "source" (mk_validation [] [])).
  reflexivity.
Defined.

(** X16. Every warning and every exception record that [_check_all_types]
    returns names a source that [src_dict] holds, before the call and
    after it, and a sink taken from the list it was given. *)
Theorem diagnostics_well_addressed
  (makeError : value -> option string -> string -> string)
  (py_repr : string -> string) (param_to_step : list (string * obj))
  (src_dict src_dict' : store) (sinks : list obj) (sourceField : string)
  (v : validation) :
  _check_all_types makeError py_repr param_to_step src_dict sinks sourceField
  = Ok (src_dict', v) ->
  forall w, In w (warning v ++ exception v) ->
            dict_has src_dict (SrcSink.src w) = true /\
            dict_has src_dict' (SrcSink.src w) = true /\
            In (SrcSink.sink w) sinks.
Proof.
  intros H w Hw.
  destruct (check_sinks_frame makeError py_repr param_to_step sinks
              sourceField sinks _ _ _ _ (incl_refl _) H) as (F & W & _).
  destruct (W (fun x (Hx : In x []) => match Hx with end) w Hw) as [Hs Hi].
  split; [|now split].
  now rewrite (same_keys_has src_dict src_dict' _ (proj1 F)).
Qed.

Lemma diagnostics_well_addressed_witness :
  _check_all_types plain_makeError plain_repr [] Sample.int_store
    [More.string_sink] "source"
  = Ok (Sample.int_store, More.mismatch) /\
  forall w, In w (warning More.mismatch ++ exception More.mismatch) ->
            dict_has Sample.int_store (SrcSink.src w) = true /\
            dict_has Sample.int_store (SrcSink.src w) = true /\
            In (SrcSink.sink w) [More.string_sink].
Proof.
  split; [reflexivity|].
  apply (diagnostics_well_addressed plain_makeError plain_repr []
           Sample.int_store Sample.int_store [More.string_sink] "source"
           More.mismatch).
  reflexivity.
Defined.

(** X17. A sink with a [valueFrom] expression is never found in a type
    mismatch: when every sink has one, [_check_all_types] returns no
    exception record, whatever the types are. *)
Theorem valueFrom_silences_mismatches
  (makeError : value -> option string -> string -> string)
  (py_repr : string -> string) (param_to_step : list (string * obj))
  (src_dict src_dict' : store) (sinks : list obj) (sourceField : string)
  (v : validation) :
  (forall sink, In sink sinks ->
                exists e, dict_get sink "valueFrom" = Some (VStr e)) ->
  _check_all_types makeError py_repr param_to_step src_dict sinks sourceField
  = Ok (src_dict', v) ->
  exception v = [].
Proof.
  intros Hall H.
  destruct (check_sinks_frame makeError py_repr param_to_step sinks
              sourceField sinks _ _ _ _ (incl_refl _) H) as (_ & _ & E).
  now apply E.
Qed.

Lemma valueFrom_silences_mismatches_witness :
  (forall sink, In sink [More.computed_sink] ->
                exists e, dict_get sink "valueFrom" = Some (VStr e)) /\
  _check_all_types plain_makeError plain_repr [] Sample.int_store
    [More.computed_sink] "source"
  = Ok (Sample.int_store, mk_validation [] []) /\
  exception (mk_validation [] []) = [].
Proof.
  assert (Hall : forall sink, In sink [More.computed_sink] ->
                   exists e, dict_get sink "valueFrom" = Some (VStr e)).
  { intros sink [<-|[]]. eexists. reflexivity. }
  split; [exact Hall|]. split; [reflexivity|].
  apply (valueFrom_silences_mismatches plain_makeError plain_repr []
           Sample.int_store Sample.int_store [More.computed_sink] "source"
           (mk_validation [] []) Hall).
  reflexivity.
Defined.

Section Untouched.

Variable makeError : value -> option string -> string -> string.
Variable py_repr : string -> string.
Variable param_to_step : list (string * obj).
Variable id : string.
Hypothesis Hcond : is_conditional_step param_to_step id = false.
Hypothesis Hloop : is_all_output_method_loop_step param_to_step id = false.

Lemma set_type_other (src_dict src_dict' : store) (parm_id : string)
  (v : value) :
  parm_id <> id ->
  set_type src_dict parm_id v = Ok src_dict' ->
  dict_get src_dict' id = dict_get src_dict id.
Proof.
  intros Hne H. unfold set_type in H. apply bind_Ok in H as (o & _ & [= <-]).
  apply dict_get_set_other. congruence.
Qed.

Lemma promote_loop_untouched (src_dict src_dict' : store) (parm_id : string) :
  promote_loop param_to_step src_dict parm_id = Ok src_dict' ->
  dict_get src_dict' id = dict_get src_dict id.
Proof.
  unfold promote_loop.
  destruct (is_all_output_method_loop_step param_to_step parm_id) eqn:E.
  - intros H. apply bind_Ok in H as (o & _ & H).
    apply bind_Ok in H as (t & _ & H).
    refine (set_type_other _ _ parm_id _ _ H).
    intros ->. congruence.
  - now intros [= <-].
Qed.

Lemma visit_sources_untouched (sink : obj) (linkMerge pickValue : option string)
  (ids : list value) (st st' : store * validation * list string) :
  visit_sources param_to_step sink linkMerge pickValue ids st = Ok st' ->
  dict_get (fst (fst st')) id = dict_get (fst (fst st)) id.
Proof.
  revert st. induction ids as [|x rest IH]; simpl; intros st H.
  - now injection H as <-.
  - apply bind_Ok in H as (st1 & H1 & H). rewrite (IH _ H).
    destruct st as [[sd v] srcs]. unfold visit_source in H1.
    apply bind_Ok in H1 as (pid & _ & H1).
    apply bind_Ok in H1 as (o & _ & H1).
    apply bind_Ok in H1 as (sd' & Hsd' & [= <-]). simpl.
    now apply promote_loop_untouched in Hsd'.
Qed.

Lemma promote_conditional_untouched (sink : obj) (src_dict src_dict' : store)
  (v v' : validation) (parm_id : string) :
  promote_conditional param_to_step sink src_dict v parm_id
  = Ok (src_dict', v') ->
  dict_get src_dict' id = dict_get src_dict id.
Proof.
  unfold promote_conditional.
  destruct (is_conditional_step param_to_step parm_id) eqn:E.
  - intros H. apply bind_Ok in H as (o & _ & H).
    apply bind_Ok in H as (t & _ & H).
    apply bind_Ok in H as (snk & _ & H).
    apply bind_Ok in H as (b & _ & H).
    apply bind_Ok in H as (sd' & Hsd' & [= <- <-]).
    refine (set_type_other _ _ parm_id _ _ Hsd').
    intros ->. congruence.
  - now intros [= <- <-].
Qed.

Lemma check_sink_untouched (sourceField : string) (src_dict src_dict' : store)
  (v v' : validation) (sink : obj) :
  check_sink makeError py_repr param_to_step sourceField src_dict v sink
  = Ok (src_dict', v') ->
  dict_get src_dict' id = dict_get src_dict id.
Proof.
  unfold check_sink. destruct (dict_get sink sourceField) as [source|].
  - intros H. apply bind_Ok in H as (vf & _ & H).
    apply bind_Ok in H as (pv & _ & H).
    apply bind_Ok in H as ([[[sd1 v1] srcs] lm] & H1 & H).
    apply bind_Ok in H as (v2 & _ & [= <- <-]).
    unfold sources_of_sink in H1.
    assert (Hsingle : forall w,
      (parm_id <- cast_str source ;;
       if negb (dict_has src_dict parm_id) then
         Raise (ValidationException
                  (makeError (VDict sink) (Some sourceField)
                     (sourceField ++ " not found: " ++ parm_id)%string))
       else
         r <- promote_conditional param_to_step sink src_dict (w parm_id)
                parm_id ;;
         let '(src_dict, v) := r in
         src_dict <- promote_loop param_to_step src_dict parm_id ;;
         Ok (src_dict, v, [parm_id], None))
      = Ok (sd1, v1, srcs, lm) ->
      dict_get sd1 id = dict_get src_dict id).
    { intros w H0. apply bind_Ok in H0 as (pid & _ & H0).
      destruct (negb _); [discriminate|].
      apply bind_Ok in H0 as ([sd2 v3] & H2 & H0).
      apply bind_Ok in H0 as (sd3 & H3 & [= <- <- <- <-]).
      apply promote_loop_untouched in H3.
      apply promote_conditional_untouched in H2. congruence. }
    destruct source;
      try exact (Hsingle (fun parm_id =>
                   match pv with
                   | Some _ =>
                       add_warning v
                         (SrcSink.mk parm_id sink None
                            (Some "pickValue is used but only a single input source is declared"))
                   | None => v
                   end) H1).
    apply bind_Ok in H1 as (lm0 & _ & H1).
    apply bind_Ok in H1 as ([[sd2 v3] srcs2] & H2 & [= <- <- <- <-]).
    now apply visit_sources_untouched in H2.
  - now intros [= <- <-].
Qed.

Lemma check_sinks_untouched (sourceField : string) (sinks : list obj)
  (src_dict src_dict' : store) (v v' : validation) :
  check_sinks makeError py_repr param_to_step sourceField sinks src_dict v
  = Ok (src_dict', v') ->
  dict_get src_dict' id = dict_get src_dict id.
Proof.
  revert src_dict v. induction sinks as [|sink rest IH]; simpl;
    intros src_dict v H.
  - now injection H as <- <-.
  - apply bind_Ok in H as ([sd1 v1] & H1 & H). simpl in H.
    rewrite (IH _ _ H). now apply check_sink_untouched in H1.
Qed.

End Untouched.

(** X18. [_check_all_types] leaves alone every source whose step is
    neither conditional nor a loop step with [all_iterations]: its entry of
    [src_dict] is after the call what it was before. *)
Theorem unpromoted_source_untouched
  (makeError : value -> option string -> string -> string)
  (py_repr : string -> string) (param_to_step : list (string * obj))
  (src_dict src_dict' : store) (sinks : list obj) (sourceField : string)
  (v : validation) (id : string) :
  is_conditional_step param_to_step id = false ->
  is_all_output_method_loop_step param_to_step id = false ->
  _check_all_types makeError py_repr param_to_step src_dict sinks sourceField
  = Ok (src_dict', v) ->
  dict_get src_dict' id = dict_get src_dict id.
Proof.
  intros Hc Hl H.
  exact (check_sinks_untouched makeError py_repr param_to_step id Hc Hl
           sourceField sinks _ _ _ _ H).
Qed.

Lemma unpromoted_source_untouched_witness :
  is_conditional_step Sample.conditional_steps "file:///wf.cwl#x" = false /\
  is_all_output_method_loop_step Sample.conditional_steps "file:///wf.cwl#x"
  = false /\
  _check_all_types plain_makeError plain_repr Sample.conditional_steps
    More.two_sources [Sample.nullable_sink] "source"
  = Ok (More.two_sources_promoted, mk_validation [] []) /\
  dict_get More.two_sources_promoted "file:///wf.cwl#x"
  = dict_get More.two_sources "file:///wf.cwl#x".
Proof.
  repeat (split; [reflexivity|]).
  apply (unpromoted_source_untouched plain_makeError plain_repr
           Sample.conditional_steps More.two_sources More.two_sources_promoted
           [Sample.nullable_sink] "source" (mk_validation [] [])
           "file:///wf.cwl#x"); reflexivity.
Defined.

Lemma check_sinks_skip
  (makeError : value -> option string -> string -> string)
  (py_repr : string -> string) (param_to_step : list (string * obj))
  (sourceField : string) (sinks : list obj) (src_dict : store)
  (v : validation) :
  check_sinks makeError py_repr param_to_step sourceField
    (filter (fun sink => dict_has sink sourceField) sinks) src_dict v
  = check_sinks makeError py_repr param_to_step sourceField sinks src_dict v.
Proof.
  revert src_dict v. induction sinks as [|sink rest IH]; intros src_dict v;
    [reflexivity|].
  simpl. unfold dict_has at 1.
  destruct (dict_get sink sourceField) as [source|] eqn:E.
  - simpl. destruct (check_sink _ _ _ _ _ _ _) as [[sd1 v1]| |]; simpl; auto.
  - rewrite IH. unfold check_sink. rewrite E. reflexivity.
Qed.

(** X19. Sinks without the source field count for nothing: dropping them
    from the list changes neither the diagnostics, nor the store, nor the
    failure of [_check_all_types]. *)
Theorem sinks_without_source_ignored
  (makeError : value -> option string -> string -> string)
  (py_repr : string -> string) (param_to_step : list (string * obj))
  (src_dict : store) (sinks : list obj) (sourceField : string) :
  _check_all_types makeError py_repr param_to_step src_dict
    (filter (fun sink => dict_has sink sourceField) sinks) sourceField
  = _check_all_types makeError py_repr param_to_step src_dict sinks sourceField.
Proof. apply check_sinks_skip. Qed.

(* ================================================================= *)
(** ** [static_checker]: the source index, the sweep, [missing_subset] *)

(** X20. [missing_subset] returns the members of [subset] that are not in
    [fullset], and nothing else; it returns the empty list exactly when
    [subset] is included in [fullset]. *)
Theorem missing_subset_spec (fullset subset : list string) :
  (forall i, In i (missing_subset fullset subset) <->
             In i subset /\ ~ In i fullset) /\
  (missing_subset fullset subset = [] <-> incl subset fullset).
Proof.
  assert (Hin : forall i, In i (missing_subset fullset subset) <->
                          In i subset /\ ~ In i fullset).
  { intros i. unfold missing_subset. rewrite filter_In.
    change (existsb (String.eqb i) fullset) with (mem i fullset).
    rewrite negb_true_iff, mem_false. reflexivity. }
  split; [exact Hin|]. split.
  - intros Hnil i Hi.
    destruct (mem i fullset) eqn:E; [now apply mem_In|].
    apply mem_false in E. rewrite Hnil in Hin.
    destruct (proj2 (Hin i) (conj Hi E)).
  - intros Hincl. destruct (missing_subset fullset subset) as [|i l] eqn:E;
      [reflexivity|].
    destruct (proj1 (Hin i) (or_introl eq_refl)) as [Hs Hf]. elim Hf. auto.
Qed.

Lemma find_snoc {A} (f : A -> bool) (l : list A) (x : A) :
  find f (l ++ [x])
  = match find f l with
    | Some y => Some y
    | None => if f x then Some x else None
    end.
Proof.
  induction l as [|y l IH]; simpl; [reflexivity|].
  destruct (f y); [reflexivity|exact IH].
Qed.

Lemma index_sources_lookup_from (params : list obj) :
  forall (src_dict src_dict' : store) (id : string),
  index_sources params src_dict = Ok src_dict' ->
  dict_get src_dict' id
  = match find (has_id id) (rev params) with
    | Some param => Some param
    | None => dict_get src_dict id
    end.
Proof.
  induction params as [|p rest IH]; simpl; intros sd sd' id H.
  - now injection H as <-.
  - apply bind_Ok in H as (v & Hv & H). apply bind_Ok in H as (pid & Hpid & H).
    destruct v; try discriminate. injection Hpid as <-.
    apply getitem_Ok in Hv.
    rewrite (IH _ _ id H), find_snoc.
    destruct (find (has_id id) (rev rest)); [reflexivity|].
    unfold has_id, get_default, is_str. rewrite Hv. simpl.
    destruct (String.eqb_spec s id) as [->|Hne].
    + now rewrite dict_get_set_same.
    + rewrite dict_get_set_other; [reflexivity|congruence].
Qed.

(** X21. The source index of [static_checker]: an id is looked up to the
    last parameter of the list that carries it, so that a step output
    replaces a workflow input of the same id; an id no parameter carries
    is not in the index. *)
Theorem index_sources_lookup (params : list obj) (src_dict : store)
  (id : string) :
  index_sources params [] = Ok src_dict ->
  dict_get src_dict id = find (has_id id) (rev params).
Proof.
  intros H. rewrite (index_sources_lookup_from params [] src_dict id H).
  now destruct (find _ _).
Qed.

Lemma index_sources_lookup_witness :
  index_sources [More.earlier; More.other; More.later] []
  = Ok More.shadowed_index /\
  (dict_get More.shadowed_index "file:///wf.cwl#p"
   = find (has_id "file:///wf.cwl#p")
       (rev [More.earlier; More.other; More.later]) /\
   find (has_id "file:///wf.cwl#p") (rev [More.earlier; More.other; More.later])
   = Some More.later) /\
  (dict_get More.shadowed_index "file:///wf.cwl#absent"
   = find (has_id "file:///wf.cwl#absent")
       (rev [More.earlier; More.other; More.later]) /\
   find (has_id "file:///wf.cwl#absent")
     (rev [More.earlier; More.other; More.later])
   = None).
Proof.
  assert (H : index_sources [More.earlier; More.other; More.later] []
              = Ok More.shadowed_index) by reflexivity.
  split; [exact H|]. split; (split; [|reflexivity]).
  - exact (index_sources_lookup [More.earlier; More.other; More.later]
             More.shadowed_index "file:///wf.cwl#p" H).
  - exact (index_sources_lookup [More.earlier; More.other; More.later]
             More.shadowed_index "file:///wf.cwl#absent" H).
Defined.

Lemma is_null_contains (t : value) :
  is_str t "null" = true -> py_contains t "null" = Ok true.
Proof. intros H. apply is_str_true in H. subst. reflexivity. Qed.

(** X22. The sweep of [static_checker] over the step inputs reports a
    step input exactly when ["null" in] its type is false and it has no
    [source], no [default] and no [valueFrom]; the message is the
    required-parameter text for its id. For a type given as a string the
    test is a substring test. *)
Theorem required_sweep_reports
  (makeError : value -> option string -> string -> string)
  (step_inputs : list obj) (msgs : list string) (m : string) :
  required_sweep makeError step_inputs = Ok msgs ->
  (In m msgs <->
   exists sink t id,
     In sink step_inputs /\
     dict_get sink "type" = Some t /\ py_contains t "null" = Ok false /\
     dict_has sink "source" = false /\ dict_has sink "default" = false /\
     dict_has sink "valueFrom" = false /\
     dict_get sink "id" = Some (VStr id) /\
     m = required_parameter_msg makeError sink id).
Proof.
  revert msgs. induction step_inputs as [|sink rest IH]; simpl; intros msgs H.
  - injection H as <-. split; [intros []|intros (? & ? & ? & [] & _)].
  - apply bind_Ok in H as (t & Ht & H). apply getitem_Ok in Ht.
    apply bind_Ok in H as (no_null & Hnn & H).
    apply bind_Ok in H as (here & Hhere & H).
    apply bind_Ok in H as (tl & Htl & [= <-]).
    specialize (IH tl Htl).
    assert (Hnull : py_contains t "null" = Ok (negb no_null)).
    { destruct (is_str t "null") eqn:E; cbn [negb] in Hnn.
      - injection Hnn as <-. now apply is_null_contains.
      - apply bind_Ok in Hnn as (b & Hb & [= <-]). now rewrite negb_involutive. }
    rewrite in_app_iff, IH. split.
    + intros [Hm|(s & t' & id & Hs & Hrest)].
      * destruct no_null; cbn [andb] in Hhere; [|now injection Hhere as <-].
        destruct (dict_has sink "source") eqn:E1; cbn [negb andb] in Hhere;
          [now injection Hhere as <-|].
        destruct (dict_has sink "default") eqn:E2; cbn [negb andb] in Hhere;
          [now injection Hhere as <-|].
        destruct (dict_has sink "valueFrom") eqn:E3; cbn [negb andb] in Hhere;
          [now injection Hhere as <-|].
        apply bind_Ok in Hhere as (v & Hv & Hhere).
        apply bind_Ok in Hhere as (id & Hid & [= <-]).
        destruct v; try discriminate. injection Hid as <-.
        apply getitem_Ok in Hv. destruct Hm as [<-|[]].
        exists sink, t, s. repeat (split; [auto; fail|]). reflexivity.
      * exists s, t', id. split; [now right|exact Hrest].
    + intros (s & t' & id & [<-|Hs] & Ht' & Hc & H1 & H2 & H3 & Hid & ->).
      * left. rewrite Ht in Ht'. injection Ht' as <-.
        rewrite Hnull in Hc. injection Hc as Hc.
        apply negb_false_iff in Hc. subst no_null.
        rewrite H1, H2, H3 in Hhere. cbn in Hhere.
        unfold getitem in Hhere. rewrite Hid in Hhere. cbn in Hhere.
        injection Hhere as <-. now left.
      * right. exists s, t', id. auto 10.
Qed.

Lemma required_sweep_reports_witness :
  required_sweep plain_makeError [Sample.unfed_input] = Ok [More.unfed_message] /\
  (In More.unfed_message [More.unfed_message] <->
   exists sink t id,
     In sink [Sample.unfed_input] /\
     dict_get sink "type" = Some t /\ py_contains t "null" = Ok false /\
     dict_has sink "source" = false /\ dict_has sink "default" = false /\
     dict_has sink "valueFrom" = false /\
     dict_get sink "id" = Some (VStr id) /\
     More.unfed_message = required_parameter_msg plain_makeError sink id).
Proof.
  split; [reflexivity|].
  apply (required_sweep_reports plain_makeError [Sample.unfed_input]
           [More.unfed_message] More.unfed_message).
  reflexivity.
Defined.

(* ================================================================= *)
(** ** The cycle detector *)

Lemma dict_set_new_keys {A} (d : list (string * A)) (k : string) (v : A) :
  dict_get d k = None ->
  map fst (dict_set d k v) = map fst d ++ [k] /\ ~ In k (map fst d).
Proof.
  induction d as [|[k' v'] d IH]; simpl; [auto|].
  destruct (String.eqb_spec k k') as [->|Hne]; [discriminate|].
  intros H. destruct (IH H) as [IH1 IH2]. simpl. rewrite IH1.
  split; [reflexivity|]. intros [E|E]; [now elim Hne|contradiction].
Qed.

Lemma dict_set_simple (adjacency : graph) (k : string) (outs : list string) :
  simple_graph adjacency -> NoDup outs ->
  simple_graph (dict_set adjacency k outs).
Proof.
  intros [Hk Ho] Hnd. split.
  - destruct (dict_get adjacency k) as [x|] eqn:E.
    + now rewrite (dict_set_keys _ _ x).
    + destruct (dict_set_new_keys adjacency k outs E) as [-> Hnot].
      apply NoDup_app; [exact Hk|repeat constructor; intros []|].
      intros x Hx [<-|[]]. contradiction.
  - intros u o. destruct (String.eqb_spec u k) as [->|Hne].
    + rewrite dict_get_set_same. now intros [= <-].
    + rewrite dict_get_set_other by exact Hne. apply Ho.
Qed.

Lemma add_edge_simple (adjacency : graph) (a b : string) :
  simple_graph adjacency -> simple_graph (add_edge adjacency a b).
Proof.
  intros H. unfold add_edge.
  destruct (dict_get adjacency a) as [outs|] eqn:E.
  - destruct (mem b outs) eqn:Hb; [exact H|].
    apply dict_set_simple; [exact H|]. apply mem_false in Hb.
    apply NoDup_app; [exact (proj2 H a outs E)|repeat constructor; intros []|].
    intros x Hx [<-|[]]. contradiction.
  - apply dict_set_simple; [exact H|]. repeat constructor. intros [].
Qed.

Lemma add_step_input_simple (adjacency adjacency' : graph) (step_input : obj) :
  add_step_input adjacency step_input = Ok adjacency' ->
  simple_graph adjacency -> simple_graph adjacency'.
Proof.
  unfold add_step_input. destruct (dict_get step_input "source") as [source|].
  2:{ now intros [= <-]. }
  intros H Hs. apply bind_Ok in H as (vins & _ & H).
  apply bind_Ok in H as (idv & _ & H).
  apply bind_Ok in H as (id & _ & H).
  apply bind_Ok in H as (b & _ & H).
  assert (Hfold : simple_graph
            (fold_left (fun adj vertex_in => add_edge adj vertex_in b) vins
               adjacency)).
  { clear H. revert adjacency Hs. induction vins as [|a rest IH]; simpl; auto.
    intros adjacency Hs. apply IH. now apply add_edge_simple. }
  destruct (dict_has _ b); injection H as <-; [exact Hfold|].
  apply dict_set_simple; [exact Hfold|constructor].
Qed.

Lemma dependency_tree_from_simple (step_inputs : list obj) :
  forall adjacency adjacency',
  dependency_tree_from step_inputs adjacency = Ok adjacency' ->
  simple_graph adjacency -> simple_graph adjacency'.
Proof.
  induction step_inputs as [|si rest IH]; simpl; intros adj adj' H Hs.
  - now injection H as <-.
  - apply bind_Ok in H as (adj1 & H1 & H).
    apply (IH _ _ H). now apply (add_step_input_simple _ _ _ H1).
Qed.

(** X23. The adjacency list [get_dependency_tree] returns has exactly the
    edges the step inputs give (from the step of each source to the step
    of the input), holds every vertex as a key, each key once, and each
    successor once under its key. *)
Theorem dependency_tree_shape (step_inputs : list obj) (adjacency : graph) :
  get_dependency_tree step_inputs = Ok adjacency ->
  (forall u v, adj_edge adjacency u v <-> dep_edge step_inputs u v) /\
  closed adjacency /\
  NoDup (map fst adjacency) /\
  (forall u outs, dict_get adjacency u = Some outs -> NoDup outs).
Proof.
  intros H. destruct (get_dependency_tree_spec _ _ H) as [He Hc].
  split; [exact He|]. split; [exact Hc|].
  apply (dependency_tree_from_simple _ _ _ H).
  split; [constructor|]. intros u outs [=].
Qed.

Lemma dependency_tree_shape_witness :
  get_dependency_tree Sample.line = Ok More.line_graph /\
  (forall u v, adj_edge More.line_graph u v <-> dep_edge Sample.line u v) /\
  closed More.line_graph /\
  NoDup (map fst More.line_graph) /\
  (forall u outs, dict_get More.line_graph u = Some outs -> NoDup outs).
Proof.
  split; [reflexivity|].
  apply (dependency_tree_shape Sample.line More.line_graph). reflexivity.
Defined.

(** X24. On step inputs whose ids and sources are parameter ids the
    search of [circular_dependency_checker] comes back, with every step of
    the graph finished; when it has recorded no cycle, the steps are
    finished in a topological order, each one once and after all the steps
    it feeds. *)
Theorem search_finishes_every_step (step_inputs : list obj) :
  forallb well_identified step_inputs = true ->
  exists adjacency st,
    get_dependency_tree step_inputs = Ok adjacency /\
    visit_vertices adjacency (map fst adjacency) (mk_dfs [] [] []) = Ok st /\
    (forall v, In v (map fst adjacency) -> In v (processed st)) /\
    (cycles st = [] -> topo (adj_edge adjacency) (processed st)).
Proof.
  intros Hids. destruct (get_dependency_tree_total _ Hids) as [adjacency Htree].
  destruct (get_dependency_tree_spec _ _ Htree) as [_ Hclosed].
  destruct (visit_vertices_spec adjacency Hclosed (map fst adjacency)
              (mk_dfs [] [] []))
    as (st & Hst & Hin & Ht & _).
  - intros v. apply keys_dict_has.
  - intros _. constructor.
  - intros H. now elim H.
  - exists adjacency, st. split; [exact Htree|]. split; [exact Hst|].
    split; [|exact Ht]. intros v Hv. apply Hin. now right.
Qed.

Lemma search_finishes_every_step_witness :
  forallb well_identified Sample.line = true /\
  exists adjacency st,
    get_dependency_tree Sample.line = Ok adjacency /\
    visit_vertices adjacency (map fst adjacency) (mk_dfs [] [] []) = Ok st /\
    (forall v, In v (map fst adjacency) -> In v (processed st)) /\
    (cycles st = [] -> topo (adj_edge adjacency) (processed st)).
Proof.
  split; [reflexivity|].
  apply (search_finishes_every_step Sample.line). reflexivity.
Defined.

Lemma chain_snoc (E : string -> string -> Prop) (l : list string) (v : string) :
  chain E l -> (l <> [] -> E (last l EmptyString) v) -> chain E (l ++ [v]).
Proof.
  induction l as [|x l IH]; simpl; [auto|].
  destruct l as [|y l]; simpl in *.
  - intros _ H. split; [apply H; discriminate|exact I].
  - intros [Hxy Hc] H. split; [exact Hxy|].
    apply IH; [exact Hc|]. intros _. apply H. discriminate.
Qed.

Lemma chain_suffix (E : string -> string -> Prop) (pre l : list string) :
  chain E (pre ++ l) -> chain E l.
Proof.
  induction pre as [|x pre IH]; simpl; [auto|].
  destruct (pre ++ l) eqn:Heq; [|intros [_ H]; auto].
  intros _. destruct pre; simpl in Heq; [subst; exact I|discriminate].
Qed.

Lemma last_suffix (pre l : list string) (d : string) :
  l <> [] -> last (pre ++ l) d = last l d.
Proof.
  intros Hl. induction pre as [|x pre IH]; simpl; [reflexivity|].
  destruct (pre ++ l) eqn:Heq; [|exact IH].
  apply app_eq_nil in Heq as [_ ->]. now elim Hl.
Qed.

Lemma from_first_suffix (vertex : string) (path : list string) :
  In vertex path ->
  exists pre rest, path = pre ++ from_first vertex path /\
                   from_first vertex path = vertex :: rest.
Proof.
  induction path as [|x path IH]; simpl; [intros []|].
  destruct (String.eqb_spec x vertex) as [->|Hne].
  - intros _. exists [], path. auto.
  - intros [H|H]; [contradiction|].
    destruct (IH H) as (pre & rest & Hp & Hf).
    exists (x :: pre), rest. split; [simpl; now rewrite <- Hp|exact Hf].
Qed.

Lemma from_first_cycle (E : string -> string -> Prop) (vertex : string)
  (path : list string) :
  NoDup path -> chain E path -> In vertex path ->
  E (last path EmptyString) vertex ->
  simple_cycle E (from_first vertex path).
Proof.
  intros Hnd Hc Hin He.
  destruct (from_first_suffix vertex path Hin) as (pre & rest & Hp & Hf).
  assert (Hne : from_first vertex path <> []) by (rewrite Hf; discriminate).
  split; [exact Hne|]. split; [|split].
  - rewrite Hp in Hnd. now apply NoDup_app_remove_l in Hnd.
  - rewrite Hp in Hc. now apply chain_suffix in Hc.
  - rewrite Hp, last_suffix in He by exact Hne. now rewrite Hf at 2.
Qed.

Section Cycles.

Variable adjacency : graph.

Section Level.

Variable recurse : dfs_state -> result dfs_state.

Hypothesis Hrecurse : forall st st',
  recurse st = Ok st' -> searching (adj_edge adjacency) st ->
  traversal_path st' = removelast (traversal_path st) /\
  Forall (simple_cycle (adj_edge adjacency)) (cycles st').

Lemma visit_successors_cycles (vs : list string) :
  forall st st',
  visit_successors recurse vs st = Ok st' ->
  searching (adj_edge adjacency) st ->
  (forall v, In v vs ->
             adj_edge adjacency (last (traversal_path st) EmptyString) v) ->
  traversal_path st' = traversal_path st /\
  Forall (simple_cycle (adj_edge adjacency)) (cycles st').
Proof.
  induction vs as [|vertex rest IH]; simpl; intros st st' H Hs Hsucc.
  - injection H as <-. split; [reflexivity|apply Hs].
  - apply bind_Ok in H as (st1 & H1 & H).
    destruct Hs as (Hne & Hnd & Hc & Hcy).
    assert (Hedge : adj_edge adjacency (last (traversal_path st) EmptyString)
                      vertex) by (apply Hsucc; now left).
    assert (Hst1 : traversal_path st1 = traversal_path st /\
                   Forall (simple_cycle (adj_edge adjacency)) (cycles st1)).
    { destruct (mem vertex (traversal_path st)) eqn:Hpath.
      - injection H1 as <-. simpl. split; [reflexivity|].
        apply Forall_app. split; [exact Hcy|]. constructor; [|constructor].
        apply mem_In in Hpath. now apply from_first_cycle.
      - destruct (mem vertex (processed st)); cbn [negb] in H1.
        + injection H1 as <-. auto.
        + apply mem_false in Hpath.
          destruct (Hrecurse _ _ H1) as [Hp Hcy1].
          * simpl. split; [now destruct (traversal_path st)|].
            split; [|split; [|exact Hcy]].
            -- apply NoDup_app; [exact Hnd|repeat constructor; intros []|].
               intros x Hx [<-|[]]. contradiction.
            -- apply chain_snoc; auto.
          * simpl in Hp. rewrite removelast_last in Hp. auto. }
    destruct Hst1 as [Hp1 Hcy1].
    destruct (IH st1 st' H) as [Hp Hcy'].
    + unfold searching. rewrite Hp1.
      split; [exact Hne|]. split; [exact Hnd|]. split; [exact Hc|exact Hcy1].
    + rewrite Hp1. intros v Hv. apply Hsucc. now right.
    + split; [congruence|exact Hcy'].
Qed.

Lemma processDFS_body_cycles (st st' : dfs_state) :
  processDFS_body adjacency recurse st = Ok st' ->
  searching (adj_edge adjacency) st ->
  traversal_path st' = removelast (traversal_path st) /\
  Forall (simple_cycle (adj_edge adjacency)) (cycles st').
Proof.
  unfold processDFS_body. intros H Hs.
  destruct (rev (traversal_path st)) as [|tip before] eqn:Hrev; [discriminate|].
  apply bind_Ok in H as (succs & Hsuccs & H).
  apply bind_Ok in H as (st1 & H1 & [= <-]). simpl.
  assert (Hlast : last (traversal_path st) EmptyString = tip).
  { rewrite <- (rev_involutive (traversal_path st)), Hrev. simpl.
    apply last_last. }
  destruct (visit_successors_cycles succs st st1 H1 Hs) as [Hp Hcy].
  - intros v Hv. rewrite Hlast. exists succs. split; [|exact Hv].
    now apply getitem_Ok.
  - now rewrite Hp.
Qed.

End Level.

Lemma processDFS_cycles (fuel : nat) (st st' : dfs_state) :
  processDFS fuel adjacency st = Ok st' ->
  searching (adj_edge adjacency) st ->
  traversal_path st' = removelast (traversal_path st) /\
  Forall (simple_cycle (adj_edge adjacency)) (cycles st').
Proof.
  revert st st'. induction fuel as [|fuel IH]; simpl; intros st st' H;
    [discriminate|].
  now apply (processDFS_body_cycles (processDFS fuel adjacency) IH).
Qed.

Lemma visit_vertices_cycles (vertices : list string) (st st' : dfs_state) :
  visit_vertices adjacency vertices st = Ok st' ->
  Forall (simple_cycle (adj_edge adjacency)) (cycles st) ->
  Forall (simple_cycle (adj_edge adjacency)) (cycles st').
Proof.
  revert st. induction vertices as [|vertex rest IH]; simpl; intros st H Hcy.
  - now injection H as <-.
  - destruct (mem vertex (processed st)); cbn [negb] in H; [eauto|].
    apply bind_Ok in H as (st1 & H1 & H). apply (IH st1 H).
    apply (processDFS_cycles _ _ _ H1).
    split; [discriminate|]. split; [repeat constructor; intros []|].
    split; [exact I|exact Hcy].
Qed.

End Cycles.

(** X25. Every cycle the search records is a directed cycle of the
    adjacency list: a list of vertices, none twice, each joined to the
    next by an edge and the last to the first. *)
Theorem recorded_cycles_are_cycles (adjacency : graph) (st : dfs_state) :
  visit_vertices adjacency (map fst adjacency) (mk_dfs [] [] []) = Ok st ->
  Forall (simple_cycle (adj_edge adjacency)) (cycles st).
Proof.
  intros H. apply (visit_vertices_cycles adjacency _ _ _ H). constructor.
Qed.

Lemma recorded_cycles_are_cycles_witness :
  visit_vertices More.ring_graph (map fst More.ring_graph) (mk_dfs [] [] [])
  = Ok More.ring_search /\
  Forall (simple_cycle (adj_edge More.ring_graph)) (cycles More.ring_search).
Proof.
  split; [reflexivity|].
  apply (recorded_cycles_are_cycles More.ring_graph More.ring_search).
  reflexivity.
Defined.

Lemma split_app (sep : ascii) (a b : string) :
  split sep (a ++ String sep b)%string = split sep a ++ split sep b.
Proof.
  induction a as [|c a IH]; simpl.
  - now rewrite Ascii.eqb_refl.
  - destruct (Ascii.eqb c sep); [now rewrite IH|].
    rewrite IH. destruct (split sep a) as [|h t] eqn:E;
      [now apply split_nonempty in E|reflexivity].
Qed.

Lemma join_split (sep : ascii) (s : string) :
  join (one sep) (split sep s) = s.
Proof.
  unfold join, one. induction s as [|c s IH]; [reflexivity|].
  simpl. destruct (Ascii.eqb_spec c sep) as [->|Hne].
  - destruct (split sep s) as [|h t] eqn:E; [now apply split_nonempty in E|].
    simpl in *. now rewrite IH.
  - destruct (split sep s) as [|h t] eqn:E; [now apply split_nonempty in E|].
    destruct t as [|h' t]; simpl in *; now rewrite <- IH.
Qed.

Lemma has_char_app (sep : ascii) (a b : string) :
  is_substring (one sep) (a ++ b)%string
  = is_substring (one sep) a || is_substring (one sep) b.
Proof.
  induction a as [|c a IH].
  - simpl. now destruct b.
  - change (String c a ++ b)%string with (String c (a ++ b)%string).
    now rewrite !has_char_cons, IH, orb_assoc.
Qed.

Lemma append_assoc (a b c : string) :
  ((a ++ b) ++ c = a ++ (b ++ c))%string.
Proof. induction a as [|x a IH]; simpl; [reflexivity|now rewrite IH]. Qed.

(** X26. [get_step_id] needs a [#] in the id: without one it fails with
    [IndexError], with one it returns. *)
Theorem get_step_id_without_fragment (field_id : string) :
  (is_substring "#" field_id = false -> get_step_id field_id = Raise IndexError) /\
  (is_substring "#" field_id = true -> exists v, get_step_id field_id = Ok v).
Proof.
  split; [|apply get_step_id_total].
  intros H. unfold get_step_id.
  now rewrite (split_no_sep "#" field_id H).
Qed.

Lemma get_step_id_of_port (workflow step port : string) :
  is_substring "#" workflow = false ->
  is_substring "#" step = false ->
  is_substring "#" port = false ->
  is_substring "/" port = false ->
  get_step_id (workflow ++ "#" ++ step ++ "/" ++ port)%string
  = Ok (workflow ++ "#" ++ step)%string.
Proof.
  intros Hw Hs Hp Hport. unfold get_step_id.
  change (workflow ++ "#" ++ step ++ "/" ++ port)%string
    with (workflow ++ String "#" (step ++ String "/" port))%string.
  rewrite (split_app "#"), (split_no_sep "#" workflow Hw).
  assert (Hfrag : is_substring "#" (step ++ String "/" port)%string = false).
  { change "#" with (one "#"). rewrite has_char_app, has_char_cons.
    change (one "#") with "#". now rewrite Hs, Hp. }
  rewrite (split_no_sep "#" _ Hfrag). cbn [app nth_error].
  assert (Hslash : is_substring "/" (step ++ String "/" port)%string = true).
  { change "/" with (one "/") at 1. rewrite has_char_app, has_char_cons.
    rewrite Ascii.eqb_refl. now rewrite orb_true_r. }
  rewrite Hslash.
  change (workflow ++ String "#" (step ++ String "/" port))%string
    with (workflow ++ ("#" ++ step) ++ String "/" port)%string.
  rewrite <- append_assoc, (split_app "/"), (split_no_sep "/" port Hport).
  rewrite removelast_last. change "/" with (one "/") at 1.
  now rewrite join_split.
Qed.

Lemma get_step_id_of_workflow_parameter (workflow name : string) :
  is_substring "#" workflow = false ->
  is_substring "#" name = false ->
  is_substring "/" name = false ->
  get_step_id (workflow ++ "#" ++ name)%string = Ok workflow.
Proof.
  intros Hw Hn Hname. unfold get_step_id.
  change (workflow ++ "#" ++ name)%string
    with (workflow ++ String "#" name)%string.
  rewrite (split_app "#"), (split_no_sep "#" workflow Hw),
    (split_no_sep "#" name Hn).
  cbn [app nth_error hd]. now rewrite Hname.
Qed.

(** X27. What [get_step_id] extracts, for a workflow id without [#] and
    names without [#] and [/]: from the id of a step's input or output,
    the id of the step; from the id of a parameter of the workflow, the id
    of the workflow. *)
Theorem get_step_id_of_ids (workflow step name : string) :
  is_substring "#" workflow = false ->
  is_substring "#" step = false ->
  is_substring "#" name = false ->
  is_substring "/" name = false ->
  get_step_id (workflow ++ "#" ++ step ++ "/" ++ name)%string
  = Ok (workflow ++ "#" ++ step)%string /\
  get_step_id (workflow ++ "#" ++ name)%string = Ok workflow.
Proof.
  intros Hw Hs Hn Hname. split.
  - now apply get_step_id_of_port.
  - now apply get_step_id_of_workflow_parameter.
Qed.

Lemma get_step_id_of_ids_witness :
  is_substring "#" "file:///wf.cwl" = false /\
  is_substring "#" "step1" = false /\
  is_substring "#" "out" = false /\
  is_substring "/" "out" = false /\
  get_step_id ("file:///wf.cwl" ++ "#" ++ "step1" ++ "/" ++ "out")%string
  = Ok ("file:///wf.cwl" ++ "#" ++ "step1")%string /\
  get_step_id ("file:///wf.cwl" ++ "#" ++ "out")%string = Ok "file:///wf.cwl".
Proof.
  repeat (split; [reflexivity|]).
  apply (get_step_id_of_ids "file:///wf.cwl" "step1" "out"); reflexivity.
Defined.
